(** * btc-wallet-client, [lib/common/utils.js]: a shallow embedding

    The module [Utils] of the wallet client is a set of synchronous
    functions over plain values.  Each function is embedded as a Rocq
    function of the same name.  A JavaScript exception becomes the
    [Throw] branch of [result]; the assertion helper [$] of the
    [preconditions] package becomes [checkArgument] and [checkState].

    The libraries the module calls for keys, signatures, addresses,
    transactions and encryption ([@owstack/btc-lib], [sjcl]) are
    collaborators: they enter as records of operations ([TransactionLib],
    [CryptoLib], [AddressLib], [SjclLib]), and every statement names the
    laws of a collaborator it relies on.  A small reference instance of
    each record serves to run the embedded functions on concrete inputs.

    What the module takes from the language itself and from
    [json-stable-stringify] is embedded in full: truthiness, [split],
    [replace], [join], the number conversions [toString], [toFixed] and
    [parseFloat] over binary64 values, and the key-sorting serialiser.

    The amounts of a transaction plan are integers ([Z]); the numbers
    of a proposal header and of [formatAmount] are binary64 values.  The
    constants of [constants.js] and
    [defaults.js] ([SCRIPT_TYPES], [UNITS], [MAX_TX_FEE]) are parameters.
    The first part holds the definitions, the second the statements. *)

From Stdlib Require Import ZArith QArith Qround List String Ascii Bool Lia.
From stdpp Require Import base list strings sorting pretty.

Local Open Scope string_scope.
Local Open Scope list_scope.
Local Open Scope Z_scope.
Local Set Warnings "-register-all".

(** ** Exceptions *)

Inductive Error : Type :=
| ArgumentError            (* thrown by [$.checkArgument] *)
| StateError               (* thrown by [$.checkState] *)
| TypeError                (* property access on [undefined] *)
| RangeError               (* thrown by [toFixed] *)
| LibraryError (tag : string). (* thrown inside a collaborator *)

Inductive result (A : Type) : Type :=
| Ok (a : A)
| Throw (e : Error).
Arguments Ok {A} a.
Arguments Throw {A} e.

(** Sequencing: a statement that throws ends the function.  With these
    instances [x ← r; k] and [r;; k] are stdpp's monadic notations. *)
#[global] Instance result_bind : MBind result := fun A B k r =>
  match r with
  | Ok a => k a
  | Throw e => Throw e
  end.
#[global] Instance result_ret : MRet result := fun A a => Ok a.

Definition checkArgument (c : bool) : result unit :=
  if c then Ok tt else Throw ArgumentError.

Definition checkState (c : bool) : result unit :=
  if c then Ok tt else Throw StateError.

(** [_.each(xs, f)] where [f] mutates one object and may throw. *)
Fixpoint each {A S} (f : A -> S -> result S) (xs : list A) (s : S) : result S :=
  match xs with
  | [] => Ok s
  | x :: xs' => s' ← f x s; each f xs' s'
  end.

(** [_.map(xs, f)] where [f] may throw. *)
Fixpoint mapM {A B} (f : A -> result B) (xs : list A) : result (list B) :=
  match xs with
  | [] => Ok []
  | x :: xs' => y ← f x; ys ← mapM f xs'; Ok (y :: ys)
  end.

(** ** JavaScript truthiness, for the value shapes the module receives *)

Class Truthy (A : Type) := truthy : A -> bool.
#[global] Instance truthy_string : Truthy string :=
  fun s => negb (String.eqb s "").
#[global] Instance truthy_Z : Truthy Z := fun z => negb (z =? 0).
#[global] Instance truthy_list {A} : Truthy (list A) := fun _ => true.
#[global] Instance truthy_option {A} `{Truthy A} : Truthy (option A) :=
  fun o => match o with Some a => truthy a | None => false end.

(** [xs[i]] for a numeric index: [undefined] out of range. *)
Definition js_index {A} (xs : list A) (i : Z) : option A :=
  if i <? 0 then None else xs !! Z.to_nat i.

(** [_.reject(xs, p)]; a missing array counts as empty. *)
Definition reject {A} (p : A -> bool) (xs : option (list A)) : list A :=
  List.filter (fun x => negb (p x)) (default [] xs).

(** [_.includes(_.values(Constants.SCRIPT_TYPES), s)] *)
Definition includes (xs : list string) (s : string) : bool :=
  existsb (String.eqb s) xs.

(** * TransactionAssembler *)

(** ** The transaction plan *)

Record Utxo : Type := {
  txid : string;
  vout : Z;
  satoshis : Z;
  publicKeys : list string
}.

Record PlanOutput : Type := {
  script : option string;
  toAddress : option string;
  amount : Z
}.

Record ChangeAddress : Type := { address : string }.

Record TxProposal : Type := {
  addressType : string;
  inputs : list Utxo;
  requiredSignatures : Z;
  txp_toAddress : option string;
  txp_amount : option Z;
  outputs : option (list PlanOutput);
  fee : Z;
  changeAddress : ChangeAddress;
  outputOrder : option (list Z)
}.

(** ** The collaborator's transaction object

    [btcLib.Transaction] is mutated in place by its methods, each of
    which returns [this] or throws; here each method maps the object's
    state to its next state. *)

Record TransactionLib : Type := {
  Tx : Type;
  TxOutput : Type;
  out_satoshis : TxOutput -> Z;
  tx_new : Tx;                                           (* new Transaction() *)
  tx_outputs : Tx -> list TxOutput;                      (* t.outputs *)
  tx_from : Utxo -> list string -> Z -> Tx -> result Tx; (* t.from(i, keys, n) *)
  tx_from_array : list Utxo -> Tx -> result Tx;          (* t.from(inputs) *)
  tx_to : string -> Z -> Tx -> result Tx;                (* t.to(addr, amount) *)
  tx_addOutput : string -> Z -> Tx -> result Tx;
      (* t.addOutput(new Transaction.Output({script, satoshis})) *)
  tx_fee : Z -> Tx -> result Tx;                         (* t.fee(fee) *)
  tx_change : string -> Tx -> result Tx;                 (* t.change(addr) *)
  tx_sortOutputs :
    (list TxOutput -> list (option TxOutput)) -> Tx -> result Tx
      (* t.sortOutputs(f) *)
}.

Section TransactionAssembler.

Variable L : TransactionLib.
(** [Constants.SCRIPT_TYPES.P2SH], [Constants.SCRIPT_TYPES.P2PKH] and
    [Defaults.MAX_TX_FEE]. *)
Variables P2SH P2PKH : string.
Variable MAX_TX_FEE : Z.

Definition SCRIPT_TYPES_values : list string := [P2SH; P2PKH].

(** Lines 179-188: the [switch] over the address type. *)
Definition attachInputs (txp : TxProposal) (t : Tx L) : result (Tx L) :=
  if String.eqb (addressType txp) P2SH then
    each (fun i => tx_from L i (publicKeys i) (requiredSignatures txp))
         (inputs txp) t
  else if String.eqb (addressType txp) P2PKH then
    tx_from_array L (inputs txp) t
  else Ok t.

(** Lines 193-203: one explicit output of the plan. *)
Definition addPlanOutput (o : PlanOutput) (t : Tx L) : result (Tx L) :=
  checkState (truthy (script o) || truthy (toAddress o));;
  if truthy (script o)
  then tx_addOutput L (default "" (script o)) (amount o) t
  else tx_to L (default "" (toAddress o)) (amount o) t.

(** Lines 190-204. *)
Definition addOutputs (txp : TxProposal) (t : Tx L) : result (Tx L) :=
  if truthy (txp_toAddress txp) && truthy (txp_amount txp)
     && negb (truthy (outputs txp))
  then tx_to L (default "" (txp_toAddress txp)) (default 0 (txp_amount txp)) t
  else match outputs txp with
       | Some os => each addPlanOutput os t
       | None => Ok t
       end.

(** Lines 175-207: everything up to the change output. *)
Definition assemble (txp : TxProposal) : result (Tx L) :=
  let t := tx_new L in
  checkState (includes SCRIPT_TYPES_values (addressType txp));;
  t ← attachInputs txp t;
  t ← addOutputs txp t;
  t ← tx_fee L (fee txp) t;
  tx_change L (address (changeAddress txp)) t.

(** Lines 211-213: the plan's order without the indices that are not
    below the output count. *)
Definition filteredOrder (txp : TxProposal) (t : Tx L) : list Z :=
  reject (fun order => Z.of_nat (length (tx_outputs L t)) <=? order)
         (outputOrder txp).

(** Lines 216-218: the function handed to [sortOutputs]. *)
Definition permuteBy {A} (order : list Z) (outs : list A) : list (option A) :=
  map (fun i => js_index outs i) order.

(** Lines 209-220. *)
Definition shuffle (txp : TxProposal) (t : Tx L) : result (Tx L) :=
  if (1 <? length (tx_outputs L t))%nat then
    let order := filteredOrder txp t in
    checkState (length (tx_outputs L t) =? length order)%nat;;
    tx_sortOutputs L (permuteBy order) t
  else Ok t.

(** Lines 223-228. *)
Definition totalInputs (txp : TxProposal) : Z :=
  fold_left (fun memo i => satoshis i + memo) (inputs txp) 0.

Definition totalOutputs (t : Tx L) : Z :=
  fold_left (fun memo o => out_satoshis L o + memo) (tx_outputs L t) 0.

(** Lines 230-233. *)
Definition validate (txp : TxProposal) (t : Tx L) : result (Tx L) :=
  checkState (0 <=? totalInputs txp - totalOutputs t);;
  checkState (totalInputs txp - totalOutputs t <=? MAX_TX_FEE);;
  Ok t.

Definition buildTx (txp : TxProposal) : result (Tx L) :=
  t ← assemble txp;
  t ← shuffle txp t;
  validate txp t.

End TransactionAssembler.

(** ** A reference instance of the transaction object

    It keeps the inputs, the outputs, the fee and the change script, and
    follows the collaborator's documented behaviour: an amount must be a
    natural number, [change] appends a change output when the unspent
    value exceeds the fee, [sortOutputs] accepts only a reordering. *)

Record RefOutput : Type := { ref_script : string; ref_satoshis : Z }.

#[global] Instance RefOutput_eq_dec : EqDecision RefOutput.
Proof. solve_decision. Defined.

Record RefTx : Type := {
  ref_inputs : list Utxo;
  ref_outputs : list RefOutput;
  ref_fee : Z
}.

Definition ref_addOutput (s : string) (v : Z) (t : RefTx) : result RefTx :=
  if v <? 0 then Throw (LibraryError "InvalidSatoshis")
  else Ok {| ref_inputs := ref_inputs t;
             ref_outputs := ref_outputs t ++ [{| ref_script := s; ref_satoshis := v |}];
             ref_fee := ref_fee t |}.

Definition ref_from (i : Utxo) (t : RefTx) : result RefTx :=
  if satoshis i <? 0 then Throw (LibraryError "InvalidArgument")
  else Ok {| ref_inputs := ref_inputs t ++ [i];
             ref_outputs := ref_outputs t;
             ref_fee := ref_fee t |}.

Definition ref_unspent (t : RefTx) : Z :=
  fold_right Z.add 0 (map satoshis (ref_inputs t))
  - fold_right Z.add 0 (map ref_satoshis (ref_outputs t)).

Definition ref_change (addr : string) (t : RefTx) : result RefTx :=
  if String.eqb addr "" then Throw (LibraryError "InvalidArgument")
  else if 0 <? ref_unspent t - ref_fee t
       then ref_addOutput addr (ref_unspent t - ref_fee t) t
       else Ok t.

Definition ref_sortOutputs (f : list RefOutput -> list (option RefOutput))
    (t : RefTx) : result RefTx :=
  match mapM (fun o => match o with
                       | Some x => Ok x
                       | None => Throw (LibraryError "InvalidSorting")
                       end) (f (ref_outputs t)) with
  | Ok outs =>
      if bool_decide (outs ≡ₚ ref_outputs t)
      then Ok {| ref_inputs := ref_inputs t; ref_outputs := outs; ref_fee := ref_fee t |}
      else Throw (LibraryError "InvalidSorting")
  | Throw e => Throw e
  end.

Definition RefLib : TransactionLib := {|
  Tx := RefTx;
  TxOutput := RefOutput;
  out_satoshis := ref_satoshis;
  tx_new := {| ref_inputs := []; ref_outputs := []; ref_fee := 0 |};
  tx_outputs := ref_outputs;
  tx_from := fun i _ _ => ref_from i;
  tx_from_array := each ref_from;
  tx_to := ref_addOutput;
  tx_addOutput := ref_addOutput;
  tx_fee := fun v t => Ok {| ref_inputs := ref_inputs t;
                             ref_outputs := ref_outputs t;
                             ref_fee := v |};
  tx_change := ref_change;
  tx_sortOutputs := ref_sortOutputs
|}.

(** Sample plans. *)
Definition utxo_of (v : Z) : Utxo :=
  {| txid := "aa"; vout := 0; satoshis := v; publicKeys := [] |}.

Definition pay (a : string) (v : Z) : PlanOutput :=
  {| script := None; toAddress := Some a; amount := v |}.

Definition plan (ins : list Z) (outs : list PlanOutput) (f : Z)
    (order : option (list Z)) : TxProposal :=
  {| addressType := "P2PKH";
     inputs := map utxo_of ins;
     requiredSignatures := 1;
     txp_toAddress := None;
     txp_amount := None;
     outputs := Some outs;
     fee := f;
     changeAddress := {| address := "change" |};
     outputOrder := order |}.

Definition refBuildTx : TxProposal -> result RefTx :=
  buildTx RefLib "P2SH" "P2PKH" 100000000.

(** ** Laws of [sortOutputs] the statements below rely on

    The collaborator documents [sortOutputs(f)] as replacing the outputs
    by [f(outputs)] when that is a reordering, and throwing otherwise. *)

Definition sortOutputs_sound (L : TransactionLib) : Prop :=
  forall f t t',
    tx_sortOutputs L f t = Ok t' ->
    map Some (tx_outputs L t') = f (tx_outputs L t).

Definition sortOutputs_complete (L : TransactionLib) : Prop :=
  forall f t outs,
    f (tx_outputs L t) = map Some outs ->
    outs ≡ₚ tx_outputs L t ->
    exists t', tx_sortOutputs L f t = Ok t' /\ tx_outputs L t' = outs.

(** The same plan with another [outputOrder]. *)
Definition withOutputOrder (order : option (list Z)) (txp : TxProposal)
    : TxProposal :=
  {| addressType := addressType txp;
     inputs := inputs txp;
     requiredSignatures := requiredSignatures txp;
     txp_toAddress := txp_toAddress txp;
     txp_amount := txp_amount txp;
     outputs := outputs txp;
     fee := fee txp;
     changeAddress := changeAddress txp;
     outputOrder := order |}.

(** The sum of a list of amounts. *)
Definition sumZ (xs : list Z) : Z := fold_right Z.add 0 xs.

(** * HashSign *)

(** ** The collaborator's keys, hashes and signatures *)

Record CryptoLib : Type := {
  PrivateKey : Type;
  PublicKey : Type;
  Signature : Type;
  PrivateKey_new : string -> result PrivateKey;      (* new PrivateKey(k) *)
  PublicKey_new : string -> result PublicKey;        (* new PublicKey(k) *)
  toPublicKey : PrivateKey -> PublicKey;             (* priv.toPublicKey() *)
  Hash_sha256sha256 : list Byte.byte -> list Byte.byte;       (* crypto.Hash.sha256sha256 *)
  ECDSA_sign : list Byte.byte -> PrivateKey -> string -> result Signature;
  ECDSA_verify : list Byte.byte -> Signature -> PublicKey -> string -> result bool;
  Signature_toString : Signature -> string;
  Signature_fromString : string -> result Signature
}.

(** [try { body } catch (e) { handler }] *)
Definition try_catch {A} (body : result A) (handler : Error -> result A)
    : result A :=
  match body with
  | Ok a => Ok a
  | Throw e => handler e
  end.

Section HashSign.

Variable C : CryptoLib.

(** Lines 41-47.  [new Buffer(text)] is the byte sequence of the text and
    [readReverse] returns the digest back to front. *)
Definition hashMessage (text : string) : result (list Byte.byte) :=
  checkArgument (truthy text);;
  let buf := list_byte_of_string text in
  let ret := Hash_sha256sha256 C buf in
  Ok (rev ret).

(** Lines 50-55. *)
Definition signMessage (text : string) (privKey : string) : result string :=
  checkArgument (truthy text);;
  priv ← PrivateKey_new C privKey;
  hash ← hashMessage text;
  sig ← ECDSA_sign C hash priv "little";
  Ok (Signature_toString C sig).

(** Lines 58-74.  An absent signature is [None]. *)
Definition verifyMessage (text : string) (signature : option string)
    (pubKey : string) : result bool :=
  checkArgument (truthy text);;
  checkArgument (truthy pubKey);;
  if negb (truthy signature) then Ok false
  else
    pub ← PublicKey_new C pubKey;
    hash ← hashMessage text;
    try_catch
      (sig ← Signature_fromString C (default "" signature);
       ECDSA_verify C hash sig pub "little")
      (fun _ => Ok false).

(** Lines 83-85. *)
Definition getCopayerHash (name xPubKey requestPubKey : string) : string :=
  String.concat "|" [name; xPubKey; requestPubKey].

(** The signature string [s] verifies for [text] under [pubKey]: it is
    present, it parses, and the collaborator's check answers [true]. *)
Definition verifies (text : string) (signature : option string)
    (pubKey : string) : Prop :=
  exists s sig pub hash,
    signature = Some s /\ s <> ""
    /\ Signature_fromString C s = Ok sig
    /\ PublicKey_new C pubKey = Ok pub
    /\ hashMessage text = Ok hash
    /\ ECDSA_verify C hash sig pub "little" = Ok true.

End HashSign.

(** The laws of the signature scheme that the round trip relies on:
    digests have 32 bytes, signing a 32-byte digest returns, a signature
    verifies under the signer's public key, and a signature survives
    printing and parsing and never prints as the empty string. *)
Record CryptoLaws (C : CryptoLib) : Prop := {
  sha_length : forall b, length (Hash_sha256sha256 C b) = 32%nat;
  sign_returns : forall h priv,
    length h = 32%nat -> exists sig, ECDSA_sign C h priv "little" = Ok sig;
  sign_verify : forall h priv sig,
    ECDSA_sign C h priv "little" = Ok sig ->
    ECDSA_verify C h sig (toPublicKey C priv) "little" = Ok true;
  sig_print_parse : forall sig,
    Signature_fromString C (Signature_toString C sig) = Ok sig;
  sig_print_nonempty : forall sig, Signature_toString C sig <> ""
}.

(** ** A reference instance of the signature scheme

    Keys and signatures are tagged strings: a private key starts with
    ["L"], its public key is ["02"] followed by the same text, and a
    signature is the signer's public key, [":"] and the digest, printed
    after the tag ["30"].
    The digest is the first 32 bytes of the zero-padded message. *)

Definition has_prefix (p s : string) : bool :=
  String.eqb (substring 0 (String.length p) s) p.

Definition ref_digest (b : list Byte.byte) : list Byte.byte :=
  firstn 32 (b ++ repeat Byte.x00 32).

Definition ref_sign (h : list Byte.byte) (priv : string) (endian : string)
    : result string :=
  if (length h =? 32)%nat
  then Ok ("02" +:+ priv +:+ ":" +:+ string_of_list_byte h)
  else Throw (LibraryError "hashbuf must be a 32 byte buffer").

Definition ref_verify (h : list Byte.byte) (sig pub : string) (endian : string)
    : result bool :=
  if (length h =? 32)%nat
  then Ok (String.eqb sig (pub +:+ ":" +:+ string_of_list_byte h))
  else Throw (LibraryError "hashbuf must be a 32 byte buffer").

Definition RefCrypto : CryptoLib := {|
  PrivateKey := string;
  PublicKey := string;
  Signature := string;
  PrivateKey_new := fun k =>
    if has_prefix "L" k then Ok k else Throw (LibraryError "InvalidPrivateKey");
  PublicKey_new := fun k =>
    if has_prefix "02" k then Ok k else Throw (LibraryError "InvalidPublicKey");
  toPublicKey := fun k => "02" +:+ k;
  Hash_sha256sha256 := ref_digest;
  ECDSA_sign := ref_sign;
  ECDSA_verify := ref_verify;
  Signature_toString := fun s => "30" +:+ s;
  Signature_fromString := fun s =>
    if has_prefix "30" s then Ok (substring 2 (String.length s - 2)%nat s)
    else Throw (LibraryError "InvalidSignature")
|}.

(** * SymmetricCipher *)

Record SjclLib : Type := {
  bitArray : Type;
  codec_base64_toBits : string -> result bitArray;   (* sjcl.codec.base64.toBits *)
  sjcl_encrypt : bitArray -> string -> list (string * Z) -> result string;
  sjcl_decrypt : bitArray -> string -> result string
}.

(** [_.defaults(obj, src)]: the properties of [src] that [obj] lacks are
    added to it. *)
Definition defaults (obj src : list (string * Z)) : list (string * Z) :=
  obj ++ List.filter
           (fun kv => negb (existsb (String.eqb (fst kv)) (map fst obj))) src.

Section SymmetricCipher.

Variable S : SjclLib.
(** [Utils.SJCL], the caller's encryption parameters (line 20: empty). *)
Variable SJCL : list (string * Z).

(** Lines 22-28. *)
Definition encryptMessage (message encryptingKey : string) : result string :=
  key ← codec_base64_toBits S encryptingKey;
  sjcl_encrypt S key message (defaults [("ks", 128); ("iter", 1)] SJCL).

(** Lines 32-33: the body of the [try] block. *)
Definition decryptAttempt (cyphertextJson encryptingKey : string)
    : result string :=
  key ← codec_base64_toBits S encryptingKey;
  sjcl_decrypt S key cyphertextJson.

(** Lines 30-37. *)
Definition decryptMessage (cyphertextJson encryptingKey : string)
    : result string :=
  try_catch
    (decryptAttempt cyphertextJson encryptingKey)
    (fun ex => Ok cyphertextJson).

End SymmetricCipher.

(** A reference cipher: the key is its own bit array when it is made of
    base64 letters, and the envelope is the key, [":"] and the message. *)
Definition is_base64_char (c : ascii) : bool :=
  let n := nat_of_ascii c in
  ((65 <=? n) && (n <=? 90) || (97 <=? n) && (n <=? 122)
   || (48 <=? n) && (n <=? 57) || (n =? 43) || (n =? 47) || (n =? 61))%nat.

Definition ref_toBits (k : string) : result string :=
  if forallb is_base64_char (list_ascii_of_string k) then Ok k
  else Throw (LibraryError "this isn't base64!").

Definition ref_decrypt (key ct : string) : result string :=
  if has_prefix (key +:+ ":") ct
  then Ok (substring (String.length key + 1)
                     (String.length ct - (String.length key + 1)) ct)
  else Throw (LibraryError "ccm: tag doesn't match").

Definition RefSjcl : SjclLib := {|
  bitArray := string;
  codec_base64_toBits := ref_toBits;
  sjcl_encrypt := fun key msg _ => Ok (key +:+ ":" +:+ msg);
  sjcl_decrypt := ref_decrypt
|}.

(** * AddressDeriver *)

Record PublicKeyRingEntry : Type := {
  xPubKey : string;
  requestPubKey : string
}.

Module DerivedAddress.
Record t : Type := {
  address : string;
  path : string;
  publicKeys : list string
}.
End DerivedAddress.

Record AddressLib : Type := {
  HDPublicKey : Type;
  PubKey : Type;
  Address : Type;
  HDPublicKey_new : string -> result HDPublicKey;          (* new HDPublicKey(x) *)
  deriveChild : HDPublicKey -> string -> result HDPublicKey; (* xpub.deriveChild(path) *)
  hd_publicKey : HDPublicKey -> PubKey;                    (* .publicKey *)
  Address_createMultisig : list PubKey -> Z -> string -> result Address;
  Address_fromPublicKey : PubKey -> string -> result Address;
  Address_toString : Address -> string;
  PubKey_toString : PubKey -> string
}.

Section AddressDeriver.

Variable A : AddressLib.
Variables P2SH P2PKH : string.

(** Lines 103-106: the callback of [_.map]. *)
Definition derivePublicKey (path : string) (item : PublicKeyRingEntry)
    : result (PubKey A) :=
  xpub ← HDPublicKey_new A (xPubKey item);
  child ← deriveChild A xpub path;
  Ok (hd_publicKey A child).

(** Lines 108-117: the [switch]; [None] is the variable left
    [undefined] when no case matches. *)
Definition makeAddress (scriptType : string) (publicKeys : list (PubKey A))
    (m : Z) (network : string) : result (option (Address A)) :=
  if String.eqb scriptType P2SH then
    a ← Address_createMultisig A publicKeys m network; Ok (Some a)
  else if String.eqb scriptType P2PKH then
    checkState (length publicKeys =? 1)%nat;;
    match publicKeys !! 0%nat with
    | Some pk => a ← Address_fromPublicKey A pk network; Ok (Some a)
    | None => Throw TypeError
    end
  else Ok None.

(** Lines 100-124. *)
Definition deriveAddress (scriptType : string)
    (publicKeyRing : list PublicKeyRingEntry) (path : string) (m : Z)
    (network : string) : result DerivedAddress.t :=
  checkArgument (includes (SCRIPT_TYPES_values P2SH P2PKH) scriptType);;
  publicKeys ← mapM (derivePublicKey path) publicKeyRing;
  btcAddress ← makeAddress scriptType publicKeys m network;
  match btcAddress with
  | Some a =>
      Ok {| DerivedAddress.address := Address_toString A a;
            DerivedAddress.path := path;
            DerivedAddress.publicKeys := map (PubKey_toString A) publicKeys |}
  | None => Throw TypeError
  end.

End AddressDeriver.

(** A reference instance: an extended key is a string starting with
    ["xpub"], a child key appends the path, and an address is the list of
    its keys behind the scheme, the threshold and the network. *)
Definition RefAddress : AddressLib := {|
  HDPublicKey := string;
  PubKey := string;
  Address := string;
  HDPublicKey_new := fun x =>
    if has_prefix "xpub" x then Ok x else Throw (LibraryError "InvalidB58Checksum");
  deriveChild := fun x path =>
    if has_prefix "m/" path then Ok (x +:+ "/" +:+ path)
    else Throw (LibraryError "InvalidPath");
  hd_publicKey := fun x => "02" +:+ x;
  Address_createMultisig := fun keys m network =>
    if (0 <? m) && (m <=? Z.of_nat (length keys))
    then Ok ("3" +:+ network +:+ ":" +:+ String.concat "," keys)
    else Throw (LibraryError "InvalidArgument");
  Address_fromPublicKey := fun key network => Ok ("1" +:+ network +:+ ":" +:+ key);
  Address_toString := fun a => a;
  PubKey_toString := fun k => k
|}.

Definition refDeriveAddress :=
  deriveAddress RefAddress "P2SH" "P2PKH".

Definition ring_of (xs : list string) : list PublicKeyRingEntry :=
  map (fun x => {| xPubKey := x; requestPubKey := "02req" |}) xs.

(** ** [deriveAddress] over a library whose calls may have several outcomes

    Whether two calls of [deriveAddress] agree depends on the library
    calls in it.  Here the library is not taken to be a function: a call
    has a set of possible outcomes, values returned or errors thrown, and
    so has the function that makes the calls.  The statements of lines
    100-124 are the same as above, in the same order. *)

Definition outcomes (A : Type) : Type := result A -> Prop.

#[global] Instance outcomes_ret : MRet outcomes := fun A a r => r = Ok a.

(** [m] first; when it returns, [k] on its value; when it throws, the
    function ends with that error. *)
#[global] Instance outcomes_bind : MBind outcomes := fun A B k m r =>
  (exists a, m (Ok a) /\ k a r) \/ (exists e, m (Throw e) /\ r = Throw e).

(** A step of the module's own, which has one outcome. *)
Definition exactly {A} (r : result A) : outcomes A := fun r' => r' = r.

(** At most one outcome. *)
Definition deterministic {A} (m : outcomes A) : Prop :=
  forall r r', m r -> m r' -> r = r'.

Module Oracle.

Record AddressLib : Type := {
  HDPublicKey : Type;
  PubKey : Type;
  Address : Type;
  HDPublicKey_new : string -> outcomes HDPublicKey;
  deriveChild : HDPublicKey -> string -> outcomes HDPublicKey;
  hd_publicKey : HDPublicKey -> outcomes PubKey;
  Address_createMultisig : list PubKey -> Z -> string -> outcomes Address;
  Address_fromPublicKey : PubKey -> string -> outcomes Address;
  Address_toString : Address -> outcomes string;
  PubKey_toString : PubKey -> outcomes string
}.

(** Every call of the library has at most one outcome. *)
Record Deterministic (A : AddressLib) : Prop := {
  det_new : forall x, deterministic (HDPublicKey_new A x);
  det_deriveChild : forall x p, deterministic (deriveChild A x p);
  det_publicKey : forall x, deterministic (hd_publicKey A x);
  det_createMultisig :
    forall ks m n, deterministic (Address_createMultisig A ks m n);
  det_fromPublicKey : forall k n, deterministic (Address_fromPublicKey A k n);
  det_Address_toString : forall a, deterministic (Address_toString A a);
  det_PubKey_toString : forall k, deterministic (PubKey_toString A k)
}.

(** [_.map(xs, f)] and [_.invokeMap(xs, name)], item by item. *)
Fixpoint mapM {X Y} (f : X -> outcomes Y) (xs : list X) : outcomes (list Y) :=
  match xs with
  | [] => mret []
  | x :: xs' => y ← f x; ys ← mapM f xs'; mret (y :: ys)
  end.

Section AddressDeriver.

Variable A : AddressLib.
Variables P2SH P2PKH : string.

(** Lines 103-106. *)
Definition derivePublicKey (path : string) (item : PublicKeyRingEntry)
    : outcomes (PubKey A) :=
  xpub ← HDPublicKey_new A (xPubKey item);
  child ← deriveChild A xpub path;
  hd_publicKey A child.

(** Lines 108-117. *)
Definition makeAddress (scriptType : string) (publicKeys : list (PubKey A))
    (m : Z) (network : string) : outcomes (option (Address A)) :=
  if String.eqb scriptType P2SH then
    a ← Address_createMultisig A publicKeys m network; mret (Some a)
  else if String.eqb scriptType P2PKH then
    exactly (checkState (length publicKeys =? 1)%nat);;
    match publicKeys !! 0%nat with
    | Some pk => a ← Address_fromPublicKey A pk network; mret (Some a)
    | None => exactly (Throw TypeError)
    end
  else mret None.

(** Lines 100-124. *)
Definition deriveAddress (scriptType : string)
    (publicKeyRing : list PublicKeyRingEntry) (path : string) (m : Z)
    (network : string) : outcomes DerivedAddress.t :=
  exactly
    (checkArgument (includes (SCRIPT_TYPES_values P2SH P2PKH) scriptType));;
  publicKeys ← mapM (derivePublicKey path) publicKeyRing;
  btcAddress ← makeAddress scriptType publicKeys m network;
  match btcAddress with
  | Some a =>
      address ← Address_toString A a;
      keys ← mapM (PubKey_toString A) publicKeys;
      mret {| DerivedAddress.address := address;
              DerivedAddress.path := path;
              DerivedAddress.publicKeys := keys |}
  | None => exactly (Throw TypeError)
  end.

End AddressDeriver.

End Oracle.

(** A library of functions, as one whose calls have a single outcome. *)
Definition oracle_of (F : AddressLib) : Oracle.AddressLib := {|
  Oracle.HDPublicKey := HDPublicKey F;
  Oracle.PubKey := PubKey F;
  Oracle.Address := Address F;
  Oracle.HDPublicKey_new := fun x => exactly (HDPublicKey_new F x);
  Oracle.deriveChild := fun x p => exactly (deriveChild F x p);
  Oracle.hd_publicKey := fun x => exactly (Ok (hd_publicKey F x));
  Oracle.Address_createMultisig := fun ks m n =>
    exactly (Address_createMultisig F ks m n);
  Oracle.Address_fromPublicKey := fun k n =>
    exactly (Address_fromPublicKey F k n);
  Oracle.Address_toString := fun a => exactly (Ok (Address_toString F a));
  Oracle.PubKey_toString := fun k => exactly (Ok (PubKey_toString F k))
|}.


(** * JavaScript numbers

    A JavaScript number is an IEEE 754 binary64 value: a finite value is
    a sign and the exact rational magnitude, which is always one that
    binary64 can hold.  [round64] rounds a non-negative rational to the
    nearest such value, ties to the even significand. *)

Inductive Number : Type :=
| NaN
| Infinity (negative : bool)
| Finite (negative : bool) (magnitude : Q).

Definition pow2 (e : Z) : Q :=
  if 0 <=? e then inject_Z (2 ^ e) else Qmake 1 (Z.to_pos (2 ^ (- e))).

Definition pow10 (e : Z) : Q :=
  if 0 <=? e then inject_Z (10 ^ e) else Qmake 1 (Z.to_pos (10 ^ (- e))).

(** For [q > 0]: the [e] with [2^e <= q < 2^(e+1)]. *)
Definition floor_log2 (q : Q) : Z :=
  let e0 := Z.log2 (Qnum q) - Z.log2 (Zpos (Qden q)) in
  if Qle_bool (pow2 e0) q then e0 else e0 - 1.

(** For [q > 0]: the [d] with [10^d <= q < 10^(d+1)], from an estimate
    that is off by at most one. *)
Definition floor_log10 (q : Q) : Z :=
  let d0 := (floor_log2 q * 30103) / 100000 in
  let d1 := if Qle_bool (pow10 d0) q then d0 else d0 - 1 in
  let d2 := if Qle_bool (pow10 d1) q then d1 else d1 - 1 in
  if Qle_bool (pow10 (d2 + 1)) q
  then (if Qle_bool (pow10 (d2 + 2)) q then d2 + 2 else d2 + 1)
  else d2.

Definition round_half_even (q : Q) : Z :=
  let f := Qfloor q in
  match Qcompare (Qminus q (inject_Z f)) (1 # 2) with
  | Lt => f
  | Gt => f + 1
  | Eq => if Z.even f then f else f + 1
  end.

Definition round64 (negative : bool) (q : Q) : Number :=
  if Qle_bool q 0 then Finite negative 0
  else
    let e := floor_log2 q in
    let u := Z.max (e - 52) (-1074) in
    let m := round_half_even (Qdiv q (pow2 u)) in
    let v := Qred (Qmult (inject_Z m) (pow2 u)) in
    if Qle_bool (pow2 1024) v then Infinity negative else Finite negative v.

(** An integer as a number. *)
Definition Number_of_Z (z : Z) : Number :=
  round64 (z <? 0) (inject_Z (Z.abs z)).

(** [x / y] *)
Definition Number_div (x y : Number) : Number :=
  match x, y with
  | NaN, _ | _, NaN => NaN
  | Infinity _, Infinity _ => NaN
  | Infinity a, Finite b _ => Infinity (xorb a b)
  | Finite a _, Infinity b => Finite (xorb a b) 0
  | Finite a p, Finite b q =>
      if Qeq_bool q 0
      then (if Qeq_bool p 0 then NaN else Infinity (xorb a b))
      else round64 (xorb a b) (Qdiv p q)
  end.

(** ** [Number.prototype.toString]

    ECMAScript's Number::toString: the digits [s] are the fewest that
    read back as the same number, the closest to it among those. *)

Definition roundtrips (x : Q) (s ex : Z) : bool :=
  match round64 false (Qmult (inject_Z s) (pow10 ex)) with
  | Finite _ v => Qeq_bool v x
  | _ => false
  end.

(** The digits [s] and the exponent [ex], [s * 10^ex] reading back as
    [x], tried with [k], [k+1], ... digits. *)
Fixpoint shortest (fuel : nat) (k : Z) (x : Q) (d : Z) : Z * Z :=
  let ex := d + 1 - k in
  let scaled := Qdiv x (pow10 ex) in
  let lo := Qfloor scaled in
  let hi := lo + 1 in
  match fuel with
  | O => (lo, ex)
  | S fuel' =>
      match roundtrips x lo ex, roundtrips x hi ex with
      | true, true =>
          match Qcompare (Qminus scaled (inject_Z lo))
                         (Qminus (inject_Z hi) scaled) with
          | Lt => (lo, ex)
          | Gt => (hi, ex)
          | Eq => if Z.even lo then (lo, ex) else (hi, ex)
          end
      | true, false => (lo, ex)
      | false, true => (hi, ex)
      | false, false => shortest fuel' (k + 1) x d
      end
  end.

Fixpoint zeros (n : nat) : string :=
  match n with
  | O => ""
  | S n' => String "0" (zeros n')
  end.

Definition is_zero_char (c : ascii) : bool := Ascii.eqb c "0".

Fixpoint drop_zeros (l : list ascii) : list ascii :=
  match l with
  | c :: l' => if is_zero_char c then drop_zeros l' else l
  | [] => []
  end.

(** A digit string without its trailing zeros. *)
Definition strip_trailing_zeros (s : string) : string :=
  string_of_list_ascii (rev (drop_zeros (rev (list_ascii_of_string s)))).

Definition positive_toString (q : Q) : string :=
  let '(s, ex) := shortest 20 1 q (floor_log10 q) in
  let all := pretty s in
  let ds := strip_trailing_zeros all in
  let k := Z.of_nat (String.length ds) in
  let n := ex + Z.of_nat (String.length all) in
  if (k <=? n) && (n <=? 21) then
    ds +:+ zeros (Z.to_nat (n - k))
  else if (0 <? n) && (n <=? 21) then
    substring 0 (Z.to_nat n) ds +:+ "."
    +:+ substring (Z.to_nat n) (Z.to_nat (k - n)) ds
  else if (-6 <? n) && (n <=? 0) then
    "0." +:+ zeros (Z.to_nat (- n)) +:+ ds
  else
    let e := n - 1 in
    let sign := if e <? 0 then "-" else "+" in
    if k =? 1 then ds +:+ "e" +:+ sign +:+ pretty (Z.abs e)
    else substring 0 1 ds +:+ "." +:+ substring 1 (Z.to_nat (k - 1)) ds
         +:+ "e" +:+ sign +:+ pretty (Z.abs e).

Definition Number_toString (x : Number) : string :=
  match x with
  | NaN => "NaN"
  | Infinity negative => if negative then "-Infinity" else "Infinity"
  | Finite negative q =>
      if Qeq_bool q 0 then "0"
      else (if negative then "-" else "") +:+ positive_toString q
  end.

(** * Proposal hash *)

(** ** JavaScript values

    A proposal header is plain data: no functions, no cycles.  An object
    is the list of its properties in creation order, with no key twice. *)

Inductive JSValue : Type :=
| JUndefined
| JNull
| JBool (b : bool)
| JNumber (n : Number)
| JString (s : string)
| JArray (items : list JSValue)
| JObject (fields : list (string * JSValue)).

#[global] Instance truthy_JSValue : Truthy JSValue := fun v =>
  match v with
  | JUndefined | JNull => false
  | JBool b => b
  | JNumber n =>
      match n with
      | NaN => false
      | Infinity _ => true
      | Finite _ q => negb (Qeq_bool q 0)
      end
  | JString s => truthy s
  | JArray _ | JObject _ => true
  end.

(** [a || b] *)
Definition js_or (a b : JSValue) : JSValue := if truthy a then a else b.

(** [String(v)], and the element conversion of [Array.prototype.join],
    which prints [undefined] and [null] as nothing. *)
Fixpoint toString (v : JSValue) : string :=
  match v with
  | JUndefined => "undefined"
  | JNull => "null"
  | JBool b => if b then "true" else "false"
  | JNumber n => Number_toString n
  | JString s => s
  | JArray items =>
      String.concat ","
        (map (fun x => match x with
                       | JUndefined | JNull => ""
                       | _ => toString x
                       end) items)
  | JObject _ => "[object Object]"
  end.

Definition join_item (v : JSValue) : string :=
  match v with
  | JUndefined | JNull => ""
  | _ => toString v
  end.

(** [xs.join(sep)] *)
Definition join (sep : string) (xs : list JSValue) : string :=
  String.concat sep (map join_item xs).

(** [arguments[i]] *)
Definition arg (arguments : list JSValue) (i : nat) : JSValue :=
  default JUndefined (arguments !! i).

(** ** [JSON.stringify] on strings *)

Definition dquote : string := String (ascii_of_nat 34) "".
Definition backslash : string := String (ascii_of_nat 92) "".

Definition hex_digit (n : nat) : string :=
  String (ascii_of_nat (if (n <? 10)%nat then 48 + n else 87 + n)) "".

Definition json_escape (c : ascii) : string :=
  let n := nat_of_ascii c in
  if (n =? 34)%nat then backslash +:+ dquote
  else if (n =? 92)%nat then backslash +:+ backslash
  else if (n =? 8)%nat then backslash +:+ "b"
  else if (n =? 12)%nat then backslash +:+ "f"
  else if (n =? 10)%nat then backslash +:+ "n"
  else if (n =? 13)%nat then backslash +:+ "r"
  else if (n =? 9)%nat then backslash +:+ "t"
  else if (n <? 32)%nat
       then backslash +:+ "u00" +:+ hex_digit (n / 16) +:+ hex_digit (n mod 16)
  else String c "".

Definition json_quote (s : string) : string :=
  dquote +:+ String.concat "" (map json_escape (list_ascii_of_string s)) +:+ dquote.

(** ** [Stringify]: the package json-stable-stringify, default options

    [undefined] has no serialisation; a primitive goes through
    [JSON.stringify], which prints a number that is not finite as
    [null]; an array serialises its items, [null] standing for
    an item without serialisation; an object serialises its properties in
    the sorted order of its keys and leaves out those without
    serialisation.  The package reads [node[key]] for each sorted key and
    serialises what it finds; here the properties are serialised first and
    looked up by key afterwards, which is the same value. *)

(** [node[key]] on a list of properties. *)
Fixpoint property {B} (key : string) (fields : list (string * B)) : option B :=
  match fields with
  | [] => None
  | (k, v) :: rest => if String.eqb k key then Some v else property key rest
  end.

(** [Object.keys(node).sort()] *)
Definition sortedKeys {B} (fields : list (string * B)) : list string :=
  merge_sort String.le (map fst fields).

(** One iteration of the loop over the sorted keys. *)
Definition keyValue (values : list (string * option string)) (key : string)
    : option string :=
  match property key values with
  | Some value =>
      if truthy value
      then Some (json_quote key +:+ ":" +:+ default "" value)
      else None
  | None => None
  end.

(** [stringify(node[i]) || JSON.stringify(null)] *)
Definition arrayItem (item : option string) : string :=
  if truthy item then default "" item else "null".

Fixpoint Stringify (node : JSValue) : option string :=
  match node with
  | JUndefined => None
  | JNull => Some "null"
  | JBool b => Some (if b then "true" else "false")
  | JNumber n =>
      Some (match n with Finite _ _ => Number_toString n | _ => "null" end)
  | JString s => Some (json_quote s)
  | JArray items =>
      let out := map (fun x => arrayItem (Stringify x)) items in
      Some ("[" +:+ String.concat "," out +:+ "]")
  | JObject fields =>
      let values := map (fun '(k, v) => (k, Stringify v)) fields in
      let out := omap (keyValue values) (sortedKeys fields) in
      Some ("{" +:+ String.concat "," out +:+ "}")
  end.

(** ** [getProposalHash] *)

(** Lines 88-90. *)
Definition getOldHash (toAddress amount message payProUrl : JSValue) : string :=
  join "|" [toAddress; amount;
            js_or message (JString ""); js_or payProUrl (JString "")].

(** Lines 87-98.  The argument list stands for [arguments]; the result
    is a string or [undefined]. *)
Definition getProposalHash (arguments : list JSValue) : option string :=
  if (1 <? length arguments)%nat then
    Some (getOldHash (arg arguments 0) (arg arguments 1)
                     (arg arguments 2) (arg arguments 3))
  else Stringify (arg arguments 0).

(** ** What the specification asks of the one-argument form

    Written from the specification's words, the canonical JSON
    serialization of a header: the JSON text of the value, as
    [JSON.stringify] writes it without white space, after the properties
    of every object are put in the sorted order of their keys.  A
    property without a value is left out and an array item without a
    value is written [null]. *)

(** The characters that JSON writes with a backslash. *)
Definition JSON_escapes : list (nat * string) :=
  [(34, backslash +:+ dquote); (92, backslash +:+ backslash);
   (8, backslash +:+ "b"); (9, backslash +:+ "t"); (10, backslash +:+ "n");
   (12, backslash +:+ "f"); (13, backslash +:+ "r")]%nat.

Definition JSON_char (c : ascii) : string :=
  let n := nat_of_ascii c in
  match List.find (fun e => (fst e =? n)%nat) JSON_escapes with
  | Some e => snd e
  | None =>
      if (n <? 32)%nat
      then backslash +:+ "u00"
           +:+ substring (n / 16) 1 "0123456789abcdef"
           +:+ substring (n mod 16) 1 "0123456789abcdef"
      else String c ""
  end.

Definition JSON_string (s : string) : string :=
  dquote +:+ String.concat "" (map JSON_char (list_ascii_of_string s)) +:+ dquote.

(** The JSON text of a value, the properties of an object in the order
    they are listed. *)
Fixpoint JSON_text (v : JSValue) : option string :=
  match v with
  | JUndefined => None
  | JNull => Some "null"
  | JBool true => Some "true"
  | JBool false => Some "false"
  | JNumber (Finite negative q) => Some (Number_toString (Finite negative q))
  | JNumber _ => Some "null"
  | JString s => Some (JSON_string s)
  | JArray items =>
      Some ("[" +:+ String.concat "," (map (fun x => default "null" (JSON_text x))
                                           items)
            +:+ "]")
  | JObject fields =>
      Some ("{" +:+ String.concat ","
                      (omap (fun '(k, x) =>
                               match JSON_text x with
                               | Some text => Some (JSON_string k +:+ ":" +:+ text)
                               | None => None
                               end) fields)
            +:+ "}")
  end.

(** The order of two properties is the order of their keys. *)
Definition key_le (a b : string * JSValue) : Prop := String.le (fst a) (fst b).

#[global] Instance key_le_dec : RelDecision key_le.
Proof. intros a b. unfold key_le. apply _. Defined.

(** The value with the properties of every object sorted by key. *)
Fixpoint sortProperties (v : JSValue) : JSValue :=
  match v with
  | JArray items => JArray (map sortProperties items)
  | JObject fields =>
      JObject (merge_sort key_le
                 (map (fun '(k, x) => (k, sortProperties x)) fields))
  | _ => v
  end.

Definition canonicalJSON (v : JSValue) : option string :=
  JSON_text (sortProperties v).

(** No object of the value has a key twice. *)
Fixpoint distinctKeys (v : JSValue) : bool :=
  match v with
  | JArray items => forallb distinctKeys items
  | JObject fields =>
      bool_decide (NoDup (map fst fields))
      && forallb (fun '(_, x) => distinctKeys x) fields
  | _ => true
  end.

(** Two values are the same up to key order: equal primitives, arrays of
    pairwise such items, and objects of which one lists the properties of
    the other in some order, value for value. *)
Inductive same_up_to_key_order : JSValue -> JSValue -> Prop :=
| sko_undefined : same_up_to_key_order JUndefined JUndefined
| sko_null : same_up_to_key_order JNull JNull
| sko_bool b : same_up_to_key_order (JBool b) (JBool b)
| sko_number n : same_up_to_key_order (JNumber n) (JNumber n)
| sko_string s : same_up_to_key_order (JString s) (JString s)
| sko_array items items' :
    Forall2 same_up_to_key_order items items' ->
    same_up_to_key_order (JArray items) (JArray items')
| sko_object fields reordered fields' :
    NoDup (map fst fields) ->
    fields ≡ₚ reordered ->
    Forall2 (fun kv kv' => fst kv = fst kv'
                           /\ same_up_to_key_order (snd kv) (snd kv'))
            reordered fields' ->
    same_up_to_key_order (JObject fields) (JObject fields').

(** An optional string argument: absent is [undefined]. *)
Definition optional (s : option string) : JSValue :=
  match s with Some x => JString x | None => JUndefined end.

(** * AmountFormatter *)

(** ** [Number.prototype.toFixed]

    More than 100 fraction digits are a range error, which comes before
    everything else. *)

Definition Number_toFixed (x : Number) (f : nat) : result string :=
  if (100 <? f)%nat then Throw RangeError
  else
    match x with
    | Finite negative q =>
        if Qle_bool (pow10 21) q then Ok (Number_toString x)
        else
          let s := if negative && negb (Qeq_bool q 0) then "-" else "" in
          (* the integer closest to [q * 10^f], the larger one on a tie *)
          let n := Qfloor (Qplus (Qmult q (pow10 (Z.of_nat f))) (1 # 2)) in
          let m := pretty n in
          if (f =? 0)%nat then Ok (s +:+ m)
          else
            let m := zeros (f + 1 - String.length m) +:+ m in
            let k := String.length m in
            Ok (s +:+ substring 0 (k - f) m +:+ "." +:+ substring (k - f) f m)
    | _ => Ok (Number_toString x)
    end.

(** ** [parseFloat] *)

Definition is_digit (c : ascii) : bool :=
  let n := nat_of_ascii c in ((48 <=? n) && (n <=? 57))%nat.

Definition is_space (c : ascii) : bool :=
  let n := nat_of_ascii c in ((n =? 32) || ((9 <=? n) && (n <=? 13)))%nat.

Fixpoint skip_spaces (l : list ascii) : list ascii :=
  match l with
  | c :: l' => if is_space c then skip_spaces l' else l
  | [] => []
  end.

(** The leading digits of [l], and what follows them. *)
Fixpoint take_digits (l : list ascii) : list ascii * list ascii :=
  match l with
  | c :: l' =>
      if is_digit c
      then let '(ds, rest) := take_digits l' in (c :: ds, rest)
      else ([], l)
  | [] => ([], [])
  end.

Definition digits_value (ds : list ascii) : Z :=
  fold_left (fun acc c => 10 * acc + Z.of_nat (nat_of_ascii c - 48)) ds 0.

Definition take_sign (l : list ascii) : bool * list ascii :=
  match l with
  | c :: l' =>
      if Ascii.eqb c "-" then (true, l')
      else if Ascii.eqb c "+" then (false, l')
      else (false, l)
  | [] => (false, [])
  end.

(** The exponent part [e±ddd] at the head of [l], when it is complete. *)
Definition take_exponent (l : list ascii) : Z :=
  match l with
  | c :: l' =>
      if Ascii.eqb c "e" || Ascii.eqb c "E" then
        let '(negative, l'') := take_sign l' in
        let '(ds, _) := take_digits l'' in
        match ds with
        | [] => 0
        | _ => if negative then - digits_value ds else digits_value ds
        end
      else 0
  | [] => 0
  end.

Definition parseFloat (s : string) : Number :=
  let '(negative, l) := take_sign (skip_spaces (list_ascii_of_string s)) in
  if has_prefix "Infinity" (string_of_list_ascii l) then Infinity negative
  else
    let '(ip, l1) := take_digits l in
    let '(fp, l2) :=
      match l1 with
      | c :: r => if Ascii.eqb c "." then take_digits r else ([], l1)
      | [] => ([], l1)
      end in
    match ip ++ fp with
    | [] => NaN
    | ds =>
        round64 negative
          (Qmult (inject_Z (digits_value ds))
                 (pow10 (take_exponent l2 - Z.of_nat (length fp))))
    end.

(** ** Strings *)

(** The text before and after the first occurrence of [sep]. *)
Fixpoint split_once (sep s : string) : option (string * string) :=
  if has_prefix sep s
  then Some ("", substring (String.length sep)
                           (String.length s - String.length sep) s)
  else match s with
       | "" => None
       | String c s' =>
           match split_once sep s' with
           | Some (a, b) => Some (String c a, b)
           | None => None
           end
       end.

(** [s.split(sep)] for a non-empty separator string. *)
Fixpoint split_fuel (fuel : nat) (sep s : string) : list string :=
  match fuel with
  | O => [s]
  | S fuel' =>
      match split_once sep s with
      | Some (a, b) => a :: split_fuel fuel' sep b
      | None => [s]
      end
  end.

Definition split (sep s : string) : list string :=
  split_fuel (String.length s) sep s.

(** The replacement text of [String.prototype.replace] for one match
    (GetSubstitution): [$$] is a dollar sign, [$&] the matched text,
    [$`] the text before the match, [$'] the text after it, and [$n] or
    [$nn] the capture of that number when there is one; two digits that
    name no capture are read as one digit and a digit.  Everything else,
    a [$] that starts no such pattern included, stands for itself.
    Neither call of this module has named captures. *)
Definition digit_value (c : ascii) : nat := (nat_of_ascii c - 48)%nat.

Definition capture (captures : list (option string)) (index : nat)
    : option string :=
  if ((1 <=? index) && (index <=? length captures))%nat
  then Some (default "" (default None (captures !! (index - 1)%nat)))
  else None.

Fixpoint substitute (matched before after : string)
    (captures : list (option string)) (template : list ascii) : string :=
  match template with
  | [] => ""
  | "$"%char :: rest =>
      match rest with
      | "$"%char :: r =>
          "$" +:+ substitute matched before after captures r
      | "&"%char :: r =>
          matched +:+ substitute matched before after captures r
      | "`"%char :: r =>
          before +:+ substitute matched before after captures r
      | "'"%char :: r =>
          after +:+ substitute matched before after captures r
      | d1 :: r =>
          let one :=
            match (if is_digit d1 then capture captures (digit_value d1)
                   else None) with
            | Some text =>
                text +:+ substitute matched before after captures r
            | None =>
                "$" +:+ String d1 (substitute matched before after captures r)
            end in
          match r with
          | d2 :: r2 =>
              match (if is_digit d1 && is_digit d2
                     then capture captures
                            (10 * digit_value d1 + digit_value d2)
                     else None) with
              | Some text =>
                  text +:+ substitute matched before after captures r2
              | None => one
              end
          | [] => one
          end
      | [] => "$"
      end
  | c :: rest => String c (substitute matched before after captures rest)
  end.

Definition GetSubstitution (matched before after : string)
    (captures : list (option string)) (replacement : string) : string :=
  substitute matched before after captures (list_ascii_of_string replacement).

(** [s.replace(pat, by)] for a string pattern: the first occurrence,
    no captures. *)
Definition replace (pat by_ s : string) : string :=
  match split_once pat s with
  | Some (a, b) => a +:+ GetSubstitution pat a b [] by_ +:+ b
  | None => s
  end.

(** [_.dropRightWhile(xs, p)], [p] receiving the element and its index. *)
Definition dropRightWhile {A} (p : A -> nat -> bool) (xs : list A) : list A :=
  (fix go (n : nat) : list A :=
     match n with
     | O => []
     | S i =>
         match xs !! i with
         | Some x => if p x i then go i else firstn n xs
         | None => firstn n xs
         end
     end) (length xs).

(** ** [formatAmount] *)

Record Precision : Type := { maxDecimals : nat; minDecimals : nat }.

Record Unit : Type := {
  toSatoshis : Z;
  full : Precision;
  short : Precision
}.

Record FormatOptions : Type := {
  fullPrecision : bool;
  thousandsSeparator : option string;
  decimalSeparator : option string
}.

(** [{}] *)
Definition noOptions : FormatOptions :=
  {| fullPrecision := false; thousandsSeparator := None; decimalSeparator := None |}.

(** Lines 145-149. *)
Definition clipDecimals (number : Number) (decimals : nat) : Number :=
  let x := split "." (Number_toString number) in
  let x1 := x !! 1%nat in
  let d := substring 0 decimals (if truthy x1 then default "" x1 else "0") in
  parseFloat (default "" (x !! 0%nat) +:+ "." +:+ d).

Definition is_word (c : ascii) : bool :=
  let n := nat_of_ascii c in
  ((48 <=? n) && (n <=? 57) || (65 <=? n) && (n <=? 90)
   || (97 <=? n) && (n <=? 122) || (n =? 95))%nat.

Definition is_word_at (c : option ascii) : bool :=
  match c with Some a => is_word a | None => false end.

Fixpoint digit_run (l : list ascii) : nat :=
  match l with
  | c :: l' => if is_digit c then S (digit_run l') else O
  | [] => O
  end.

(** The capture [(\d{3})] of a match before [rest]: the group matched
    last, that is the last three digits of the run. *)
Definition lastGroup (rest : list ascii) : string :=
  string_of_list_ascii (firstn 3 (skipn (digit_run rest - 3) rest)).

(** Line 162: [x0.replace(/\B(?=(\d{3})+(?!\d))/g, thousands)].  The
    pattern matches the empty string at every place that is no word
    boundary and is followed by a run of digits whose length is a
    positive multiple of three.  [before] is the text before the place
    and [rest] the text from it on; what is inserted is the replacement
    text of the match. *)
Fixpoint insertThousands (thousands : string) (before rest : list ascii)
    : string :=
  let here :=
    if Bool.eqb (is_word_at (last before)) (is_word_at (head rest))
       && (0 <? digit_run rest)%nat && (digit_run rest mod 3 =? 0)%nat
    then GetSubstitution "" (string_of_list_ascii before)
                         (string_of_list_ascii rest)
                         [Some (lastGroup rest)] thousands
    else "" in
  match rest with
  | [] => here
  | c :: rest' =>
      here +:+ String c (insertThousands thousands (before ++ [c]) rest')
  end.

(** Lines 151-164. *)
Definition addSeparators (nStr thousands decimal : string) (minDecimals : nat)
    : string :=
  let nStr := replace "." decimal nStr in
  let x := split decimal nStr in
  let x0 := default "" (x !! 0%nat) in
  let x1 := default "" (x !! 1%nat) in
  let x1 :=
    string_of_list_ascii
      (dropRightWhile (fun n i => Ascii.eqb n "0" && (minDecimals <=? i)%nat)
                      (list_ascii_of_string x1)) in
  let x2 := if (1 <? length x)%nat then decimal +:+ x1 else "" in
  let x0 := insertThousands thousands [] (list_ascii_of_string x0) in
  x0 +:+ x2.

Section AmountFormatter.

(** [Constants.UNITS], by unit name. *)
Variable UNITS : list (string * Unit).

(** Lines 141-172.  [satoshis] is an integer number, so the check of
    line 142 passes. *)
Definition formatAmount (satoshis : Z) (unit : string) (opts : FormatOptions)
    : result string :=
  checkArgument (includes (map fst UNITS) unit);;
  match property unit UNITS with
  | None => Throw TypeError
  | Some u =>
      let precision := if fullPrecision opts then full u else short u in
      amount ←
        Number_toFixed
          (clipDecimals (Number_div (Number_of_Z satoshis)
                                    (Number_of_Z (toSatoshis u)))
                        (maxDecimals precision))
          (maxDecimals precision);
      Ok (addSeparators amount
            (if truthy (thousandsSeparator opts)
             then default "" (thousandsSeparator opts) else ",")
            (if truthy (decimalSeparator opts)
             then default "" (decimalSeparator opts) else ".")
            (minDecimals precision))
  end.

End AmountFormatter.

(** ** What the specification asks of [formatAmount]

    Written from the specification's words, for a non-negative amount
    and a positive unit size, in integer arithmetic: the amount in the
    unit is cut (not rounded) after [maxDecimals] decimals, trailing zero
    decimals are removed while more than [minDecimals] remain, and the
    integer part gets a separator before every group of three digits. *)

Fixpoint groupThousands (fuel : nat) (thousands : string) (n : Z) : string :=
  match fuel with
  | O => pretty n
  | S fuel' =>
      if n <? 1000 then pretty n
      else
        let low := pretty (n mod 1000) in
        groupThousands fuel' thousands (n / 1000) +:+ thousands
        +:+ zeros (3 - String.length low) +:+ low
  end.

Fixpoint stripZerosTo (min : nat) (reversed : list ascii) : list ascii :=
  match reversed with
  | c :: rest =>
      if is_zero_char c && (min <? length reversed)%nat
      then stripZerosTo min rest
      else reversed
  | [] => []
  end.

Definition truncatedAmount (u : Unit) (satoshis : Z) (opts : FormatOptions)
    : string :=
  let precision := if fullPrecision opts then full u else short u in
  let max := maxDecimals precision in
  let cut := (satoshis * 10 ^ Z.of_nat max) / toSatoshis u in
  let whole := cut / 10 ^ Z.of_nat max in
  let part := pretty (cut mod 10 ^ Z.of_nat max) in
  let decimals := zeros (max - String.length part) +:+ part in
  let kept :=
    string_of_list_ascii
      (rev (stripZerosTo (minDecimals precision)
                         (rev (list_ascii_of_string decimals)))) in
  groupThousands (Z.to_nat (Z.log2 whole)) (default "," (thousandsSeparator opts)) whole
  +:+ (if (max =? 0)%nat then ""
       else default "." (decimalSeparator opts) +:+ kept).

(** ** Unit tables

    [claimUnits] is the unit of the specification's example (size 1e8,
    at most 8 and at least 2 decimals).  [walletUnits] has the two
    profiles of a unit apart: 8 decimals in full, at most 6 and at least 2
    in short, and a unit of size 100. *)

Definition claimUnits : list (string * Unit) :=
  [("BTC", {| toSatoshis := 100000000;
              full := {| maxDecimals := 8; minDecimals := 8 |};
              short := {| maxDecimals := 8; minDecimals := 2 |} |})].

Definition btcUnit : Unit :=
  {| toSatoshis := 100000000;
     full := {| maxDecimals := 8; minDecimals := 8 |};
     short := {| maxDecimals := 6; minDecimals := 2 |} |}.

Definition bitUnit : Unit :=
  {| toSatoshis := 100;
     full := {| maxDecimals := 2; minDecimals := 2 |};
     short := {| maxDecimals := 0; minDecimals := 0 |} |}.

Definition walletUnits : list (string * Unit) :=
  [("btc", btcUnit); ("bit", bitUnit)].

(** [formatAmount] and the specification agree on the amount [s]. *)
Definition agrees (u : string) (opts : FormatOptions) (s : Z) : bool :=
  match formatAmount walletUnits s u opts, property u walletUnits with
  | Ok text, Some unit => String.eqb text (truncatedAmount unit s opts)
  | _, _ => false
  end.

(** * The other functions of the module *)

(** ** Request keys (lines 131-139)

    [signRequestPubKey] derives a private key object and hands it to
    [signMessage], whose line 52 passes it to the [PrivateKey]
    constructor: [PrivateKey_ofKey] is that constructor on a key object. *)

Record HDPrivateLib (C : CryptoLib) : Type := {
  HDPrivateKey : Type;
  HDPrivateKey_new : string -> result HDPrivateKey;     (* new HDPrivateKey(x) *)
  hdpriv_deriveChild : HDPrivateKey -> string -> result HDPrivateKey;
  hdpriv_privateKey : HDPrivateKey -> PrivateKey C;     (* .privateKey *)
  PrivateKey_ofKey : PrivateKey C -> result (PrivateKey C) (* new PrivateKey(key) *)
}.
Arguments HDPrivateKey {C} _.
Arguments HDPrivateKey_new {C} _ _.
Arguments hdpriv_deriveChild {C} _ _ _.
Arguments hdpriv_privateKey {C} _ _.
Arguments PrivateKey_ofKey {C} _ _.

Section RequestKeys.

Variable C : CryptoLib.
Variable H : HDPrivateLib C.
Variable A : AddressLib.
(** [Constants.PATHS.REQUEST_KEY_AUTH] *)
Variable REQUEST_KEY_AUTH : string.

(** Lines 50-55 when [privKey] is a key object. *)
Definition signMessageWithKey (text : string) (privKey : PrivateKey C)
    : result string :=
  checkArgument (truthy text);;
  priv ← PrivateKey_ofKey H privKey;
  hash ← hashMessage C text;
  sig ← ECDSA_sign C hash priv "little";
  Ok (Signature_toString C sig).

(** Lines 131-134. *)
Definition signRequestPubKey (requestPubKey xPrivKey : string) : result string :=
  xpriv ← HDPrivateKey_new H xPrivKey;
  child ← hdpriv_deriveChild H xpriv REQUEST_KEY_AUTH;
  let priv := hdpriv_privateKey H child in
  signMessageWithKey requestPubKey priv.

(** Lines 136-139. *)
Definition verifyRequestPubKey (requestPubKey : string)
    (signature : option string) (xPubKey : string) : result bool :=
  xpub ← HDPublicKey_new A xPubKey;
  child ← deriveChild A xpub REQUEST_KEY_AUTH;
  let pub := hd_publicKey A child in
  verifyMessage C requestPubKey signature (PubKey_toString A pub).

End RequestKeys.

(** A reference instance: an extended private key is ["xprv"] and a
    name, its child appends the path, and the private key of a node is
    ["L"] and the node. *)
Definition RefHDPrivate : HDPrivateLib RefCrypto := {|
  HDPrivateKey := string;
  HDPrivateKey_new := fun x =>
    if has_prefix "xprv" x then Ok x
    else Throw (LibraryError "InvalidB58Checksum");
  hdpriv_deriveChild := fun x path =>
    if has_prefix "m/" path then Ok (x +:+ "/" +:+ path)
    else Throw (LibraryError "InvalidPath");
  hdpriv_privateKey := fun x => ("L" +:+ x : PrivateKey RefCrypto);
  PrivateKey_ofKey := fun k => Ok k
|}.

(** The extended public keys that go with [RefHDPrivate]: the public
    node of ["xprv"] and a name is ["xpub"] and that name, and the public
    key of a node is the public key of the private key of its private
    node. *)
Definition RefHDPublic : AddressLib := {|
  HDPublicKey := string;
  PubKey := string;
  Address := string;
  HDPublicKey_new := fun x =>
    if has_prefix "xpub" x then Ok x
    else Throw (LibraryError "InvalidB58Checksum");
  deriveChild := fun x path =>
    if has_prefix "m/" path then Ok (x +:+ "/" +:+ path)
    else Throw (LibraryError "InvalidPath");
  hd_publicKey := fun x =>
    "02L" +:+ "xprv" +:+ substring 4 (String.length x - 4) x;
  Address_createMultisig := fun keys m network =>
    Ok ("3" +:+ network +:+ ":" +:+ String.concat "," keys);
  Address_fromPublicKey := fun key network => Ok ("1" +:+ network +:+ ":" +:+ key);
  Address_toString := fun a => a;
  PubKey_toString := fun k => k
|}.

(** ** [privateKeyToAESKey] (lines 76-81) *)

Record PrivateKeyLib : Type := {
  WifKey : Type;
  PrivateKey_isValid : string -> bool;              (* PrivateKey.isValid(s) *)
  PrivateKey_fromString : string -> result WifKey;  (* PrivateKey.fromString(s) *)
  WifKey_toBuffer : WifKey -> list Byte.byte;       (* pk.toBuffer() *)
  Hash_sha256 : list Byte.byte -> list Byte.byte    (* crypto.Hash.sha256 *)
}.

(** [buf.toString('base64')] *)
Definition base64_alphabet : list ascii :=
  list_ascii_of_string
    "ABCDEFGHIJKLMNOPQRSTUVWXYZabcdefghijklmnopqrstuvwxyz0123456789+/".

Definition base64_digit (n : nat) : ascii :=
  nth n base64_alphabet "A"%char.

Fixpoint toBase64 (bytes : list Byte.byte) : string :=
  match bytes with
  | [] => ""
  | [a] =>
      let x := Byte.to_nat a in
      String (base64_digit (x / 4))
        (String (base64_digit (x mod 4 * 16)) "==")
  | [a; b] =>
      let x := Byte.to_nat a in
      let y := Byte.to_nat b in
      String (base64_digit (x / 4))
        (String (base64_digit (x mod 4 * 16 + y / 16))
           (String (base64_digit (y mod 16 * 4)) "="))
  | a :: b :: c :: rest =>
      let x := Byte.to_nat a in
      let y := Byte.to_nat b in
      let z := Byte.to_nat c in
      String (base64_digit (x / 4))
        (String (base64_digit (x mod 4 * 16 + y / 16))
           (String (base64_digit (y mod 16 * 4 + z / 64))
              (String (base64_digit (z mod 64)) (toBase64 rest))))
  end%nat.

Section PrivateKeyToAESKey.

Variable K : PrivateKeyLib.

(** Lines 76-81.  [privKey] is a string, so [_.isString] holds. *)
Definition privateKeyToAESKey (privKey : string) : result string :=
  checkArgument (truthy privKey);;
  checkArgument (PrivateKey_isValid K privKey);;
  pk ← PrivateKey_fromString K privKey;
  Ok (toBase64 (firstn 16 (Hash_sha256 K (WifKey_toBuffer K pk)))).

End PrivateKeyToAESKey.

(** A reference instance: a key is valid when it starts with ["L"], its
    buffer is its bytes, and the digest is the one of [RefCrypto]. *)
Definition RefPrivateKey : PrivateKeyLib := {|
  WifKey := string;
  PrivateKey_isValid := has_prefix "L";
  PrivateKey_fromString := fun k =>
    if has_prefix "L" k then Ok k else Throw (LibraryError "InvalidPrivateKey");
  WifKey_toBuffer := list_byte_of_string;
  Hash_sha256 := ref_digest
|}.

(** The signature that the reference scheme makes for ["hello"]. *)
Definition sampleSignature : string :=
  match signMessage RefCrypto "hello" "Lkey" with
  | Ok s => s
  | Throw _ => ""
  end.

(** ** Laws of the collaborators used below *)

(** [sjcl.decrypt] gives back what [sjcl.encrypt] was given, under the
    same key. *)
Definition sjcl_decrypt_encrypt (S : SjclLib) : Prop :=
  forall key message params c,
    sjcl_encrypt S key message params = Ok c ->
    sjcl_decrypt S key c = Ok message.

(** No character of [s] is [c]. *)
Definition free_of (c : ascii) (s : string) : bool :=
  forallb (fun x => negb (Ascii.eqb x c)) (list_ascii_of_string s).

Definition all_digits (s : string) : bool :=
  forallb is_digit (list_ascii_of_string s).

(** The decimals that line 157 keeps. *)
Definition keptDecimals (minDecimals : nat) (x1 : string) : string :=
  string_of_list_ascii
    (dropRightWhile (fun n i => Ascii.eqb n "0" && (minDecimals <=? i)%nat)
                    (list_ascii_of_string x1)).

(** A run of digits with [thousands] before every digit that has a
    multiple of three digits from it to the end, the first digit apart. *)
Fixpoint grouped (thousands : string) (digits : list ascii) : string :=
  match digits with
  | [] => ""
  | c :: rest =>
      String c
        ((if (0 <? length rest)%nat && (length rest mod 3 =? 0)%nat
          then thousands else "")
         +:+ grouped thousands rest)
  end.

(** The plan [txp] with other values in its [toAddress] and [amount]. *)
Definition withPayment (to : option string) (amt : option Z) (txp : TxProposal)
    : TxProposal :=
  {| addressType := addressType txp;
     inputs := inputs txp;
     requiredSignatures := requiredSignatures txp;
     txp_toAddress := to;
     txp_amount := amt;
     outputs := outputs txp;
     fee := fee txp;
     changeAddress := changeAddress txp;
     outputOrder := outputOrder txp |}.


(** * Verification *)

(** ** Sequencing *)

Lemma bind_Ok {A B} (r : result A) (k : A -> result B) (b : B) :
  r ≫= k = Ok b <-> exists a, r = Ok a /\ k a = Ok b.
Proof.
  destruct r as [a|e]; simpl; split.
  - intros H; exists a; auto.
  - intros (a' & Ha & Hk); congruence.
  - discriminate.
  - intros (a' & Ha & _); discriminate.
Qed.

Lemma checkState_Ok (c : bool) (u : unit) : checkState c = Ok u <-> c = true.
Proof. destruct c, u; simpl; split; congruence. Qed.

Lemma checkState_false (c : bool) : c = false -> checkState c = Throw StateError.
Proof. intros ->; reflexivity. Qed.

Ltac inv_bind H :=
  let a := fresh "a" in
  let Ha := fresh "Ha" in
  apply bind_Ok in H; destruct H as (a & Ha & H).

(** ** Strings *)

Lemma append_cons (c : ascii) (p s : string) :
  String c p +:+ s = String c (p +:+ s).
Proof. reflexivity. Qed.

Lemma append_nil (s : string) : "" +:+ s = s.
Proof. reflexivity. Qed.

Lemma append_empty_r (s : string) : s +:+ "" = s.
Proof.
  induction s as [|c s IH]; [reflexivity|].
  rewrite append_cons. now rewrite IH.
Qed.

Lemma append_assoc (a b c : string) : (a +:+ b) +:+ c = a +:+ b +:+ c.
Proof.
  induction a as [|x a IH]; [reflexivity|].
  rewrite !append_cons. now rewrite IH.
Qed.

Lemma append_length (p s : string) :
  String.length (p +:+ s) = (String.length p + String.length s)%nat.
Proof.
  induction p as [|c p IH]; [reflexivity|].
  rewrite append_cons. simpl. now rewrite IH.
Qed.

Lemma substring_0_0 (s : string) : substring 0 0 s = "".
Proof. destruct s; reflexivity. Qed.

Lemma substring_prefix (p s : string) :
  substring 0 (String.length p) (p +:+ s) = p.
Proof.
  induction p as [|c p IH]; [apply substring_0_0|].
  rewrite append_cons. simpl. now rewrite IH.
Qed.

Lemma substring_skip (p s : string) (n : nat) :
  substring (String.length p) n (p +:+ s) = substring 0 n s.
Proof. induction p as [|c p IH]; [reflexivity|exact IH]. Qed.

Lemma has_prefix_append (p s : string) : has_prefix p (p +:+ s) = true.
Proof. unfold has_prefix. rewrite substring_prefix. apply String.eqb_refl. Qed.

(** ** TransactionAssembler *)

Section TransactionAssemblerFacts.

Variable L : TransactionLib.
Variables P2SH P2PKH : string.
Variable MAX_TX_FEE : Z.

Lemma fold_left_sum {A} (f : A -> Z) (xs : list A) (acc : Z) :
  fold_left (fun memo x => f x + memo) xs acc = sumZ (map f xs) + acc.
Proof.
  revert acc; induction xs as [|x xs IH]; intros acc; simpl.
  - lia.
  - rewrite IH. unfold sumZ; simpl. lia.
Qed.

Lemma totalInputs_sum (txp : TxProposal) :
  totalInputs txp = sumZ (map satoshis (inputs txp)).
Proof. unfold totalInputs. rewrite fold_left_sum. lia. Qed.

Lemma totalOutputs_sum (t : Tx L) :
  totalOutputs L t = sumZ (map (out_satoshis L) (tx_outputs L t)).
Proof. unfold totalOutputs. rewrite fold_left_sum. lia. Qed.

Lemma sumZ_Permutation (xs ys : list Z) : xs ≡ₚ ys -> sumZ xs = sumZ ys.
Proof.
  induction 1; unfold sumZ in *; simpl; lia.
Qed.

Lemma validate_spec (txp : TxProposal) (t : Tx L) :
  validate L MAX_TX_FEE txp t =
    if decide (0 <= totalInputs txp - totalOutputs L t <= MAX_TX_FEE)
    then Ok t else Throw StateError.
Proof.
  unfold validate.
  destruct (Z.leb_spec 0 (totalInputs txp - totalOutputs L t)); simpl.
  - destruct (Z.leb_spec (totalInputs txp - totalOutputs L t) MAX_TX_FEE); simpl;
      destruct (decide _); try reflexivity; lia.
  - destruct (decide _); try reflexivity; lia.
Qed.

(** C1.  [buildTx] sums the satoshis of the plan's inputs and of the
    assembled transaction's outputs (change output included) itself, and
    returns the assembled (and shuffled) transaction exactly when
    [0 <= totalInputs - totalOutputs <= MAX_TX_FEE]; when the difference
    is negative or above the bound it throws a state error, so no
    transaction is returned. *)
Theorem buildTx_balance_check (txp : TxProposal) :
  totalInputs txp = sumZ (map satoshis (inputs txp))
  /\ (forall t, totalOutputs L t = sumZ (map (out_satoshis L) (tx_outputs L t)))
  /\ (forall t,
        buildTx L P2SH P2PKH MAX_TX_FEE txp = Ok t ->
        0 <= totalInputs txp - totalOutputs L t <= MAX_TX_FEE)
  /\ (forall t0 t,
        assemble L P2SH P2PKH txp = Ok t0 ->
        shuffle L txp t0 = Ok t ->
        (0 <= totalInputs txp - totalOutputs L t <= MAX_TX_FEE ->
           buildTx L P2SH P2PKH MAX_TX_FEE txp = Ok t)
        /\ (~ 0 <= totalInputs txp - totalOutputs L t <= MAX_TX_FEE ->
           buildTx L P2SH P2PKH MAX_TX_FEE txp = Throw StateError)).
Proof.
  split; [apply totalInputs_sum|].
  split; [apply totalOutputs_sum|].
  split.
  - intros t H. unfold buildTx in H.
    inv_bind H. inv_bind H.
    rewrite validate_spec in H.
    destruct (decide _) as [Hd|Hd]; [|discriminate].
    injection H as <-. exact Hd.
  - intros t0 t Hasm Hsh. unfold buildTx.
    rewrite Hasm; simpl. rewrite Hsh; simpl.
    rewrite validate_spec.
    split; intros Hd; destruct (decide _); try reflexivity; contradiction.
Qed.


(** *** The output order *)

Lemma js_index_of_nat {A} (outs : list A) (i : nat) :
  js_index outs (Z.of_nat i) = outs !! i.
Proof.
  unfold js_index. destruct (Z.ltb_spec (Z.of_nat i) 0); [lia|].
  now rewrite Nat2Z.id.
Qed.

Lemma permuteBy_identity {A} (outs : list A) :
  permuteBy (map Z.of_nat (seq 0 (length outs))) outs = map Some outs.
Proof.
  unfold permuteBy. rewrite map_map.
  apply list_eq; intros i.
  change (map ?f ?l) with (f <$> l).
  rewrite !list_lookup_fmap.
  destruct (decide (i < length outs)%nat) as [Hi|Hi].
  - rewrite lookup_seq_lt by exact Hi. simpl.
    rewrite js_index_of_nat.
    destruct (lookup_lt_is_Some_2 outs i Hi) as [x Hx].
    now rewrite Hx.
  - rewrite lookup_seq_ge by lia. simpl.
    rewrite lookup_ge_None_2 by lia. reflexivity.
Qed.

(** An order that lists every index once permutes the outputs. *)
Lemma permuteBy_Permutation {A} (order : list Z) (outs : list A) :
  order ≡ₚ map Z.of_nat (seq 0 (length outs)) ->
  exists outs', permuteBy order outs = map Some outs' /\ outs' ≡ₚ outs.
Proof.
  intros Hp.
  assert (Hm : permuteBy order outs ≡ₚ map Some outs).
  { rewrite <- permuteBy_identity. unfold permuteBy.
    now apply Permutation_map. }
  apply Permutation_map_inv in Hm as (outs' & Heq & Hperm).
  exists outs'. split; [exact Heq|]. now symmetry.
Qed.

Lemma filteredOrder_spec (txp : TxProposal) (t : Tx L) :
  filteredOrder L txp t =
    List.filter (fun i => i <? Z.of_nat (length (tx_outputs L t)))
                (default [] (outputOrder txp)).
Proof.
  unfold filteredOrder, reject.
  apply filter_ext; intros i.
  destruct (Z.leb_spec (Z.of_nat (length (tx_outputs L t))) i),
           (Z.ltb_spec i (Z.of_nat (length (tx_outputs L t)))); simpl; auto; lia.
Qed.

Lemma shuffle_many (txp : TxProposal) (t : Tx L) :
  (1 < length (tx_outputs L t))%nat ->
  shuffle L txp t =
    (checkState (length (tx_outputs L t) =? length (filteredOrder L txp t))%nat;;
     tx_sortOutputs L (permuteBy (filteredOrder L txp t)) t).
Proof.
  intros Hn. unfold shuffle.
  destruct (Nat.ltb_spec 1 (length (tx_outputs L t))); [reflexivity|lia].
Qed.

Lemma shuffle_few (txp : TxProposal) (t : Tx L) :
  (length (tx_outputs L t) <= 1)%nat -> shuffle L txp t = Ok t.
Proof.
  intros Hn. unfold shuffle.
  destruct (Nat.ltb_spec 1 (length (tx_outputs L t))); [lia|reflexivity].
Qed.

(** C2.  When the assembled transaction [t0] has more than one output,
    [buildTx] keeps the indices of [outputOrder] that are below the
    output count, throws a state error unless as many indices remain as
    there are outputs, and otherwise hands the outputs picked in that
    order to [sortOutputs]: a transaction that [buildTx] returns has
    exactly the outputs of [t0] in the filtered order, and when the
    filtered order lists every index once and the balance is within
    bounds, [buildTx] does return it. *)
Theorem buildTx_output_order (txp : TxProposal) (t0 : Tx L) :
  sortOutputs_sound L ->
  assemble L P2SH P2PKH txp = Ok t0 ->
  (1 < length (tx_outputs L t0))%nat ->
  let n := length (tx_outputs L t0) in
  let order := filteredOrder L txp t0 in
  order = List.filter (fun i => i <? Z.of_nat n) (default [] (outputOrder txp))
  /\ (length order <> n ->
        buildTx L P2SH P2PKH MAX_TX_FEE txp = Throw StateError)
  /\ (forall t,
        buildTx L P2SH P2PKH MAX_TX_FEE txp = Ok t ->
        length order = n
        /\ map Some (tx_outputs L t) = map (js_index (tx_outputs L t0)) order)
  /\ (sortOutputs_complete L ->
        order ≡ₚ map Z.of_nat (seq 0 n) ->
        0 <= totalInputs txp - totalOutputs L t0 <= MAX_TX_FEE ->
        exists t,
          buildTx L P2SH P2PKH MAX_TX_FEE txp = Ok t
          /\ map Some (tx_outputs L t) = map (js_index (tx_outputs L t0)) order).
Proof.
  intros Hsound Hasm Hn n order.
  split; [apply filteredOrder_spec|].
  split; [|split].
  - intros Hlen. unfold buildTx. rewrite Hasm; simpl.
    rewrite shuffle_many by exact Hn.
    rewrite checkState_false; [reflexivity|].
    apply Nat.eqb_neq. fold n order. congruence.
  - intros t H. unfold buildTx in H. rewrite Hasm in H; simpl in H.
    inv_bind H. rewrite shuffle_many in Ha by exact Hn.
    inv_bind Ha. apply checkState_Ok, Nat.eqb_eq in Ha0.
    apply Hsound in Ha.
    rewrite validate_spec in H. destruct (decide _); [|discriminate].
    injection H as <-.
    split; [symmetry; exact Ha0|exact Ha].
  - intros Hcomplete Hperm Hbal.
    destruct (permuteBy_Permutation order (tx_outputs L t0) Hperm)
      as (outs' & Heq & Hperm').
    destruct (Hcomplete (permuteBy order) t0 outs' Heq Hperm')
      as (t & Hsort & Houts).
    exists t. split.
    + unfold buildTx. rewrite Hasm; simpl.
      rewrite shuffle_many by exact Hn.
      assert (Hlen : length order = n).
      { apply Permutation_length in Hperm.
        rewrite Hperm, length_map, length_seq. reflexivity. }
      fold order. rewrite (proj2 (checkState_Ok _ tt)); simpl.
      2:{ apply Nat.eqb_eq. fold n. congruence. }
      rewrite Hsort; simpl.
      rewrite validate_spec.
      assert (Htot : totalOutputs L t = totalOutputs L t0).
      { rewrite !totalOutputs_sum. apply sumZ_Permutation.
        rewrite Houts. now apply Permutation_map. }
      rewrite Htot. destruct (decide _); [reflexivity|contradiction].
    + rewrite Houts. symmetry. exact Heq.
Qed.

(** *** At most one output *)

Lemma assemble_withOutputOrder (order : option (list Z)) (txp : TxProposal) :
  assemble L P2SH P2PKH (withOutputOrder order txp) = assemble L P2SH P2PKH txp.
Proof. reflexivity. Qed.

Lemma validate_withOutputOrder (order : option (list Z)) (txp : TxProposal)
    (t : Tx L) :
  validate L MAX_TX_FEE (withOutputOrder order txp) t = validate L MAX_TX_FEE txp t.
Proof. reflexivity. Qed.

(** C10.  When the assembled transaction [t0] has at most one output
    (the change output counted), [buildTx] skips the shuffle: it neither
    reads nor checks [outputOrder], the outputs stay as assembled, and
    the result is that of the balance check alone, whatever the plan's
    [outputOrder] is (missing, empty or inconsistent with the count). *)
Theorem buildTx_single_output_ignores_order (txp : TxProposal) (t0 : Tx L) :
  assemble L P2SH P2PKH txp = Ok t0 ->
  (length (tx_outputs L t0) <= 1)%nat ->
  shuffle L txp t0 = Ok t0
  /\ buildTx L P2SH P2PKH MAX_TX_FEE txp = validate L MAX_TX_FEE txp t0
  /\ (forall order,
        buildTx L P2SH P2PKH MAX_TX_FEE (withOutputOrder order txp)
        = buildTx L P2SH P2PKH MAX_TX_FEE txp)
  /\ (forall t,
        buildTx L P2SH P2PKH MAX_TX_FEE txp = Ok t ->
        t = t0 /\ tx_outputs L t = tx_outputs L t0)
  /\ (buildTx L P2SH P2PKH MAX_TX_FEE txp = Throw StateError <->
        ~ 0 <= totalInputs txp - totalOutputs L t0 <= MAX_TX_FEE).
Proof.
  intros Hasm Hn.
  assert (Hb : forall order,
    buildTx L P2SH P2PKH MAX_TX_FEE (withOutputOrder order txp)
    = validate L MAX_TX_FEE txp t0).
  { intros order. unfold buildTx.
    rewrite assemble_withOutputOrder, Hasm; simpl.
    rewrite shuffle_few by exact Hn; simpl.
    apply validate_withOutputOrder. }
  assert (Hb0 : buildTx L P2SH P2PKH MAX_TX_FEE txp = validate L MAX_TX_FEE txp t0).
  { unfold buildTx. rewrite Hasm; simpl.
    rewrite shuffle_few by exact Hn. reflexivity. }
  split; [now apply shuffle_few|].
  split; [exact Hb0|].
  split; [intros order; now rewrite Hb, Hb0|].
  split.
  - intros t H. rewrite Hb0, validate_spec in H.
    destruct (decide _); [|discriminate]. injection H as <-. auto.
  - rewrite Hb0, validate_spec.
    destruct (decide _); split; intros H; try discriminate; try contradiction; auto.
Qed.

End TransactionAssemblerFacts.

(** *** The reference transaction object obeys the laws *)

Lemma mapM_unwrap_Ok {A} (e : Error) (l : list (option A)) (outs : list A) :
  mapM (fun o => match o with Some x => Ok x | None => Throw e end) l = Ok outs
  <-> l = map Some outs.
Proof.
  revert outs; induction l as [|[x|] l IH]; intros outs; simpl.
  - split; [intros [= <-]; reflexivity|].
    destruct outs; [reflexivity|discriminate].
  - split.
    + intros H. inv_bind H. apply IH in Ha. injection H as <-.
      simpl. congruence.
    + destruct outs as [|y outs]; [discriminate|]. simpl. intros [= -> Hl].
      apply IH in Hl. rewrite Hl. reflexivity.
  - split; [discriminate|]. destruct outs; discriminate.
Qed.

Lemma RefLib_sortOutputs_sound : sortOutputs_sound RefLib.
Proof.
  intros f t t'. simpl. unfold ref_sortOutputs.
  destruct (mapM _ _) as [outs|e] eqn:Hm; [|discriminate].
  apply mapM_unwrap_Ok in Hm.
  destruct (bool_decide _); [|discriminate].
  intros [= <-]. simpl. now symmetry.
Qed.

Lemma RefLib_sortOutputs_complete : sortOutputs_complete RefLib.
Proof.
  intros f t outs Hf Hperm. simpl in *. unfold ref_sortOutputs.
  rewrite Hf. rewrite (proj2 (mapM_unwrap_Ok _ _ outs) eq_refl).
  rewrite bool_decide_eq_true_2 by exact Hperm.
  eexists; split; reflexivity.
Qed.

(** *** Runs on the reference transaction object *)

(** Two inputs worth 100000, outputs of 99000 and 500, fee 100: the
    change output of 400 comes third, and the order [2,0,1] moves it to
    the front. *)
Lemma buildTx_output_order_witness :
  let txp := plan [60000; 40000] [pay "a" 99000; pay "b" 500] 100 (Some [2; 0; 1]) in
  let t0 := {| ref_inputs := map utxo_of [60000; 40000];
               ref_outputs := [{| ref_script := "a"; ref_satoshis := 99000 |};
                               {| ref_script := "b"; ref_satoshis := 500 |};
                               {| ref_script := "change"; ref_satoshis := 400 |}];
               ref_fee := 100 |} in
  assemble RefLib "P2SH" "P2PKH" txp = Ok t0
  /\ filteredOrder RefLib txp t0 = [2; 0; 1]
  /\ (exists t, refBuildTx txp = Ok t
        /\ map Some (ref_outputs t)
           = [Some {| ref_script := "change"; ref_satoshis := 400 |};
              Some {| ref_script := "a"; ref_satoshis := 99000 |};
              Some {| ref_script := "b"; ref_satoshis := 500 |}])
  /\ refBuildTx (withOutputOrder (Some [5; 0; 1]) txp) = Throw StateError.
Proof.
  cbv zeta.
  pose proof (buildTx_output_order RefLib "P2SH" "P2PKH" 100000000
    (plan [60000; 40000] [pay "a" 99000; pay "b" 500] 100 (Some [2; 0; 1])) _
    RefLib_sortOutputs_sound eq_refl ltac:(simpl; lia)) as (_ & _ & _ & Hok).
  pose proof (buildTx_output_order RefLib "P2SH" "P2PKH" 100000000
    (plan [60000; 40000] [pay "a" 99000; pay "b" 500] 100 (Some [5; 0; 1])) _
    RefLib_sortOutputs_sound eq_refl ltac:(simpl; lia)) as (_ & Hbad & _).
  split; [reflexivity|].
  split; [reflexivity|].
  split.
  - apply Hok.
    + exact RefLib_sortOutputs_complete.
    + apply (bool_decide_unpack _). vm_compute. exact I.
    + vm_compute. split; discriminate.
  - apply Hbad. vm_compute. lia.
Defined.

(** C2 as stated fails on an order of the right length that is no
    reordering: with three outputs, [0,0,2] and [-1,0,1] pass the filter
    of line 211 and the length check of line 214, and [sortOutputs]
    refuses what it is handed, so [buildTx] throws the library's error
    and reorders nothing. *)
Lemma buildTx_output_order_not_a_reordering :
  let txp := plan [60000; 40000] [pay "a" 99000; pay "b" 500] 100 (Some [0; 0; 2]) in
  let t0 := {| ref_inputs := map utxo_of [60000; 40000];
               ref_outputs := [{| ref_script := "a"; ref_satoshis := 99000 |};
                               {| ref_script := "b"; ref_satoshis := 500 |};
                               {| ref_script := "change"; ref_satoshis := 400 |}];
               ref_fee := 100 |} in
  assemble RefLib "P2SH" "P2PKH" txp = Ok t0
  /\ filteredOrder RefLib txp t0 = [0; 0; 2]
  /\ length (filteredOrder RefLib txp t0) = length (ref_outputs t0)
  /\ refBuildTx txp = Throw (LibraryError "InvalidSorting")
  /\ filteredOrder RefLib (withOutputOrder (Some [-1; 0; 1]) txp) t0 = [-1; 0; 1]
  /\ refBuildTx (withOutputOrder (Some [-1; 0; 1]) txp)
     = Throw (LibraryError "InvalidSorting").
Proof. cbv zeta. repeat split. Qed.

(** One output of 99500 and a fee of 500 leave no change: the order is
    never looked at. *)
Lemma buildTx_single_output_witness :
  let txp := plan [60000; 40000] [pay "a" 99500] 500 (Some [9; 9; 9]) in
  let t0 := {| ref_inputs := map utxo_of [60000; 40000];
               ref_outputs := [{| ref_script := "a"; ref_satoshis := 99500 |}];
               ref_fee := 500 |} in
  refBuildTx txp = Ok t0
  /\ refBuildTx (withOutputOrder None txp) = refBuildTx txp
  /\ refBuildTx (withOutputOrder (Some []) txp) = refBuildTx txp.
Proof.
  cbv zeta.
  pose proof (buildTx_single_output_ignores_order RefLib "P2SH" "P2PKH" 100000000
    (plan [60000; 40000] [pay "a" 99500] 500 (Some [9; 9; 9])) _
    eq_refl ltac:(simpl; lia)) as (_ & Hv & Hany & _).
  unfold refBuildTx.
  split; [rewrite Hv; reflexivity|].
  split; apply Hany.
Defined.

(** Inputs of 100000 against one output of 99000 and a fee of 1000: no
    change is left and the difference is the fee.  An output above the
    inputs, or a fee above the bound, is refused. *)
Lemma buildTx_balance_check_witness :
  let txp := plan [60000; 40000] [pay "a" 99000] 1000 None in
  (exists t, refBuildTx txp = Ok t
     /\ totalInputs txp - totalOutputs RefLib t = 1000)
  /\ refBuildTx (plan [60000; 40000] [pay "a" 100001] 0 None) = Throw StateError
  /\ refBuildTx (plan [900000000] [pay "a" 1] 899999999 None) = Throw StateError.
Proof.
  cbv zeta. unfold refBuildTx.
  pose proof (buildTx_balance_check RefLib "P2SH" "P2PKH" 100000000
    (plan [60000; 40000] [pay "a" 99000] 1000 None)) as (_ & _ & _ & H1).
  pose proof (buildTx_balance_check RefLib "P2SH" "P2PKH" 100000000
    (plan [60000; 40000] [pay "a" 100001] 0 None)) as (_ & _ & _ & H2).
  pose proof (buildTx_balance_check RefLib "P2SH" "P2PKH" 100000000
    (plan [900000000] [pay "a" 1] 899999999 None)) as (_ & _ & _ & H3).
  destruct (H1 _ _ eq_refl eq_refl) as [H1ok _].
  destruct (H2 _ _ eq_refl eq_refl) as [_ H2bad].
  destruct (H3 _ _ eq_refl eq_refl) as [_ H3bad].
  split; [|split].
  - eexists. split.
    + apply H1ok. vm_compute. split; discriminate.
    + reflexivity.
  - apply H2bad. vm_compute. intros [H _]. apply H. reflexivity.
  - apply H3bad. vm_compute. intros [_ H]. apply H. reflexivity.
Defined.

(** ** HashSign *)

Lemma truthy_string_true (s : string) : s <> "" -> truthy s = true.
Proof.
  intros Hs. unfold truthy, truthy_string.
  destruct (String.eqb_spec s ""); [contradiction|reflexivity].
Qed.

Section HashSignFacts.

Variable C : CryptoLib.

Lemma hashMessage_nonempty (text : string) :
  text <> "" ->
  hashMessage C text = Ok (rev (Hash_sha256sha256 C (list_byte_of_string text))).
Proof.
  intros Ht. unfold hashMessage. now rewrite truthy_string_true.
Qed.

(** What [verifyMessage] computes once its two argument checks pass and
    the signature is present. *)
Lemma verifyMessage_present (text s pubKey : string) (pub : PublicKey C) :
  text <> "" -> pubKey <> "" -> s <> "" ->
  PublicKey_new C pubKey = Ok pub ->
  verifyMessage C text (Some s) pubKey =
    match Signature_fromString C s with
    | Ok sig =>
        match ECDSA_verify C (rev (Hash_sha256sha256 C (list_byte_of_string text)))
                           sig pub "little" with
        | Ok b => Ok b
        | Throw _ => Ok false
        end
    | Throw _ => Ok false
    end.
Proof.
  intros Ht Hp Hs Hpub. unfold verifyMessage.
  rewrite (truthy_string_true text Ht), (truthy_string_true pubKey Hp); simpl.
  unfold truthy at 1; simpl. rewrite (truthy_string_true s Hs); simpl.
  rewrite Hpub; simpl. rewrite hashMessage_nonempty by exact Ht; simpl.
  destruct (Signature_fromString C s) as [sig|e]; simpl; [|reflexivity].
  destruct (ECDSA_verify C _ sig pub "little"); reflexivity.
Qed.

(** C3, as the code has it.  With an empty text or an empty public key
    string [verifyMessage] throws an argument error, whatever the
    signature is.  For a non-empty text and a non-empty public key
    string: an absent or empty signature gives [false]; and when the
    collaborator accepts the public key, [verifyMessage] returns a boolean
    (it never throws), which is [false] unless the signature is present,
    parses and verifies. *)
Theorem verifyMessage_false_never_raises (text : string)
    (signature : option string) (pubKey : string) :
  (text = "" \/ pubKey = "" ->
     verifyMessage C text signature pubKey = Throw ArgumentError)
  /\ (text <> "" -> pubKey <> "" ->
      (truthy signature = false ->
         verifyMessage C text signature pubKey = Ok false)
      /\ (forall pub,
            PublicKey_new C pubKey = Ok pub ->
            (exists b, verifyMessage C text signature pubKey = Ok b)
            /\ (~ verifies C text signature pubKey ->
                verifyMessage C text signature pubKey = Ok false))).
Proof.
  split.
  { intros [->| ->]; unfold verifyMessage; [reflexivity|].
    destruct (truthy text); reflexivity. }
  intros Ht Hp.
  assert (Habsent : truthy signature = false ->
                    verifyMessage C text signature pubKey = Ok false).
  { intros Hsig. unfold verifyMessage.
    rewrite (truthy_string_true text Ht), (truthy_string_true pubKey Hp); simpl.
    now rewrite Hsig. }
  split; [exact Habsent|].
  intros pub Hpub.
  destruct (truthy signature) eqn:Hsig.
  - destruct signature as [s|]; [|discriminate].
    assert (Hs : s <> "").
    { intros ->. discriminate. }
    rewrite (verifyMessage_present text s pubKey pub Ht Hp Hs Hpub).
    destruct (Signature_fromString C s) as [sig|e] eqn:Hparse.
    + destruct (ECDSA_verify C _ sig pub "little") as [[|]|e] eqn:Hver.
      * split; [eauto|]. intros Hnot. exfalso. apply Hnot.
        exists s, sig, pub, (rev (Hash_sha256sha256 C (list_byte_of_string text))).
        repeat split; auto using hashMessage_nonempty.
      * split; eauto.
      * split; eauto.
    + split; eauto.
  - rewrite Habsent by reflexivity. split; eauto.
Qed.

(** C5.  With a signature scheme that obeys [CryptoLaws]: for a
    non-empty text and a key pair whose public key is the one of the
    private key, [signMessage] returns a signature string and
    [verifyMessage] answers [true] on it. *)
Theorem sign_verify_roundtrip (text privKey pubKey : string)
    (priv : PrivateKey C) :
  CryptoLaws C ->
  text <> "" ->
  pubKey <> "" ->
  PrivateKey_new C privKey = Ok priv ->
  PublicKey_new C pubKey = Ok (toPublicKey C priv) ->
  exists s,
    signMessage C text privKey = Ok s
    /\ verifyMessage C text (Some s) pubKey = Ok true.
Proof.
  intros laws Ht Hp Hpriv Hpub.
  set (h := rev (Hash_sha256sha256 C (list_byte_of_string text))).
  assert (Hlen : length h = 32%nat).
  { unfold h. rewrite length_rev. apply (sha_length C laws). }
  destruct (sign_returns C laws h priv Hlen) as [sig Hsign].
  exists (Signature_toString C sig). split.
  - unfold signMessage.
    rewrite (truthy_string_true text Ht); simpl.
    rewrite Hpriv; simpl.
    rewrite hashMessage_nonempty by exact Ht; simpl.
    fold h. rewrite Hsign. reflexivity.
  - rewrite (verifyMessage_present text _ pubKey _ Ht Hp
               (sig_print_nonempty C laws sig) Hpub).
    rewrite (sig_print_parse C laws sig). fold h.
    now rewrite (sign_verify C laws h priv sig Hsign).
Qed.

End HashSignFacts.

(** *** The reference signature scheme obeys the laws *)

Lemma substring_all (s : string) : substring 0 (String.length s) s = s.
Proof. induction s as [|c s IH]; simpl; congruence. Qed.

Lemma RefCrypto_laws : CryptoLaws RefCrypto.
Proof.
  constructor; simpl.
  - intros b. unfold ref_digest.
    rewrite length_firstn, length_app, repeat_length. lia.
  - intros h priv Hlen. unfold ref_sign. rewrite Hlen. simpl. eauto.
  - intros h priv sig. unfold ref_sign, ref_verify.
    destruct (length h =? 32)%nat; [|discriminate].
    intros [= <-]. f_equal. apply String.eqb_eq. reflexivity.
  - intros sig. unfold has_prefix.
    change ("30" +:+ sig) with (String "3" (String "0" sig)).
    assert (H0 : substring 0 0 sig = "") by (destruct sig; reflexivity).
    simpl. rewrite H0, Nat.sub_0_r, substring_all. reflexivity.
  - intros sig. discriminate.
Qed.

(** *** Runs on the reference signature scheme *)

Lemma sign_verify_roundtrip_witness :
  exists s,
    signMessage RefCrypto "hello" "Lkey" = Ok s
    /\ verifyMessage RefCrypto "hello" (Some s) "02Lkey" = Ok true.
Proof.
  apply (sign_verify_roundtrip RefCrypto "hello" "Lkey" "02Lkey" "Lkey"
           RefCrypto_laws); [discriminate|discriminate|reflexivity|reflexivity].
Defined.

(** A signature made for another text, a string that is no signature, and
    no signature at all: each time the answer is [false]. *)
Lemma verifyMessage_false_witness :
  verifyMessage RefCrypto "hello" None "02Lkey" = Ok false
  /\ verifyMessage RefCrypto "hello" (Some "") "02Lkey" = Ok false
  /\ verifyMessage RefCrypto "hello" (Some "garbage") "02Lkey" = Ok false
  /\ verifyMessage RefCrypto "hello" (Some "3002Lkey:bye") "02Lkey" = Ok false.
Proof.
  pose proof (fun sig =>
    proj2 (verifyMessage_false_never_raises RefCrypto "hello" sig "02Lkey")
          ltac:(discriminate) ltac:(discriminate)) as H.
  split; [apply (H None); reflexivity|].
  split; [apply (H (Some "")); reflexivity|].
  split.
  - destruct (H (Some "garbage")) as [_ Hb].
    destruct (Hb "02Lkey" eq_refl) as [_ Hf]. apply Hf.
    intros (s & sig & pub & hash & [= <-] & _ & Hparse & _). discriminate.
  - destruct (H (Some "3002Lkey:bye")) as [_ Hb].
    destruct (Hb "02Lkey" eq_refl) as [_ Hf]. apply Hf.
    intros (s & sig & pub & hash & [= <-] & _ & Hparse & Hpub & Hhash & Hver).
    vm_compute in Hparse, Hpub, Hhash.
    injection Hparse as <-. injection Hpub as <-. injection Hhash as <-.
    vm_compute in Hver. discriminate.
Defined.

(** C3 as stated fails on an empty text and on an empty public key:
    the argument checks of lines 59-60 throw before the signature is
    looked at; and a string that is no public key makes line 65 throw
    when a signature is present. *)
Lemma verifyMessage_empty_text_raises :
  verifyMessage RefCrypto "" None "02Lkey" = Throw ArgumentError
  /\ verifyMessage RefCrypto "" (Some "garbage") "02Lkey" = Throw ArgumentError
  /\ verifyMessage RefCrypto "hello" None "" = Throw ArgumentError
  /\ verifyMessage RefCrypto "hello" (Some "garbage") "" = Throw ArgumentError
  /\ verifyMessage RefCrypto "hello" (Some "garbage") "nokey"
     = Throw (LibraryError "InvalidPublicKey").
Proof. repeat split. Qed.

(** ** SymmetricCipher *)

Section SymmetricCipherFacts.

Variable S : SjclLib.

Lemma decryptAttempt_Throw (ct key : string) (e : Error) :
  decryptAttempt S ct key = Throw e <->
  codec_base64_toBits S key = Throw e
  \/ exists bits, codec_base64_toBits S key = Ok bits
                  /\ sjcl_decrypt S bits ct = Throw e.
Proof.
  unfold decryptAttempt.
  destruct (codec_base64_toBits S key) as [bits|e']; simpl; split.
  - intros H. right. exists bits. auto.
  - intros [H|(bits' & [= <-] & H)]; [discriminate|exact H].
  - intros [= ->]. now left.
  - intros [[= ->]|(bits' & H & _)]; [reflexivity|discriminate].
Qed.

(** C7.  [decryptMessage] always returns a string and never throws: the
    plaintext when the key decodes and the envelope decrypts under it,
    and otherwise (the key does not decode, or decryption fails for any
    reason: malformed JSON, wrong key, corrupted envelope) the ciphertext
    it was given, unchanged. *)
Theorem decryptMessage_total (cyphertextJson encryptingKey : string) :
  (exists v, decryptMessage S cyphertextJson encryptingKey = Ok v)
  /\ (forall plaintext,
        decryptAttempt S cyphertextJson encryptingKey = Ok plaintext ->
        decryptMessage S cyphertextJson encryptingKey = Ok plaintext)
  /\ (forall e,
        decryptAttempt S cyphertextJson encryptingKey = Throw e ->
        decryptMessage S cyphertextJson encryptingKey = Ok cyphertextJson)
  /\ (forall e,
        codec_base64_toBits S encryptingKey = Throw e ->
        decryptMessage S cyphertextJson encryptingKey = Ok cyphertextJson)
  /\ (forall bits e,
        codec_base64_toBits S encryptingKey = Ok bits ->
        sjcl_decrypt S bits cyphertextJson = Throw e ->
        decryptMessage S cyphertextJson encryptingKey = Ok cyphertextJson).
Proof.
  assert (Hok : forall p, decryptAttempt S cyphertextJson encryptingKey = Ok p ->
                  decryptMessage S cyphertextJson encryptingKey = Ok p).
  { intros p H. unfold decryptMessage.
    now rewrite H. }
  assert (Hthrow : forall e, decryptAttempt S cyphertextJson encryptingKey = Throw e ->
                  decryptMessage S cyphertextJson encryptingKey = Ok cyphertextJson).
  { intros e H. unfold decryptMessage.
    now rewrite H. }
  split; [|split; [exact Hok|split; [exact Hthrow|split]]].
  - destruct (decryptAttempt S cyphertextJson encryptingKey) as [p|e] eqn:H; eauto.
  - intros e H. apply (Hthrow e), decryptAttempt_Throw. now left.
  - intros bits e Hk H. apply (Hthrow e), decryptAttempt_Throw. right. eauto.
Qed.

End SymmetricCipherFacts.

(** ** AddressDeriver *)

Lemma mapM_length {A B} (f : A -> result B) (xs : list A) (ys : list B) :
  mapM f xs = Ok ys -> length ys = length xs.
Proof.
  revert ys; induction xs as [|x xs IH]; intros ys; simpl.
  - intros [= <-]. reflexivity.
  - intros H. inv_bind H. inv_bind H. injection H as <-.
    simpl. f_equal. now apply IH.
Qed.

Section AddressDeriverFacts.

Variable A : AddressLib.
Variables P2SH P2PKH : string.

(** X21.  What [deriveAddress] returns names the path it was given and
    has one public key string for every ring entry. *)
Theorem deriveAddress_path_and_keys (scriptType : string)
    (ring : list PublicKeyRingEntry) (path : string) (m : Z) (network : string)
    (d : DerivedAddress.t) :
  deriveAddress A P2SH P2PKH scriptType ring path m network = Ok d ->
  DerivedAddress.path d = path
  /\ length (DerivedAddress.publicKeys d) = length ring.
Proof.
  intros Hd. unfold deriveAddress in Hd. inv_bind Hd. inv_bind Hd. inv_bind Hd.
  destruct a1; [|discriminate]. injection Hd as <-. simpl.
  split; [reflexivity|].
  rewrite length_map. eapply mapM_length; eauto.
Qed.

Lemma includes_P2PKH : includes (SCRIPT_TYPES_values P2SH P2PKH) P2PKH = true.
Proof.
  unfold includes, SCRIPT_TYPES_values. simpl.
  rewrite (String.eqb_refl P2PKH). now rewrite !orb_true_r.
Qed.

(** The single-key case once the keys are derived. *)
Lemma deriveAddress_P2PKH (ring : list PublicKeyRingEntry) (path : string)
    (m : Z) (network : string) (pks : list (PubKey A)) :
  P2SH <> P2PKH ->
  mapM (derivePublicKey A path) ring = Ok pks ->
  deriveAddress A P2SH P2PKH P2PKH ring path m network =
    match pks with
    | [pk] =>
        a ← Address_fromPublicKey A pk network;
        Ok {| DerivedAddress.address := Address_toString A a;
              DerivedAddress.path := path;
              DerivedAddress.publicKeys := [PubKey_toString A pk] |}
    | _ => Throw StateError
    end.
Proof.
  intros Hne Hpks. unfold deriveAddress.
  rewrite includes_P2PKH; simpl. rewrite Hpks; simpl.
  unfold makeAddress.
  destruct (String.eqb_spec P2PKH P2SH) as [Heq|_]; [congruence|].
  rewrite String.eqb_refl.
  destruct pks as [|pk [|pk' pks]]; simpl; try reflexivity.
  destruct (Address_fromPublicKey A pk network); reflexivity.
Qed.

(** C6, as the code has it.  [deriveAddress] returns no address when the
    scheme is not one of the two script types (an argument error), and
    none when the single-key scheme is asked for a ring of more than one
    entry: the call throws, and what it throws is the state error of
    line 114 when every entry's key derives, and otherwise the error of
    the key derivation of lines 103-106, which runs first.  A single-key
    call that returns an address had exactly one ring entry. *)
Theorem deriveAddress_failures (scriptType : string)
    (ring : list PublicKeyRingEntry) (path : string) (m : Z) (network : string) :
  P2SH <> P2PKH ->
  (includes (SCRIPT_TYPES_values P2SH P2PKH) scriptType = false ->
     deriveAddress A P2SH P2PKH scriptType ring path m network = Throw ArgumentError)
  /\ (scriptType = P2PKH -> (1 < length ring)%nat ->
        (exists e, deriveAddress A P2SH P2PKH scriptType ring path m network = Throw e)
        /\ (forall pks,
              mapM (derivePublicKey A path) ring = Ok pks ->
              deriveAddress A P2SH P2PKH scriptType ring path m network
              = Throw StateError)
        /\ (forall e,
              mapM (derivePublicKey A path) ring = Throw e ->
              deriveAddress A P2SH P2PKH scriptType ring path m network
              = Throw e))
  /\ (scriptType = P2PKH ->
        forall d,
          deriveAddress A P2SH P2PKH scriptType ring path m network = Ok d ->
          length ring = 1%nat).
Proof.
  intros Hne. split; [|split].
  - intros Hinc. unfold deriveAddress. now rewrite Hinc.
  - intros -> Hlen.
    assert (Hstate : forall pks, mapM (derivePublicKey A path) ring = Ok pks ->
              deriveAddress A P2SH P2PKH P2PKH ring path m network = Throw StateError).
    { intros pks Hpks. rewrite (deriveAddress_P2PKH ring path m network pks Hne Hpks).
      apply mapM_length in Hpks.
      destruct pks as [|pk [|pk' pks]]; simpl in *; try reflexivity; lia. }
    assert (Hlib : forall e, mapM (derivePublicKey A path) ring = Throw e ->
              deriveAddress A P2SH P2PKH P2PKH ring path m network = Throw e).
    { intros e He. unfold deriveAddress. rewrite includes_P2PKH; simpl.
      now rewrite He. }
    split; [|split; [exact Hstate|exact Hlib]].
    destruct (mapM (derivePublicKey A path) ring) as [pks|e] eqn:Hpks; eauto.
  - intros -> d Hd.
    destruct (mapM (derivePublicKey A path) ring) as [pks|e] eqn:Hpks.
    + rewrite (deriveAddress_P2PKH ring path m network pks Hne Hpks) in Hd.
      apply mapM_length in Hpks.
      destruct pks as [|pk [|pk' pks]]; simpl in *; try discriminate; lia.
    + unfold deriveAddress in Hd. rewrite includes_P2PKH in Hd; simpl in Hd.
      rewrite Hpks in Hd. discriminate.
Qed.

End AddressDeriverFacts.

(** *** Sets of outcomes *)

Lemma deterministic_ret {X} (x : X) : deterministic (mret x).
Proof. intros r r' -> ->. reflexivity. Qed.

Lemma deterministic_exactly {X} (r0 : result X) : deterministic (exactly r0).
Proof. intros r r' -> ->. reflexivity. Qed.

Lemma deterministic_bind {X Y} (m : outcomes X) (k : X -> outcomes Y) :
  deterministic m -> (forall x, deterministic (k x)) ->
  deterministic (x ← m; k x).
Proof.
  intros Hm Hk r r' [(a & Ha & Hr)|(e & He & ->)] [(a' & Ha' & Hr')|(e' & He' & ->)].
  - pose proof (Hm _ _ Ha Ha') as [= <-]. exact (Hk a _ _ Hr Hr').
  - pose proof (Hm _ _ Ha He'). discriminate.
  - pose proof (Hm _ _ He Ha'). discriminate.
  - pose proof (Hm _ _ He He') as [= <-]. reflexivity.
Qed.

Lemma deterministic_mapM {X Y} (f : X -> outcomes Y) (xs : list X) :
  (forall x, deterministic (f x)) -> deterministic (Oracle.mapM f xs).
Proof.
  intros Hf. induction xs as [|x xs IH]; cbn [Oracle.mapM].
  - apply deterministic_ret.
  - apply deterministic_bind; [apply Hf|]. intros y.
    apply deterministic_bind; [exact IH|]. intros ys.
    apply deterministic_ret.
Qed.

(** A step with one outcome, followed by [k]. *)
Lemma bind_exactly {X Y} (r0 : result X) (k : X -> outcomes Y) (r : result Y) :
  (x ← exactly r0; k x) r
  <-> match r0 with Ok a => k a r | Throw e => r = Throw e end.
Proof.
  split.
  - intros [(a & <- & Hr)|(e & <- & ->)]; [exact Hr|reflexivity].
  - destruct r0 as [a|e]; intros H.
    + left. exists a. split; [reflexivity|exact H].
    + right. exists e. split; [reflexivity|exact H].
Qed.

(** Over a library of functions the outcome-set reading of lines
    100-124 has the result of [deriveAddress] among its outcomes. *)
Lemma deriveAddress_oracle_of (F : AddressLib) (P2SH P2PKH : string)
    (scriptType : string) (ring : list PublicKeyRingEntry) (path : string)
    (m : Z) (network : string) :
  Oracle.deriveAddress (oracle_of F) P2SH P2PKH scriptType ring path m network
    (deriveAddress F P2SH P2PKH scriptType ring path m network).
Proof.
  unfold Oracle.deriveAddress, deriveAddress.
  apply bind_exactly.
  destruct (checkArgument _); [|exact eq_refl]. cbn [mbind result_bind].
  assert (Hkeys : Oracle.mapM (Oracle.derivePublicKey (oracle_of F) path) ring
                    (mapM (derivePublicKey F path) ring)).
  { induction ring as [|item ring IH]; cbn [Oracle.mapM mapM]; [exact eq_refl|].
    assert (Hitem : Oracle.derivePublicKey (oracle_of F) path item
                      (derivePublicKey F path item)).
    { unfold Oracle.derivePublicKey, derivePublicKey. cbn.
      apply bind_exactly.
      destruct (HDPublicKey_new F (xPubKey item)) as [xpub|e]; [|exact eq_refl].
      cbn [mbind result_bind]. apply bind_exactly.
      destruct (deriveChild F xpub path) as [child|e]; exact eq_refl. }
    destruct (derivePublicKey F path item) as [y|e].
    - left. exists y. split; [exact Hitem|]. cbn [mbind result_bind].
      destruct (mapM (derivePublicKey F path) ring) as [ys|e].
      + left. exists ys. split; [exact IH|exact eq_refl].
      + right. exists e. split; [exact IH|exact eq_refl].
    - right. exists e. split; [exact Hitem|exact eq_refl]. }
  destruct (mapM (derivePublicKey F path) ring) as [pks|e].
  2:{ right. exists e. split; [exact Hkeys|exact eq_refl]. }
  left. exists pks. split; [exact Hkeys|]. cbn [mbind result_bind].
  assert (Hmake : Oracle.makeAddress (oracle_of F) P2SH P2PKH scriptType pks m
                    network (makeAddress F P2SH P2PKH scriptType pks m network)).
  { unfold Oracle.makeAddress, makeAddress.
    destruct (String.eqb scriptType P2SH).
    - cbn. apply bind_exactly.
      destruct (Address_createMultisig F pks m network); exact eq_refl.
    - destruct (String.eqb scriptType P2PKH); [|exact eq_refl].
      apply bind_exactly. unfold checkState.
      change (Oracle.PubKey (oracle_of F)) with (PubKey F).
      destruct (length pks =? 1)%nat; [|exact eq_refl]. cbn [mbind result_bind].
      destruct (pks !! 0%nat) as [pk|]; [|exact eq_refl].
      cbn. apply bind_exactly.
      destruct (Address_fromPublicKey F pk network); exact eq_refl. }
  destruct (makeAddress F P2SH P2PKH scriptType pks m network) as [[addr|]|e].
  - left. exists (Some addr). split; [exact Hmake|]. cbn.
    apply bind_exactly. left.
    exists (map (PubKey_toString F) pks). split; [|exact eq_refl].
    clear. induction pks as [|pk pks IH]; cbn [Oracle.mapM map]; [exact eq_refl|].
    apply bind_exactly. left. exists (map (PubKey_toString F) pks).
    split; [exact IH|exact eq_refl].
  - left. exists None. split; [exact Hmake|exact eq_refl].
  - right. exists e. split; [exact Hmake|exact eq_refl].
Qed.

(** C4.  [deriveAddress] adds nothing of its own to what the library
    does: when every library call has at most one outcome, so has
    [deriveAddress].  Two calls with the same scheme, ring, path,
    threshold and network end the same way, and when they return, they
    return the same address string, the same path and the same derived
    public key strings in the same order. *)
Theorem deriveAddress_deterministic (O : Oracle.AddressLib)
    (P2SH P2PKH : string) (scriptType : string)
    (ring : list PublicKeyRingEntry) (path : string) (m : Z) (network : string)
    (r r' : result DerivedAddress.t) :
  Oracle.Deterministic O ->
  Oracle.deriveAddress O P2SH P2PKH scriptType ring path m network r ->
  Oracle.deriveAddress O P2SH P2PKH scriptType ring path m network r' ->
  r = r'
  /\ (forall d d', r = Ok d -> r' = Ok d' ->
        DerivedAddress.address d = DerivedAddress.address d'
        /\ DerivedAddress.path d = DerivedAddress.path d'
        /\ DerivedAddress.publicKeys d = DerivedAddress.publicKeys d').
Proof.
  intros HO Hr Hr'.
  assert (Heq : r = r').
  { revert r r' Hr Hr'. unfold Oracle.deriveAddress.
    apply deterministic_bind; [apply deterministic_exactly|]. intros _.
    apply deterministic_bind.
    { apply deterministic_mapM. intros item. unfold Oracle.derivePublicKey.
      apply deterministic_bind; [apply (Oracle.det_new O HO)|]. intros xpub.
      apply deterministic_bind; [apply (Oracle.det_deriveChild O HO)|].
      intros child. apply (Oracle.det_publicKey O HO). }
    intros pks. apply deterministic_bind.
    { unfold Oracle.makeAddress.
      destruct (String.eqb scriptType P2SH).
      - apply deterministic_bind; [apply (Oracle.det_createMultisig O HO)|].
        intros a. apply deterministic_ret.
      - destruct (String.eqb scriptType P2PKH); [|apply deterministic_ret].
        apply deterministic_bind; [apply deterministic_exactly|]. intros _.
        destruct (pks !! 0%nat) as [pk|]; [|apply deterministic_exactly].
        apply deterministic_bind; [apply (Oracle.det_fromPublicKey O HO)|].
        intros a. apply deterministic_ret. }
    intros [a|]; [|apply deterministic_exactly].
    apply deterministic_bind; [apply (Oracle.det_Address_toString O HO)|].
    intros address. apply deterministic_bind.
    { apply deterministic_mapM. apply (Oracle.det_PubKey_toString O HO). }
    intros keys. apply deterministic_ret. }
  split; [exact Heq|].
  intros d d' -> ->. injection Heq as <-. auto.
Qed.

Lemma oracle_of_Deterministic (F : AddressLib) :
  Oracle.Deterministic (oracle_of F).
Proof. split; intros; apply deterministic_exactly. Qed.

(** *** Runs on the reference instances *)

Lemma deriveAddress_deterministic_witness :
  let d := {| DerivedAddress.address :=
                "3livenet:02xpubA/m/0/3,02xpubB/m/0/3,02xpubC/m/0/3";
              DerivedAddress.path := "m/0/3";
              DerivedAddress.publicKeys :=
                ["02xpubA/m/0/3"; "02xpubB/m/0/3"; "02xpubC/m/0/3"] |} in
  Oracle.deriveAddress (oracle_of RefAddress) "P2SH" "P2PKH" "P2SH"
    (ring_of ["xpubA"; "xpubB"; "xpubC"]) "m/0/3" 2 "livenet" (Ok d)
  /\ Ok d
     = refDeriveAddress "P2SH" (ring_of ["xpubA"; "xpubB"; "xpubC"]) "m/0/3" 2
                        "livenet".
Proof.
  cbv zeta.
  pose proof (deriveAddress_oracle_of RefAddress "P2SH" "P2PKH" "P2SH"
                (ring_of ["xpubA"; "xpubB"; "xpubC"]) "m/0/3" 2 "livenet")
    as Hrun.
  split; [exact Hrun|].
  exact (proj1 (deriveAddress_deterministic (oracle_of RefAddress)
                  "P2SH" "P2PKH" "P2SH" (ring_of ["xpubA"; "xpubB"; "xpubC"])
                  "m/0/3" 2 "livenet" _ _
                  (oracle_of_Deterministic RefAddress) Hrun Hrun)).
Defined.

Lemma deriveAddress_path_and_keys_witness :
  exists d,
    refDeriveAddress "P2SH" (ring_of ["xpubA"; "xpubB"]) "m/0/3" 2 "livenet" = Ok d
    /\ DerivedAddress.path d = "m/0/3"
    /\ length (DerivedAddress.publicKeys d) = length (ring_of ["xpubA"; "xpubB"]).
Proof.
  eexists. split; [reflexivity|].
  exact (deriveAddress_path_and_keys RefAddress "P2SH" "P2PKH" "P2SH"
           (ring_of ["xpubA"; "xpubB"]) "m/0/3" 2 "livenet" _ eq_refl).
Defined.

Lemma deriveAddress_failures_witness :
  refDeriveAddress "P2WPKH" (ring_of ["xpubA"]) "m/0/3" 1 "livenet"
  = Throw ArgumentError
  /\ refDeriveAddress "P2PKH" (ring_of ["xpubA"; "xpubB"]) "m/0/3" 1 "livenet"
     = Throw StateError
  /\ refDeriveAddress "P2PKH" (ring_of ["xpubA"]) "m/0/3" 1 "livenet"
     = Ok {| DerivedAddress.address := "1livenet:02xpubA/m/0/3";
             DerivedAddress.path := "m/0/3";
             DerivedAddress.publicKeys := ["02xpubA/m/0/3"] |}.
Proof.
  split; [|split].
  - destruct (deriveAddress_failures RefAddress "P2SH" "P2PKH" "P2WPKH"
             (ring_of ["xpubA"]) "m/0/3" 1 "livenet") as (H & _ & _);
      [discriminate|].
    apply H. reflexivity.
  - destruct (deriveAddress_failures RefAddress "P2SH" "P2PKH" "P2PKH"
             (ring_of ["xpubA"; "xpubB"]) "m/0/3" 1 "livenet") as (_ & H & _);
      [discriminate|].
    destruct (H eq_refl ltac:(simpl; lia)) as (_ & Hstate & _).
    eapply Hstate. reflexivity.
  - reflexivity.
Defined.

(** C6 as stated fails on a ring whose second entry is no extended
    public key: the single-key scheme is asked for two entries, and the
    call throws the library's error of line 104, not a state error. *)
Lemma deriveAddress_single_key_library_error :
  refDeriveAddress "P2PKH" (ring_of ["xpubA"; "bad"]) "m/0/3" 1 "livenet"
  = Throw (LibraryError "InvalidB58Checksum")
  /\ refDeriveAddress "P2PKH" (ring_of ["xpubA"; "xpubB"]) "0/3" 1 "livenet"
     = Throw (LibraryError "InvalidPath").
Proof. split; reflexivity. Qed.

Lemma decryptMessage_total_witness :
  decryptMessage RefSjcl "c2VjcmV0:hello" "c2VjcmV0" = Ok "hello"
  /\ decryptMessage RefSjcl "c2VjcmV0:hello" "b3RoZXI=" = Ok "c2VjcmV0:hello"
  /\ decryptMessage RefSjcl "c2VjcmV0:hello" "not base64!" = Ok "c2VjcmV0:hello"
  /\ decryptMessage RefSjcl "{bad json" "c2VjcmV0" = Ok "{bad json".
Proof.
  pose proof (decryptMessage_total RefSjcl "c2VjcmV0:hello" "c2VjcmV0")
    as (_ & Hok & _).
  pose proof (decryptMessage_total RefSjcl "c2VjcmV0:hello" "b3RoZXI=")
    as (_ & _ & _ & _ & Hwrong).
  pose proof (decryptMessage_total RefSjcl "c2VjcmV0:hello" "not base64!")
    as (_ & _ & _ & Hkey & _).
  pose proof (decryptMessage_total RefSjcl "{bad json" "c2VjcmV0")
    as (_ & _ & Hbad & _).
  split; [|split; [|split]].
  - apply Hok. reflexivity.
  - eapply Hwrong; reflexivity.
  - eapply Hkey; reflexivity.
  - eapply Hbad; reflexivity.
Defined.

(** ** Proposal hash *)

(** Induction over a value with the hypothesis available for every item
    of an array and every property value of an object. *)
Fixpoint JSValue_nested_ind (P : JSValue -> Prop)
    (Hundefined : P JUndefined) (Hnull : P JNull)
    (Hbool : forall b, P (JBool b)) (Hnumber : forall n, P (JNumber n))
    (Hstring : forall s, P (JString s))
    (Harray : forall items, Forall P items -> P (JArray items))
    (Hobject : forall fields,
        Forall (fun kv => P (snd kv)) fields -> P (JObject fields))
    (v : JSValue) {struct v} : P v :=
  let rec_ := JSValue_nested_ind P Hundefined Hnull Hbool Hnumber Hstring
                                 Harray Hobject in
  match v with
  | JUndefined => Hundefined
  | JNull => Hnull
  | JBool b => Hbool b
  | JNumber n => Hnumber n
  | JString s => Hstring s
  | JArray items =>
      Harray items
        ((fix all (l : list JSValue) : Forall P l :=
            match l with
            | [] => @List.Forall_nil _ P
            | x :: l' => @List.Forall_cons _ P x l' (rec_ x) (all l')
            end) items)
  | JObject fields =>
      Hobject fields
        ((fix all (l : list (string * JSValue))
            : Forall (fun kv => P (snd kv)) l :=
            match l with
            | [] => @List.Forall_nil _ _
            | kv :: l' =>
                @List.Forall_cons _ (fun kv => P (snd kv)) kv l'
                  (match kv as p return P (snd p) with (k, x) => rec_ x end)
                  (all l')
            end) fields)
  end.

Lemma property_Some_elem {B} (key : string) (fields : list (string * B)) (v : B) :
  property key fields = Some v -> (key, v) ∈ fields.
Proof.
  induction fields as [|[k x] rest IH]; simpl; [discriminate|].
  destruct (String.eqb_spec k key) as [->|Hne].
  - intros [= ->]. left.
  - intros H. right. auto.
Qed.

Lemma property_None_keys {B} (key : string) (fields : list (string * B)) :
  property key fields = None <-> key ∉ map fst fields.
Proof.
  induction fields as [|[k x] rest IH]; simpl.
  - split; [intros _ H; inversion H|reflexivity].
  - destruct (String.eqb_spec k key) as [->|Hne].
    + split; [discriminate|]. intros H. exfalso. apply H. left.
    + rewrite IH. rewrite not_elem_of_cons. split; [auto|tauto].
Qed.

Lemma property_elem_Some {B} (key : string) (fields : list (string * B)) (v : B) :
  NoDup (map fst fields) -> (key, v) ∈ fields -> property key fields = Some v.
Proof.
  induction fields as [|[k x] rest IH]; simpl; intros Hnd Hin.
  - inversion Hin.
  - apply NoDup_cons in Hnd as [Hk Hnd].
    apply elem_of_cons in Hin as [[= <- <-]|Hin].
    + now rewrite String.eqb_refl.
    + destruct (String.eqb_spec k key) as [->|Hne]; [|auto].
      exfalso. apply Hk.
      change key with (fst (key, v)).
      change (map fst rest) with (fst <$> rest). now apply list_elem_of_fmap_2.
Qed.

(** Reading a property does not depend on the order of the properties. *)
Lemma property_Permutation {B} (key : string) (l l' : list (string * B)) :
  NoDup (map fst l) -> l ≡ₚ l' -> property key l = property key l'.
Proof.
  intros Hnd Hp.
  assert (Hnd' : NoDup (map fst l')).
  { assert (Hk : map fst l ≡ₚ map fst l') by now apply Permutation_map.
    now rewrite <- Hk. }
  destruct (property key l) as [v|] eqn:Hl.
  - symmetry. apply property_elem_Some; [exact Hnd'|].
    rewrite <- Hp. now apply property_Some_elem.
  - symmetry. apply property_None_keys. apply property_None_keys in Hl.
    intros Hin. apply Hl.
    change (map fst l) with (fst <$> l). change (map fst l') with (fst <$> l') in Hin.
    now rewrite Hp.
Qed.

(** The sorted keys do not depend on the order of the properties. *)
Lemma sortedKeys_Permutation {B} (l l' : list (string * B)) :
  map fst l ≡ₚ map fst l' -> sortedKeys l = sortedKeys l'.
Proof.
  intros Hp. unfold sortedKeys.
  apply (Sorted_unique String.le).
  - apply Sorted_merge_sort; apply _.
  - apply Sorted_merge_sort; apply _.
  - now rewrite !merge_sort_Permutation.
Qed.

Lemma omap_ext_in {A B} (f g : A -> option B) (l : list A) :
  (forall x, x ∈ l -> f x = g x) -> omap f l = omap g l.
Proof.
  induction l as [|x l IH]; intros H; [reflexivity|].
  cbn. rewrite (H x) by left. rewrite IH; [reflexivity|].
  intros y Hy. apply H. now right.
Qed.

Lemma Stringify_array (items : list JSValue) :
  Stringify (JArray items) =
    Some ("[" +:+ String.concat "," (map (fun x => arrayItem (Stringify x)) items)
          +:+ "]").
Proof. reflexivity. Qed.

Lemma Stringify_object (fields : list (string * JSValue)) :
  Stringify (JObject fields) =
    Some ("{" +:+ String.concat ","
                    (omap (keyValue (map (fun '(k, v) => (k, Stringify v)) fields))
                          (sortedKeys fields))
          +:+ "}").
Proof. reflexivity. Qed.

(** The serialisation of a value is the same for every order of the
    properties of its objects. *)
Lemma Stringify_key_order (v : JSValue) :
  forall v', same_up_to_key_order v v' -> Stringify v = Stringify v'.
Proof.
  induction v as [| | | | |items IH|fields IH] using JSValue_nested_ind;
    intros v' Hsame; inversion Hsame; subst; try reflexivity.
  - (* arrays *)
    rewrite !Stringify_array.
    match goal with H : Forall2 _ items _ |- _ => rename H into H2 end.
    assert (Hout : map (fun x => arrayItem (Stringify x)) items
                   = map (fun x => arrayItem (Stringify x)) items').
    { clear Hsame. induction H2 as [|x x' l l' Hx Hl IHl]; [reflexivity|].
      apply Forall_cons in IH as [IHx IHrest].
      cbn [map]. rewrite (IHx x' Hx). f_equal. now apply IHl. }
    now rewrite Hout.
  - (* objects *)
    match goal with
    | Hnd : NoDup _, Hp : fields ≡ₚ _, H2 : Forall2 _ _ _ |- _ =>
        rename Hnd into Hnodup; rename Hp into Hperm; rename H2 into Hrel
    end.
    assert (IH' : Forall (fun kv => forall v', same_up_to_key_order (snd kv) v' ->
                            Stringify (snd kv) = Stringify v') reordered).
    { now rewrite <- Hperm. }
    assert (Hvalues :
      map (fun '(k, v) => (k, Stringify v)) reordered
      = map (fun '(k, v) => (k, Stringify v)) fields').
    { clear Hperm Hsame. induction Hrel as [|[k x] [k' x'] l l' [Hk Hx] Hl IHl];
        [reflexivity|].
      apply Forall_cons in IH' as [IHx IHrest]. simpl in *. subst k'.
      rewrite (IHx x' Hx). f_equal. now apply IHl. }
    assert (Hkeys : map fst fields ≡ₚ map fst fields').
    { assert (Heq : map fst reordered = map fst fields').
      { clear -Hrel. induction Hrel as [|[k x] [k' x'] l l' [Hk _] _ IHl];
          [reflexivity|]. simpl in *. congruence. }
      rewrite <- Heq. now apply Permutation_map. }
    rewrite !Stringify_object.
    rewrite (sortedKeys_Permutation fields fields' Hkeys).
    assert (Hout :
      omap (keyValue (map (fun '(k, v) => (k, Stringify v)) fields))
           (sortedKeys fields')
      = omap (keyValue (map (fun '(k, v) => (k, Stringify v)) fields'))
             (sortedKeys fields')).
    { apply omap_ext_in. intros key _. unfold keyValue.
      rewrite <- Hvalues.
      rewrite (property_Permutation key
                 (map (fun '(k, v) => (k, Stringify v)) fields)
                 (map (fun '(k, v) => (k, Stringify v)) reordered)).
      - reflexivity.
      - rewrite map_map.
        erewrite map_ext; [exact Hnodup|]. now intros [k x].
      - now apply Permutation_map. }
    now rewrite Hout.
Qed.


(** *** A number never prints as the empty string *)

Lemma append_nonempty_r (a b : string) : b <> "" -> a +:+ b <> "".
Proof.
  intros Hb H. apply (f_equal String.length) in H.
  rewrite append_length in H. destruct b; [congruence|]. simpl in H. lia.
Qed.

Lemma append_nonempty_l (a b : string) : a <> "" -> a +:+ b <> "".
Proof.
  intros Ha H. destruct a; [congruence|]. discriminate.
Qed.

Lemma pow10_ge_1 (e : Z) : 0 <= e -> (1 <= pow10 e)%Q.
Proof.
  intros He. unfold pow10. destruct (Z.leb_spec 0 e); [|lia].
  change 1%Q with (inject_Z 1). rewrite <- Zle_Qle.
  assert (0 < 10 ^ e) by (apply Z.pow_pos_nonneg; lia). lia.
Qed.

Lemma floor_log2_below_1 (q : Q) : (q < 1)%Q -> floor_log2 q <= 0.
Proof.
  intros Hq. unfold floor_log2.
  assert (He0 : Z.log2 (Qnum q) - Z.log2 (Z.pos (Qden q)) <= 0).
  { unfold Qlt in Hq. cbn [Qnum Qden] in Hq.
    assert (H : Qnum q <= Z.pos (Qden q)) by lia.
    pose proof (Z.log2_le_mono _ _ H). lia. }
  cbv zeta. destruct (Qle_bool _ q); lia.
Qed.

Lemma floor_log10_below_1 (q : Q) : (q < 1)%Q -> floor_log10 q <= 0.
Proof.
  intros Hq. unfold floor_log10. cbv zeta.
  pose proof (floor_log2_below_1 q Hq) as H2.
  set (d0 := floor_log2 q * 30103 / 100000).
  assert (Hd0 : d0 <= 0).
  { unfold d0. apply Z.div_le_upper_bound; lia. }
  set (d1 := if Qle_bool (pow10 d0) q then d0 else d0 - 1).
  assert (Hd1 : d1 <= 0)
    by (unfold d1; destruct (Qle_bool (pow10 d0) q); lia).
  set (d2 := if Qle_bool (pow10 d1) q then d1 else d1 - 1).
  assert (Hd2 : d2 <= 0)
    by (unfold d2; destruct (Qle_bool (pow10 d1) q); lia).
  assert (Hlow : forall e, Qle_bool (pow10 e) q = true -> e < 0).
  { intros e He. apply Qle_bool_iff in He.
    destruct (Z.lt_ge_cases e 0) as [|Hge]; [assumption|].
    pose proof (pow10_ge_1 e Hge) as H1.
    exfalso. apply (Qlt_not_le _ _ Hq). eapply Qle_trans; eassumption. }
  destruct (Qle_bool (pow10 (d2 + 1)) q) eqn:Ha; [|exact Hd2].
  destruct (Qle_bool (pow10 (d2 + 2)) q) eqn:Hb.
  - apply Hlow in Hb. lia.
  - apply Hlow in Ha. lia.
Qed.

(** Zero digits do not read back as a number that is not zero. *)
Lemma roundtrips_zero (x : Q) (ex : Z) :
  Qeq_bool x 0 = false -> roundtrips x 0 ex = false.
Proof.
  intros Hx. unfold roundtrips, round64.
  assert (Hz : Qle_bool (inject_Z 0 * pow10 ex) 0 = true).
  { apply Qle_bool_iff. rewrite Qmult_0_l. apply Qle_refl. }
  rewrite Hz.
  destruct (Qeq_bool 0 x) eqn:H0; [|reflexivity].
  apply Qeq_bool_iff in H0. symmetry in H0. apply Qeq_bool_iff in H0.
  congruence.
Qed.

(** The digits of a number that is not zero are zero only when the
    search gives up, at the last number of digits tried. *)
Lemma shortest_zero (fuel : nat) (k : Z) (x : Q) (d ex : Z) :
  Qeq_bool x 0 = false ->
  shortest fuel k x d = (0, ex) ->
  ex = d + 1 - (k + Z.of_nat fuel)
  /\ Qfloor (Qdiv x (pow10 ex)) = 0.
Proof.
  intros Hx. revert k. induction fuel as [|fuel IH]; intros k H.
  - cbn in H. injection H as H1 H2. subst ex. split; [lia|exact H1].
  - cbn [shortest] in H. cbv zeta in H.
    set (e := d + 1 - k) in *.
    set (lo := Qfloor (x / pow10 e)) in *.
    destruct (roundtrips x lo e) eqn:Hlo, (roundtrips x (lo + 1) e) eqn:Hhi.
    + destruct (Qcompare _ _); [destruct (Z.even lo)| |];
        injection H as H1 H2; subst ex;
        try (rewrite H1 in Hlo); try (rewrite H1 in Hhi);
        rewrite roundtrips_zero in * by exact Hx; discriminate.
    + injection H as H1 H2; subst ex. rewrite H1 in Hlo.
      rewrite roundtrips_zero in Hlo by exact Hx. discriminate.
    + injection H as H1 H2; subst ex. rewrite H1 in Hhi.
      rewrite roundtrips_zero in Hhi by exact Hx. discriminate.
    + apply IH in H as [H1 H2]. split; [lia|exact H2].
Qed.

Lemma pretty_N_go_head (x : N) (s : string) :
  (0 < x)%N ->
  exists c rest, pretty_N_go x s = String c rest /\ c <> "0"%char.
Proof.
  revert s. induction (N.lt_wf_0 x) as [x _ IH]; intros s Hx.
  rewrite pretty_N_go_step by exact Hx.
  destruct (decide (x `div` 10 = 0)%N) as [Hz|Hnz].
  - rewrite Hz, pretty_N_go_0. eexists _, _. split; [reflexivity|].
    assert (Hsmall : (x < 10)%N).
    { pose proof (N.div_mod' x 10) as Hdm.
      assert (Hm : (x mod 10 < 10)%N) by (apply N.mod_lt; discriminate).
      rewrite Hz in Hdm. lia. }
    rewrite N.mod_small by exact Hsmall.
    assert (x = 1 \/ x = 2 \/ x = 3 \/ x = 4 \/ x = 5 \/ x = 6
            \/ x = 7 \/ x = 8 \/ x = 9)%N as Hc by lia.
    destruct Hc as [->|[->|[->|[->|[->|[->|[->|[->| ->]]]]]]]]; discriminate.
  - apply IH; [apply N.div_lt; lia|]. apply N.neq_0_lt_0. exact Hnz.
Qed.

Lemma drop_zeros_nil (l : list ascii) :
  drop_zeros l = [] -> Forall (fun c => c = "0"%char) l.
Proof.
  induction l as [|c l IH]; [constructor|]. cbn [drop_zeros].
  unfold is_zero_char. destruct (Ascii.eqb_spec c "0"); [|discriminate].
  intros H. constructor; auto.
Qed.

(** Only zero has digits that are all stripped. *)
Lemma strip_trailing_zeros_pretty (s : Z) :
  strip_trailing_zeros (pretty s) = "" -> s = 0.
Proof.
  unfold strip_trailing_zeros. intros H.
  apply (f_equal list_ascii_of_string) in H.
  rewrite list_ascii_of_string_of_list_ascii in H. cbn in H.
  apply (f_equal (@rev ascii)) in H. rewrite rev_involutive in H. cbn in H.
  apply drop_zeros_nil in H.
  assert (Hall : Forall (fun c => c = "0"%char) (list_ascii_of_string (pretty s))).
  { apply List.Forall_forall. intros c Hc.
    rewrite List.Forall_forall in H. apply H.
    apply in_rev in Hc. exact Hc. }
  destruct s as [|p|p]; [reflexivity| |].
  - exfalso. change (pretty (Z.pos p)) with (pretty (N.pos p)) in Hall.
    unfold pretty, pretty_N in Hall.
    destruct (decide (N.pos p = 0%N)); [discriminate|].
    destruct (pretty_N_go_head (N.pos p) "" ltac:(lia)) as (c & rest & Heq & Hc).
    rewrite Heq in Hall. inversion Hall; subst. congruence.
  - exfalso. change (pretty (Z.neg p)) with ("-" +:+ pretty p) in Hall.
    inversion Hall; subst. discriminate.
Qed.

Lemma append_eq_empty (a b : string) : a +:+ b = "" -> a = "" /\ b = "".
Proof.
  destruct a; [|discriminate]. rewrite append_nil. auto.
Qed.

Lemma zeros_empty (n : nat) : zeros n = "" -> n = 0%nat.
Proof. destruct n; [reflexivity|discriminate]. Qed.

Lemma positive_toString_nonempty (q : Q) :
  Qeq_bool q 0 = false -> positive_toString q <> "".
Proof.
  intros Hq. unfold positive_toString.
  destruct (shortest 20 1 q (floor_log10 q)) as [s ex] eqn:Hs.
  set (all := pretty s). set (ds := strip_trailing_zeros all).
  set (k := Z.of_nat (String.length ds)).
  set (n := ex + Z.of_nat (String.length all)).
  destruct ((k <=? n) && (n <=? 21)) eqn:H1.
  - intros Hempty. apply append_eq_empty in Hempty as [Hds Hz].
    apply zeros_empty in Hz.
    assert (Hs0 : s = 0) by (apply strip_trailing_zeros_pretty; exact Hds).
    subst s. apply andb_true_iff in H1 as [Hkn _]. apply Z.leb_le in Hkn.
    assert (Hk : k = 0) by (unfold k; rewrite Hds; reflexivity).
    assert (Hex : ex = -1).
    { unfold n in *. change (String.length all) with 1%nat in *. lia. }
    subst ex.
    apply shortest_zero in Hs as [Hd Hfloor]; [|exact Hq].
    assert (Hlt : (q < 1)%Q).
    { pose proof (Qlt_floor (q / pow10 (-1))) as Hlt. rewrite Hfloor in Hlt.
      change (pow10 (-1)) with (1 # 10) in Hlt.
      unfold Qlt, Qdiv, Qmult, Qinv in *. simpl in *. lia. }
    pose proof (floor_log10_below_1 q Hlt). lia.
  - destruct ((0 <? n) && (n <=? 21)).
    + apply append_nonempty_r, append_nonempty_l. discriminate.
    + destruct ((-6 <? n) && (n <=? 0)).
      * apply append_nonempty_l. discriminate.
      * cbv zeta. destruct (k =? 1).
        -- apply append_nonempty_r, append_nonempty_l. discriminate.
        -- apply append_nonempty_r, append_nonempty_l. discriminate.
Qed.

Lemma Number_toString_nonempty (negative : bool) (q : Q) :
  Number_toString (Finite negative q) <> "".
Proof.
  unfold Number_toString. destruct (Qeq_bool q 0) eqn:Hq; [discriminate|].
  apply append_nonempty_r. now apply positive_toString_nonempty.
Qed.

(** *** The serialisation is the canonical JSON text *)

Lemma JSON_char_escape (c : ascii) : JSON_char c = json_escape c.
Proof. destruct c as [[] [] [] [] [] [] [] []]; reflexivity. Qed.

Lemma JSON_string_quote (s : string) : JSON_string s = json_quote s.
Proof.
  unfold JSON_string, json_quote. do 3 f_equal.
  apply map_ext. intros c. apply JSON_char_escape.
Qed.

(** What [Stringify] returns is never the empty string. *)
Lemma Stringify_truthy (v : JSValue) (s : string) :
  Stringify v = Some s -> truthy (Some s) = true.
Proof.
  intros H. apply truthy_string_true.
  destruct v as [| |[]|[| |negative q]|x|items|fields]; cbn [Stringify] in H;
    try discriminate; injection H as <-; try discriminate.
  apply Number_toString_nonempty.
Qed.

Lemma arrayItem_default (v : JSValue) :
  arrayItem (Stringify v) = default "null" (Stringify v).
Proof.
  destruct (Stringify v) as [s|] eqn:Hs; [|reflexivity].
  unfold arrayItem. now rewrite (Stringify_truthy v s Hs).
Qed.

#[global] Instance key_le_total : Total key_le.
Proof. intros a b. unfold key_le. apply total, _. Qed.

Lemma Sorted_key_le (l : list (string * JSValue)) :
  Sorted key_le l -> Sorted String.le (map fst l).
Proof.
  induction 1 as [|a l Hs IH Hhd]; [constructor|].
  cbn [map]. constructor; [exact IH|].
  destruct Hhd as [|b l Hab]; constructor. exact Hab.
Qed.

Lemma omap_map {X Y Z'} (f : Y -> option Z') (g : X -> Y) (l : list X) :
  omap f (map g l) = omap (fun x => f (g x)) l.
Proof.
  induction l as [|x l IH]; [reflexivity|]. cbn. now rewrite IH.
Qed.

Lemma map_fst_sortProperties (fields : list (string * JSValue)) :
  map fst (map (fun '(k, x) => (k, sortProperties x)) fields) = map fst fields.
Proof. rewrite map_map. apply map_ext. now intros [k x]. Qed.

Lemma map_fst_Stringify (fields : list (string * JSValue)) :
  map fst (map (fun '(k, x) => (k, Stringify x)) fields) = map fst fields.
Proof. rewrite map_map. apply map_ext. now intros [k x]. Qed.

(** The sorted keys of an object are the keys of its sorted properties. *)
Lemma sortedKeys_sortProperties (fields : list (string * JSValue)) :
  sortedKeys fields
  = map fst (merge_sort key_le
               (map (fun '(k, x) => (k, sortProperties x)) fields)).
Proof.
  unfold sortedKeys. apply (Sorted_unique String.le).
  - apply Sorted_merge_sort; apply _.
  - apply Sorted_key_le. apply Sorted_merge_sort; apply _.
  - rewrite merge_sort_Permutation.
    rewrite <- (map_fst_sortProperties fields).
    apply Permutation_map. symmetry. apply merge_sort_Permutation.
Qed.

(** For a value without a key twice, [Stringify] returns the canonical
    JSON text. *)
Lemma Stringify_canonicalJSON (v : JSValue) :
  distinctKeys v = true -> Stringify v = canonicalJSON v.
Proof.
  unfold canonicalJSON.
  induction v as [| |b|n|s|items IH|fields IH] using JSValue_nested_ind;
    intros Hwf.
  - reflexivity.
  - reflexivity.
  - destruct b; reflexivity.
  - destruct n; reflexivity.
  - cbn [Stringify sortProperties JSON_text]. now rewrite JSON_string_quote.
  - rewrite Stringify_array. cbn [sortProperties JSON_text].
    rewrite map_map.
    cbn [distinctKeys] in Hwf. rewrite forallb_forall in Hwf.
    rewrite List.Forall_forall in IH.
    rewrite (map_ext_in (fun x => arrayItem (Stringify x))
               (fun x => default "null" (JSON_text (sortProperties x))) items);
      [reflexivity|].
    intros x Hx.
    rewrite arrayItem_default. now rewrite (IH x Hx (Hwf x Hx)).
  - rewrite Stringify_object. cbn [sortProperties JSON_text].
    cbn [distinctKeys] in Hwf. apply andb_true_iff in Hwf as [Hnd Hwf].
    apply bool_decide_eq_true in Hnd.
    rewrite forallb_forall in Hwf. rewrite List.Forall_forall in IH.
    rewrite sortedKeys_sortProperties, omap_map.
    match goal with
    | |- Some (_ +:+ String.concat _ ?l +:+ _)
         = Some (_ +:+ String.concat _ ?r +:+ _) =>
        assert (Hout : l = r); [|now rewrite Hout]
    end.
    apply omap_ext_in. intros [k y] Hin.
    rewrite merge_sort_Permutation in Hin.
    apply list_elem_of_In, in_map_iff in Hin as ([k' x] & [= <- <-] & Hx).
    cbn [fst].
    unfold keyValue.
    rewrite (property_elem_Some k' _ (Stringify x)).
    + pose proof (IH (k', x) Hx (Hwf (k', x) Hx)) as Hsame.
      cbn [snd] in Hsame. rewrite Hsame.
      destruct (JSON_text (sortProperties x)) as [text|] eqn:Htext;
        [|reflexivity].
      rewrite (Stringify_truthy x text Hsame). cbn [default from_option id].
      now rewrite JSON_string_quote.
    + now rewrite map_fst_Stringify.
    + apply list_elem_of_In, in_map_iff. exists (k', x). split; [reflexivity|exact Hx].
Qed.

(** C8.  [getProposalHash] has two forms, chosen by the number of
    arguments.  With one argument, a header in which no object has a key
    twice, it returns the canonical JSON text of the header: the JSON
    serialization with the properties of every object in the sorted order
    of their keys; so two headers that are the same up to the order of
    their keys give the same string.  With more than one argument it is
    the first four joined by ["|"], a false message or payProUrl
    (missing, [null], empty) printing as nothing: for an address string,
    a number and optional message and payProUrl strings that is
    [toAddress|amount|message|payProUrl], the amount printed as
    JavaScript prints a number. *)
Theorem getProposalHash_forms :
  (forall header,
     distinctKeys header = true ->
     getProposalHash [header] = canonicalJSON header)
  /\ (forall header header',
        same_up_to_key_order header header' ->
        getProposalHash [header] = getProposalHash [header'])
  /\ (forall arguments,
        (1 < length arguments)%nat ->
        getProposalHash arguments
        = Some (join "|" [arg arguments 0; arg arguments 1;
                          js_or (arg arguments 2) (JString "");
                          js_or (arg arguments 3) (JString "")]))
  /\ (forall (toAddress : string) (amount : Number)
             (message payProUrl : option string),
        getProposalHash [JString toAddress; JNumber amount;
                         optional message; optional payProUrl]
        = Some (toAddress +:+ "|" +:+ Number_toString amount +:+ "|"
                +:+ default "" message +:+ "|" +:+ default "" payProUrl)).
Proof.
  split; [intros header Hwf; now apply Stringify_canonicalJSON|].
  split; [intros header header' H; now apply Stringify_key_order|].
  split.
  { intros arguments Hlen. unfold getProposalHash.
    destruct (Nat.ltb_spec 1 (length arguments)); [reflexivity|lia]. }
  intros toAddress amount message payProUrl.
  unfold getProposalHash, getOldHash, join, arg; simpl.
  f_equal. f_equal. f_equal.
  assert (Hopt : forall o : option string,
            join_item (js_or (optional o) (JString "")) = default "" o).
  { intros [s|]; [|reflexivity].
    destruct (decide (s = "")) as [->|Hs]; [reflexivity|].
    unfold js_or, optional.
    change (truthy (JString s)) with (truthy s).
    now rewrite (truthy_string_true s Hs). }
  now rewrite !Hopt.
Qed.

(** *** Runs of [getProposalHash] *)

(** A header with a quote in a string, an array with a missing item
    and a property without a value; the same header in another order;
    and two legacy calls. *)
Lemma getProposalHash_forms_witness :
  getProposalHash
    [JObject [("toAddress", JString "addr");
              ("message", JString ("a" +:+ dquote +:+ "b"));
              ("amount", JNumber (Number_of_Z 1000));
              ("skipped", JUndefined);
              ("list", JArray [JUndefined; JBool true;
                               JNumber (Number_div (Number_of_Z 3)
                                                   (Number_of_Z 2))])]]
  = Some ("{" +:+ dquote +:+ "amount" +:+ dquote +:+ ":1000,"
          +:+ dquote +:+ "list" +:+ dquote +:+ ":[null,true,1.5],"
          +:+ dquote +:+ "message" +:+ dquote +:+ ":"
          +:+ dquote +:+ "a" +:+ backslash +:+ dquote +:+ "b" +:+ dquote +:+ ","
          +:+ dquote +:+ "toAddress" +:+ dquote +:+ ":"
          +:+ dquote +:+ "addr" +:+ dquote +:+ "}")
  /\ getProposalHash [JObject [("amount", JNumber (Number_of_Z 1000));
                               ("toAddress", JString "addr")]]
     = getProposalHash [JObject [("toAddress", JString "addr");
                                 ("amount", JNumber (Number_of_Z 1000))]]
  /\ getProposalHash [JString "addr"; JNumber (Number_of_Z 1000);
                      JString "hi"; JUndefined]
     = Some "addr|1000|hi|"
  /\ getProposalHash [JString "addr"; JNumber (Number_of_Z 1000); JNull;
                      JString "url"]
     = Some "addr|1000||url".
Proof.
  destruct getProposalHash_forms as (Hone & Horder & Hcount & Hlegacy).
  split.
  { rewrite Hone by reflexivity. vm_compute. reflexivity. }
  split.
  - apply Horder.
    apply (sko_object _ [("toAddress", JString "addr");
                         ("amount", JNumber (Number_of_Z 1000))]).
    + apply (bool_decide_unpack _). vm_compute. exact I.
    + apply perm_swap.
    + repeat constructor.
  - split.
    + exact (Hlegacy "addr" (Number_of_Z 1000) (Some "hi") None).
    + rewrite Hcount by (simpl; lia). reflexivity.
Defined.

(** Numbers are printed as JavaScript prints a binary64 value: 2^60 is
    not written digit for digit, 1e21 takes the exponent form, and what
    is not finite is [null] in JSON. *)
Example Stringify_numbers :
  Stringify (JNumber (Number_of_Z (2 ^ 60))) = Some "1152921504606847000"
  /\ Stringify (JNumber (Number_of_Z (10 ^ 21))) = Some "1e+21"
  /\ Stringify (JArray [JNumber NaN; JNumber (Infinity true)])
     = Some "[null,null]"
  /\ getProposalHash [JString "a"; JNumber (Number_of_Z (2 ^ 60))]
     = Some "a|1152921504606847000||".
Proof. vm_compute. repeat split. Qed.

(** ** AmountFormatter *)

(** The two values of the specification's example, on its unit. *)
Lemma formatAmount_claim_examples :
  formatAmount claimUnits 123456789 "BTC" noOptions = Ok "1.23456789"
  /\ formatAmount claimUnits 100000000 "BTC" noOptions = Ok "1.00"
  /\ formatAmount claimUnits 100000000 "mBTC" noOptions = Throw ArgumentError.
Proof. vm_compute. repeat split. Qed.

(** On the wallet's units the two descriptions agree on these amounts,
    separators included. *)
Lemma formatAmount_examples :
  formatAmount walletUnits 1 "btc" noOptions = Ok "0.00"
  /\ formatAmount walletUnits 1 "btc"
       {| fullPrecision := true; thousandsSeparator := None;
          decimalSeparator := None |} = Ok "0.00000001"
  /\ formatAmount walletUnits 1234567899999 "btc"
       {| fullPrecision := false; thousandsSeparator := Some " ";
          decimalSeparator := Some "," |} = Ok "12 345,678999"
  /\ formatAmount walletUnits 1234567899999 "bit" noOptions = Ok "12,345,678,999"
  /\ forallb (agrees "btc" noOptions)
       [0; 1; 50; 100; 101; 123456789; 100000000; 1234567899999;
        2100000000000000] = true.
Proof. vm_compute. repeat split. Qed.

(** Among the amounts below 300, the short profile of the 1e8 unit
    departs from the specification exactly on 51 .. 99; the full profile
    and the unit of size 100 never do. *)
Lemma formatAmount_agreement_below_300 :
  List.filter (fun s => negb (agrees "btc" noOptions s)) (seqZ 0 300) = seqZ 51 49
  /\ forallb (agrees "btc" {| fullPrecision := true; thousandsSeparator := None;
                             decimalSeparator := None |}) (seqZ 0 300) = true
  /\ forallb (agrees "bit" noOptions) (seqZ 0 300) = true.
Proof. vm_compute. repeat split. Qed.

(** C9, where the code departs from it.  99 minimal units of a unit of
    size 1e8 are 9.9e-7, which [toString] prints in exponent form; the
    text after the point that [clipDecimals] cuts is then ["9e-7"], not
    the decimals, so nothing is cut, and [toFixed] rounds the number to 6
    decimals: the result is ["0.000001"], where cutting after 6 decimals
    gives ["0.00"]. *)
Theorem formatAmount_rounds_small_amounts :
  Number_toString (Number_div (Number_of_Z 99) (Number_of_Z 100000000)) = "9.9e-7"
  /\ split "." "9.9e-7" = ["9"; "9e-7"]
  /\ Number_toString
       (clipDecimals (Number_div (Number_of_Z 99) (Number_of_Z 100000000)) 6)
     = "9.9e-7"
  /\ formatAmount walletUnits 99 "btc" noOptions = Ok "0.000001"
  /\ truncatedAmount btcUnit 99 noOptions = "0.00".
Proof. vm_compute. repeat split. Qed.

(** * Further properties of the module *)

(** ** SymmetricCipher: what [encryptMessage] makes, [decryptMessage] reads *)

Section CipherRoundTrip.

Variable S : SjclLib.
Variable SJCL : list (string * Z).

(** X1.  With a cipher whose [decrypt] inverts [encrypt] under the same
    key: whenever [encryptMessage] returns a ciphertext for a message and
    a key, [decryptMessage] with that key returns the message. *)
Theorem encrypt_decrypt_roundtrip (message encryptingKey c : string) :
  sjcl_decrypt_encrypt S ->
  encryptMessage S SJCL message encryptingKey = Ok c ->
  decryptMessage S c encryptingKey = Ok message.
Proof.
  intros Hlaw Henc. unfold encryptMessage in Henc. inv_bind Henc.
  unfold decryptMessage, decryptAttempt. rewrite Ha; simpl.
  now rewrite (Hlaw _ _ _ _ Henc).
Qed.

Lemma property_filter_key {B} (p : string -> bool) (key : string)
    (l : list (string * B)) :
  p key = true ->
  property key (List.filter (fun kv => p (fst kv)) l) = property key l.
Proof.
  intros Hp. induction l as [|[k v] l IH]; [reflexivity|]. simpl.
  destruct (String.eqb_spec k key) as [->|Hne].
  - rewrite Hp. simpl. now rewrite String.eqb_refl.
  - destruct (p k); simpl; [|exact IH].
    destruct (String.eqb_spec k key); [contradiction|exact IH].
Qed.

(** X2.  Whatever [Utils.SJCL] holds, [encryptMessage] calls
    [sjcl.encrypt] with a key size of 128 and one iteration: the two
    settings of lines 25-26 win over the caller's, and every other
    setting of [Utils.SJCL] is passed on as it is. *)
Theorem encryptMessage_fixed_parameters (message encryptingKey : string)
    (key : bitArray S) :
  codec_base64_toBits S encryptingKey = Ok key ->
  exists params,
    encryptMessage S SJCL message encryptingKey
    = sjcl_encrypt S key message params
    /\ property "ks" params = Some 128
    /\ property "iter" params = Some 1
    /\ (forall k, k <> "ks" -> k <> "iter" ->
          property k params = property k SJCL).
Proof.
  intros Hkey. exists (defaults [("ks", 128); ("iter", 1)] SJCL).
  split; [unfold encryptMessage; now rewrite Hkey|].
  split; [reflexivity|]. split; [reflexivity|].
  intros k Hks Hiter. unfold defaults.
  cbn [app property].
  destruct (String.eqb_spec "ks" k) as [Heq|_]; [congruence|].
  destruct (String.eqb_spec "iter" k) as [Heq|_]; [congruence|].
  apply (property_filter_key
           (fun key => negb (existsb (String.eqb key) (map fst [("ks", 128); ("iter", 1)])))).
  simpl.
  destruct (String.eqb_spec k "ks"); [contradiction|].
  destruct (String.eqb_spec k "iter"); [contradiction|reflexivity].
Qed.

End CipherRoundTrip.

Lemma RefSjcl_decrypt_encrypt : sjcl_decrypt_encrypt RefSjcl.
Proof.
  intros key message params c. simpl. intros [= <-]. unfold ref_decrypt.
  rewrite <- append_assoc. rewrite has_prefix_append.
  rewrite !append_length. simpl String.length.
  replace (String.length key + 1)%nat with (String.length (key +:+ ":"))
    by (rewrite append_length; reflexivity).
  rewrite substring_skip.
  replace (String.length (key +:+ ":") + String.length message
           - String.length (key +:+ ":"))%nat
    with (String.length message) by lia.
  now rewrite substring_all.
Qed.

Lemma encrypt_decrypt_roundtrip_witness :
  encryptMessage RefSjcl [("iter", 1000)] "hello" "c2VjcmV0" = Ok "c2VjcmV0:hello"
  /\ decryptMessage RefSjcl "c2VjcmV0:hello" "c2VjcmV0" = Ok "hello".
Proof.
  split; [reflexivity|].
  apply (encrypt_decrypt_roundtrip RefSjcl [("iter", 1000)] "hello" "c2VjcmV0"
           "c2VjcmV0:hello" RefSjcl_decrypt_encrypt eq_refl).
Defined.

Lemma encryptMessage_fixed_parameters_witness :
  exists params,
    encryptMessage RefSjcl [("iter", 1000); ("mode", 3)] "hello" "c2VjcmV0"
    = sjcl_encrypt RefSjcl "c2VjcmV0" "hello" params
    /\ property "ks" params = Some 128
    /\ property "iter" params = Some 1
    /\ property "mode" params = Some 3.
Proof.
  destruct (encryptMessage_fixed_parameters RefSjcl [("iter", 1000); ("mode", 3)]
              "hello" "c2VjcmV0" "c2VjcmV0" eq_refl)
    as (params & Henc & Hks & Hiter & Hrest).
  exists params. repeat split; try assumption.
  rewrite Hrest; [reflexivity|discriminate|discriminate].
Defined.


(** ** HashSign: when [verifyMessage] answers [true] *)

Section VerifySound.

Variable C : CryptoLib.

Lemma verifyMessage_true_inv (text : string) (signature : option string)
    (pubKey : string) :
  verifyMessage C text signature pubKey = Ok true ->
  text <> "" /\ pubKey <> "" /\ verifies C text signature pubKey.
Proof.
  intros Hv. unfold verifyMessage in Hv.
  destruct (truthy text) eqn:Ht; [|discriminate]. simpl in Hv.
  destruct (truthy pubKey) eqn:Hp; [|discriminate]. simpl in Hv.
  assert (Htext : text <> "") by (intros ->; discriminate).
  assert (Hpub : pubKey <> "") by (intros ->; discriminate).
  destruct (truthy signature) eqn:Hs; [|discriminate]. simpl in Hv.
  destruct signature as [s|]; [|discriminate].
  assert (Hsig : s <> "") by (intros ->; discriminate).
  destruct (PublicKey_new C pubKey) as [pub|e] eqn:Hnew; [|discriminate].
  simpl in Hv. rewrite hashMessage_nonempty in Hv by exact Htext. simpl in Hv.
  destruct (Signature_fromString C s) as [sig|e] eqn:Hparse; [|discriminate].
  simpl in Hv.
  destruct (ECDSA_verify C _ sig pub "little") as [[|]|e] eqn:Hver;
    try discriminate.
  repeat split; try assumption.
  exists s, sig, pub, (rev (Hash_sha256sha256 C (list_byte_of_string text))).
  repeat split; auto using hashMessage_nonempty.
Qed.

(** X3.  [verifyMessage] answers [true] only for a present, non-empty
    signature string that parses and that the library's ECDSA check
    accepts for the reversed double hash of the text under the given
    public key; every exception of the [try] block becomes [false], none
    becomes [true]. *)
Theorem verifyMessage_true_only_if_verifies (text : string)
    (signature : option string) (pubKey : string) :
  verifyMessage C text signature pubKey = Ok true ->
  exists s sig pub,
    signature = Some s /\ s <> "" /\ text <> "" /\ pubKey <> ""
    /\ Signature_fromString C s = Ok sig
    /\ PublicKey_new C pubKey = Ok pub
    /\ ECDSA_verify C (rev (Hash_sha256sha256 C (list_byte_of_string text)))
                    sig pub "little" = Ok true.
Proof.
  intros Hv. apply verifyMessage_true_inv in Hv as (Ht & Hp & Hver).
  destruct Hver as (s & sig & pub & hash & Hs & Hne & Hparse & Hpub & Hhash & Hok).
  rewrite hashMessage_nonempty in Hhash by exact Ht. injection Hhash as <-.
  exists s, sig, pub. repeat split; assumption.
Qed.

End VerifySound.

(** ** Request keys *)

Section RequestKeysFacts.

Variable C : CryptoLib.
Variable H : HDPrivateLib C.
Variable A : AddressLib.
Variable REQUEST_KEY_AUTH : string.


(** X5.  [verifyRequestPubKey] is not soft about the extended public
    key: it derives the child key before it calls [verifyMessage], so a
    key that does not parse or derive makes it throw the library's error
    even when the signature is absent; once the key derives, it answers
    [true] only if the signature verifies under the derived child key. *)
Theorem verifyRequestPubKey_strict_on_key (requestPubKey : string)
    (signature : option string) (xPubKey : string) :
  (forall e, HDPublicKey_new A xPubKey = Throw e ->
     verifyRequestPubKey C A REQUEST_KEY_AUTH requestPubKey signature xPubKey
     = Throw e)
  /\ (forall xpub e,
        HDPublicKey_new A xPubKey = Ok xpub ->
        deriveChild A xpub REQUEST_KEY_AUTH = Throw e ->
        verifyRequestPubKey C A REQUEST_KEY_AUTH requestPubKey signature xPubKey
        = Throw e)
  /\ (verifyRequestPubKey C A REQUEST_KEY_AUTH requestPubKey signature xPubKey
      = Ok true ->
      exists xpub child,
        HDPublicKey_new A xPubKey = Ok xpub
        /\ deriveChild A xpub REQUEST_KEY_AUTH = Ok child
        /\ verifies C requestPubKey signature
             (PubKey_toString A (hd_publicKey A child))).
Proof.
  split; [|split].
  - intros e He. unfold verifyRequestPubKey. now rewrite He.
  - intros xpub e Hx He. unfold verifyRequestPubKey. rewrite Hx; simpl.
    now rewrite He.
  - intros Hv. unfold verifyRequestPubKey in Hv.
    inv_bind Hv. inv_bind Hv.
    apply verifyMessage_true_inv in Hv as (_ & _ & Hver).
    eauto.
Qed.

End RequestKeysFacts.


Lemma verifyRequestPubKey_strict_on_key_witness :
  verifyRequestPubKey RefCrypto RefHDPublic "m/1/0" "02req" None "bad"
  = Throw (LibraryError "InvalidB58Checksum").
Proof.
  exact (proj1 (verifyRequestPubKey_strict_on_key RefCrypto RefHDPublic
                  "m/1/0" "02req" None "bad") _ eq_refl).
Defined.

Lemma verifyMessage_true_only_if_verifies_witness :
  exists s sig pub,
    Some sampleSignature = Some s /\ s <> "" /\ "hello" <> "" /\ "02Lkey" <> ""
    /\ Signature_fromString RefCrypto s = Ok sig
    /\ PublicKey_new RefCrypto "02Lkey" = Ok pub
    /\ ECDSA_verify RefCrypto
         (rev (Hash_sha256sha256 RefCrypto (list_byte_of_string "hello")))
         sig pub "little" = Ok true.
Proof.
  apply (verifyMessage_true_only_if_verifies RefCrypto "hello"
           (Some sampleSignature) "02Lkey").
  vm_compute. reflexivity.
Defined.


(** ** [privateKeyToAESKey] *)

Lemma base64_digit_alphabet (n : nat) :
  (n < 64)%nat -> In (base64_digit n) base64_alphabet.
Proof. intros Hn. apply nth_In. exact Hn. Qed.

Lemma base64_index_bounds (x y : nat) :
  (x <= 255 -> y <= 255 ->
   x / 4 < 64 /\ x mod 4 * 16 + y / 16 < 64 /\ x mod 16 * 4 + y / 64 < 64
   /\ x mod 64 < 64 /\ x mod 4 * 16 < 64)%nat.
Proof.
  intros Hx Hy.
  pose proof (Nat.mod_upper_bound x 4 ltac:(discriminate)).
  pose proof (Nat.mod_upper_bound x 16 ltac:(discriminate)).
  pose proof (Nat.mod_upper_bound x 64 ltac:(discriminate)).
  assert (x / 4 < 64)%nat by (apply Nat.Div0.div_lt_upper_bound; lia).
  assert (y / 16 < 16)%nat by (apply Nat.Div0.div_lt_upper_bound; lia).
  assert (y / 64 < 4)%nat by (apply Nat.Div0.div_lt_upper_bound; lia).
  lia.
Qed.

Lemma base64_byte_bounds (a b : Byte.byte) :
  (Byte.to_nat a / 4 < 64
   /\ Byte.to_nat a mod 4 * 16 + Byte.to_nat b / 16 < 64
   /\ Byte.to_nat a mod 16 * 4 + Byte.to_nat b / 64 < 64
   /\ Byte.to_nat a mod 64 < 64
   /\ Byte.to_nat a mod 4 * 16 < 64)%nat.
Proof.
  apply base64_index_bounds; apply Byte.to_nat_bounded.
Qed.

(** Sixteen bytes print as 22 letters of the alphabet and two ["="]. *)
Lemma toBase64_16 (bytes : list Byte.byte) :
  length bytes = 16%nat ->
  String.length (toBase64 bytes) = 24%nat
  /\ substring 22 2 (toBase64 bytes) = "=="
  /\ Forall (fun c => In c base64_alphabet)
            (list_ascii_of_string (substring 0 22 (toBase64 bytes))).
Proof.
  intros Hlen.
  do 16 (destruct bytes as [|? bytes]; [discriminate|]).
  destruct bytes; [|discriminate]. clear Hlen.
  split; [reflexivity|]. split; [reflexivity|].
  cbn [toBase64 substring list_ascii_of_string].
  repeat (apply List.Forall_cons;
          [apply base64_digit_alphabet;
           first [ apply (proj1 (base64_byte_bounds _ Byte.x00))
                 | apply (proj1 (proj2 (base64_byte_bounds _ _)))
                 | apply (proj1 (proj2 (proj2 (base64_byte_bounds _ _))))
                 | apply (proj1 (proj2 (proj2 (proj2 (base64_byte_bounds _ Byte.x00)))))
                 | apply (proj2 (proj2 (proj2 (proj2 (base64_byte_bounds _ Byte.x00))))) ]
          |]).
  apply List.Forall_nil.
Qed.

Section PrivateKeyToAESKeyFacts.

Variable K : PrivateKeyLib.

(** X6.  [privateKeyToAESKey] throws an argument error, and never the
    library's own error, on an empty string and on a string that
    [PrivateKey.isValid] refuses.  On a valid key whose SHA-256 digest has
    32 bytes it returns the base64 text of the first 16 bytes of the
    digest: 24 characters, 22 letters of the base64 alphabet and two
    ["="], that is a 128-bit key. *)
Theorem privateKeyToAESKey_behaviour (privKey : string) :
  (forall b, length (Hash_sha256 K b) = 32%nat) ->
  (privKey = "" -> privateKeyToAESKey K privKey = Throw ArgumentError)
  /\ (PrivateKey_isValid K privKey = false ->
        privateKeyToAESKey K privKey = Throw ArgumentError)
  /\ (forall pk,
        privKey <> "" ->
        PrivateKey_isValid K privKey = true ->
        PrivateKey_fromString K privKey = Ok pk ->
        exists k,
          privateKeyToAESKey K privKey = Ok k
          /\ k = toBase64 (firstn 16 (Hash_sha256 K (WifKey_toBuffer K pk)))
          /\ String.length k = 24%nat
          /\ substring 22 2 k = "=="
          /\ Forall (fun c => In c base64_alphabet)
                    (list_ascii_of_string (substring 0 22 k))).
Proof.
  intros Hsha. split; [|split].
  - intros ->. reflexivity.
  - intros Hinvalid. unfold privateKeyToAESKey.
    destruct (truthy privKey); simpl; [|reflexivity].
    now rewrite Hinvalid.
  - intros pk Hne Hvalid Hpk.
    exists (toBase64 (firstn 16 (Hash_sha256 K (WifKey_toBuffer K pk)))).
    split.
    + unfold privateKeyToAESKey.
      rewrite (truthy_string_true privKey Hne); simpl.
      rewrite Hvalid; simpl. now rewrite Hpk.
    + split; [reflexivity|].
      apply toBase64_16. rewrite length_firstn, Hsha. reflexivity.
Qed.

End PrivateKeyToAESKeyFacts.

Lemma privateKeyToAESKey_behaviour_witness :
  privateKeyToAESKey RefPrivateKey "" = Throw ArgumentError
  /\ privateKeyToAESKey RefPrivateKey "key" = Throw ArgumentError
  /\ privateKeyToAESKey RefPrivateKey "Lkey" = Ok "TGtleQAAAAAAAAAAAAAAAA==".
Proof.
  assert (Hsha : forall b, length (Hash_sha256 RefPrivateKey b) = 32%nat).
  { intros b. simpl. unfold ref_digest.
    rewrite length_firstn, length_app, repeat_length. lia. }
  split; [|split].
  - apply (privateKeyToAESKey_behaviour RefPrivateKey "" Hsha). reflexivity.
  - destruct (privateKeyToAESKey_behaviour RefPrivateKey "key" Hsha) as (_ & H & _).
    apply H. reflexivity.
  - reflexivity.
Defined.

(** ** Pipe-joined hashes *)

Lemma free_of_cons (c x : ascii) (s : string) :
  free_of c (String x s) = negb (Ascii.eqb x c) && free_of c s.
Proof. reflexivity. Qed.

(** Two texts cut at their first [c] are equal part by part. *)
Lemma append_sep_inj (c : ascii) (a a' r r' : string) :
  free_of c a = true -> free_of c a' = true ->
  a +:+ String c r = a' +:+ String c r' ->
  a = a' /\ r = r'.
Proof.
  revert a'. induction a as [|x a IH]; intros [|x' a'] Ha Ha' Heq.
  - rewrite !append_nil in Heq. now injection Heq.
  - rewrite append_nil, append_cons in Heq. injection Heq as <- _.
    rewrite free_of_cons, Ascii.eqb_refl in Ha'. discriminate.
  - rewrite append_nil, append_cons in Heq. injection Heq as -> _.
    rewrite free_of_cons, Ascii.eqb_refl in Ha. discriminate.
  - rewrite !append_cons in Heq. injection Heq as <- Heq.
    rewrite free_of_cons in Ha, Ha'.
    apply andb_true_iff in Ha as [_ Ha]. apply andb_true_iff in Ha' as [_ Ha'].
    destruct (IH a' Ha Ha' Heq) as [-> ->]. auto.
Qed.

Lemma getCopayerHash_unfold (name xPubKey requestPubKey : string) :
  getCopayerHash name xPubKey requestPubKey
  = name +:+ "|" +:+ xPubKey +:+ "|" +:+ requestPubKey.
Proof. reflexivity. Qed.

(** X7.  On names and extended public keys without ["|"] the copayer
    hash tells the three fields apart: equal hashes come from equal
    names, equal extended public keys and equal request keys. *)
Theorem getCopayerHash_injective
    (name xPubKey requestPubKey name' xPubKey' requestPubKey' : string) :
  free_of "|" name = true -> free_of "|" xPubKey = true ->
  free_of "|" name' = true -> free_of "|" xPubKey' = true ->
  getCopayerHash name xPubKey requestPubKey
  = getCopayerHash name' xPubKey' requestPubKey' ->
  name = name' /\ xPubKey = xPubKey' /\ requestPubKey = requestPubKey'.
Proof.
  intros Hn Hx Hn' Hx' Heq. rewrite !getCopayerHash_unfold in Heq.
  apply (append_sep_inj "|" name name') in Heq as [-> Heq]; try assumption.
  apply (append_sep_inj "|" xPubKey xPubKey') in Heq as [-> ->]; try assumption.
  auto.
Qed.

(** X8.  A ["|"] in the name makes the copayer hash ambiguous: the name
    [n|x] with the key [y] hashes like the name [n] with the key [x|y],
    for every request key. *)
Theorem getCopayerHash_ambiguous (n x y requestPubKey : string) :
  getCopayerHash (n +:+ "|" +:+ x) y requestPubKey
  = getCopayerHash n (x +:+ "|" +:+ y) requestPubKey.
Proof.
  rewrite !getCopayerHash_unfold.
  rewrite !append_assoc. reflexivity.
Qed.

(** X9.  The legacy proposal hash cannot tell where the message ends and
    the payment URL begins: the message [m|x] with the URL [p] hashes
    like the message [m] with the URL [x|p], for every address and
    amount. *)
Theorem getProposalHash_legacy_ambiguous (toAddress : string)
    (amount : Number)
    (m x p : string) :
  getProposalHash [JString toAddress; JNumber amount;
                   JString (m +:+ "|" +:+ x); JString p]
  = getProposalHash [JString toAddress; JNumber amount;
                     JString m; JString (x +:+ "|" +:+ p)].
Proof.
  assert (Hitem : forall s, join_item (js_or (JString s) (JString "")) = s).
  { intros s. destruct (decide (s = "")) as [->|Hs]; [reflexivity|].
    unfold js_or. change (truthy (JString s)) with (truthy s).
    now rewrite (truthy_string_true s Hs). }
  unfold getProposalHash, getOldHash, join, arg.
  cbn [length Nat.ltb Nat.leb lookup list_lookup default map from_option id].
  rewrite !Hitem.
  cbn [String.concat join_item toString].
  rewrite !append_assoc. reflexivity.
Qed.

Lemma getCopayerHash_injective_witness :
  getCopayerHash "Irene" "xpubA" "02req" = "Irene|xpubA|02req"
  /\ ("Irene" = "Irene" /\ "xpubA" = "xpubA" /\ "02req" = "02req").
Proof.
  split; [reflexivity|].
  apply (getCopayerHash_injective "Irene" "xpubA" "02req" "Irene" "xpubA" "02req");
    reflexivity.
Defined.


(** ** Proposal hash: properties without a value *)

Lemma omap_skip {A B} `{EqDecision A} (f : A -> option B) (k : A) (l : list A) :
  f k = None -> omap f l = omap f (filter (fun x => x <> k) l).
Proof.
  intros Hk. induction l as [|x l IH]; [reflexivity|].
  rewrite filter_cons. destruct (decide (x <> k)) as [Hx|Hx].
  - cbn. destruct (f x); now rewrite IH.
  - apply dec_stable in Hx. subst x. cbn. now rewrite Hk.
Qed.

Lemma StronglySorted_filter {A} (R : relation A) (P : A -> Prop)
    `{forall x, Decision (P x)} (l : list A) :
  StronglySorted R l -> StronglySorted R (filter P l).
Proof.
  induction 1 as [|x l Hl IH Hx]; [constructor|].
  rewrite filter_cons. destruct (decide (P x)); [|exact IH].
  constructor; [exact IH|].
  apply Forall_forall. intros y Hy.
  apply list_elem_of_filter in Hy as [_ Hy].
  rewrite Forall_forall in Hx. now apply Hx.
Qed.

(** Sorting the keys and leaving [k] out is sorting the keys without it. *)
Lemma sorted_without (k : string) (ks1 ks2 : list string) :
  k ∉ ks1 ++ ks2 ->
  filter (fun x => x <> k) (merge_sort String.le (ks1 ++ k :: ks2))
  = merge_sort String.le (ks1 ++ ks2).
Proof.
  intros Hk.
  apply (StronglySorted_unique String.le).
  - apply StronglySorted_filter, Sorted_StronglySorted; [apply _|].
    apply Sorted_merge_sort; apply _.
  - apply Sorted_StronglySorted; [apply _|].
    apply Sorted_merge_sort; apply _.
  - rewrite !merge_sort_Permutation.
    rewrite filter_app, filter_cons.
    destruct (decide (k <> k)) as [Hkk|_]; [contradiction|].
    rewrite <- filter_app.
    assert (Hall : filter (fun x => x <> k) (ks1 ++ ks2) = ks1 ++ ks2).
    { clear -Hk. induction (ks1 ++ ks2) as [|x l IH]; [reflexivity|].
      apply not_elem_of_cons in Hk as [Hx Hl].
      rewrite filter_cons. destruct (decide (x <> k)) as [_|Hnn];
        [|exfalso; apply Hnn; congruence].
      now rewrite IH. }
    now rewrite Hall.
Qed.

Lemma property_app_other {B} (key k : string) (v : B)
    (a b : list (string * B)) :
  key <> k -> property key (a ++ (k, v) :: b) = property key (a ++ b).
Proof.
  intros Hne. induction a as [|[k' v'] a IH]; simpl.
  - destruct (String.eqb_spec k key); [congruence|reflexivity].
  - destruct (String.eqb_spec k' key); [reflexivity|exact IH].
Qed.

Lemma property_app_here {B} (k : string) (v : B) (a b : list (string * B)) :
  k ∉ map fst a -> property k (a ++ (k, v) :: b) = Some v.
Proof.
  intros Hk. induction a as [|[k' v'] a IH]; simpl.
  - now rewrite String.eqb_refl.
  - simpl in Hk. apply not_elem_of_cons in Hk as [Hne Hk].
    destruct (String.eqb_spec k' k); [congruence|auto].
Qed.

(** X10.  A property whose value is [undefined] does not count in the
    proposal hash: a header with such a property, at any place among the
    others, hashes like the header without it. *)
Theorem getProposalHash_undefined_property (k : string)
    (before after : list (string * JSValue)) :
  k ∉ map fst (before ++ after) ->
  getProposalHash [JObject (before ++ (k, JUndefined) :: after)]
  = getProposalHash [JObject (before ++ after)].
Proof.
  intros Hk.
  change (getProposalHash [?h]) with (Stringify h).
  rewrite !Stringify_object.
  set (h := fun '(k, v) => (k, Stringify v) : string * option string).
  assert (Hvals : map h (before ++ (k, JUndefined) :: after)
                  = map h before ++ (k, None) :: map h after).
  { now rewrite map_app. }
  assert (Hvals' : map h (before ++ after) = map h before ++ map h after).
  { now rewrite map_app. }
  assert (Hfst : forall l, map fst (map h l) = map fst l).
  { intros l. rewrite map_map. apply map_ext. now intros [a b]. }
  rewrite Hvals, Hvals'.
  assert (Hkeys : map fst (before ++ after) = map fst before ++ map fst after)
    by now rewrite map_app.
  rewrite Hkeys in Hk.
  assert (Hnone : keyValue (map h before ++ (k, None) :: map h after) k = None).
  { unfold keyValue. rewrite property_app_here; [reflexivity|].
    rewrite Hfst. intros Hin. apply Hk. apply elem_of_app. now left. }
  unfold sortedKeys.
  rewrite (omap_skip _ k _ Hnone).
  rewrite map_app. cbn [map fst].
  rewrite (sorted_without k (map fst before) (map fst after) Hk).
  rewrite map_app.
  assert (Hout :
    omap (keyValue (map h before ++ (k, None) :: map h after))
         (merge_sort String.le (map fst before ++ map fst after))
    = omap (keyValue (map h before ++ map h after))
           (merge_sort String.le (map fst before ++ map fst after))).
  { apply omap_ext_in. intros key Hkey.
    unfold keyValue. rewrite property_app_other; [reflexivity|].
    intros ->. apply Hk.
    rewrite <- (merge_sort_Permutation String.le). exact Hkey. }
  now rewrite Hout.
Qed.

Lemma getProposalHash_undefined_property_witness :
  getProposalHash [JObject [("toAddress", JString "addr");
                            ("message", JUndefined);
                            ("amount", JNumber (Number_of_Z 1000))]]
  = getProposalHash [JObject [("toAddress", JString "addr");
                              ("amount", JNumber (Number_of_Z 1000))]].
Proof.
  apply (getProposalHash_undefined_property "message"
           [("toAddress", JString "addr")] [("amount", JNumber (Number_of_Z 1000))]).
  apply (bool_decide_unpack _). vm_compute. exact I.
Defined.

(** ** AddressDeriver: what [deriveAddress] does not read *)

Section AddressDeriverFrame.

Variable A : AddressLib.
Variables P2SH P2PKH : string.

Lemma mapM_derive_xPubKey (path : string) (ring ring' : list PublicKeyRingEntry) :
  map xPubKey ring = map xPubKey ring' ->
  mapM (derivePublicKey A path) ring = mapM (derivePublicKey A path) ring'.
Proof.
  revert ring'. induction ring as [|item ring IH]; intros [|item' ring'] Heq;
    try discriminate; [reflexivity|].
  simpl in Heq. injection Heq as Hx Hrest.
  assert (Hd : derivePublicKey A path item = derivePublicKey A path item').
  { unfold derivePublicKey. now rewrite Hx. }
  cbn [mapM]. now rewrite Hd, (IH ring' Hrest).
Qed.

(** X11.  [deriveAddress] reads nothing of a ring entry but its
    [xPubKey]: two rings with the same extended public keys in the same
    order give the same result, whatever their request keys are.  For
    the single-key script type it does not read the threshold [m]
    either. *)
Theorem deriveAddress_frame (scriptType : string)
    (ring ring' : list PublicKeyRingEntry) (path : string) (m m' : Z)
    (network : string) :
  P2SH <> P2PKH ->
  map xPubKey ring = map xPubKey ring' ->
  deriveAddress A P2SH P2PKH scriptType ring path m network
  = deriveAddress A P2SH P2PKH scriptType ring' path m network
  /\ deriveAddress A P2SH P2PKH P2PKH ring path m network
     = deriveAddress A P2SH P2PKH P2PKH ring' path m' network.
Proof.
  intros Hne Hring. unfold deriveAddress.
  rewrite (mapM_derive_xPubKey path ring ring' Hring).
  split; [reflexivity|].
  destruct (checkArgument _); simpl; [|reflexivity].
  destruct (mapM _ ring') as [pks|e]; simpl; [|reflexivity].
  unfold makeAddress.
  destruct (String.eqb_spec P2PKH P2SH) as [Heq|_]; [congruence|].
  reflexivity.
Qed.

End AddressDeriverFrame.

Lemma deriveAddress_frame_witness :
  refDeriveAddress "P2PKH" [{| xPubKey := "xpubA"; requestPubKey := "02one" |}]
                   "m/0/3" 1 "livenet"
  = refDeriveAddress "P2PKH" [{| xPubKey := "xpubA"; requestPubKey := "02two" |}]
                     "m/0/3" 7 "livenet".
Proof.
  apply (deriveAddress_frame RefAddress "P2SH" "P2PKH" "P2PKH"
           [{| xPubKey := "xpubA"; requestPubKey := "02one" |}]
           [{| xPubKey := "xpubA"; requestPubKey := "02two" |}]
           "m/0/3" 1 7 "livenet"); [discriminate|reflexivity].
Defined.

(** ** TransactionAssembler: plans that never build *)

Section TransactionAssemblerRefusals.

Variable L : TransactionLib.
Variables P2SH P2PKH : string.
Variable MAX_TX_FEE : Z.

Lemma each_addPlanOutput_bad (os : list PlanOutput) (o : PlanOutput) :
  In o os ->
  truthy (script o) = false -> truthy (toAddress o) = false ->
  forall t, exists e, each (addPlanOutput L) os t = Throw e.
Proof.
  intros Hin Hs Ha.
  induction os as [|x os IH]; [inversion Hin|]. intros t.
  destruct Hin as [->|Hin].
  - exists StateError. cbn [each]. unfold addPlanOutput.
    now rewrite Hs, Ha.
  - cbn [each]. destruct (addPlanOutput L x t) as [t'|e]; simpl; [|eauto].
    apply (IH Hin).
Qed.

(** X12.  A plan whose explicit output list holds an output with
    neither a script nor an address never builds: [buildTx] throws,
    wherever the output stands in the list and whatever the rest of the
    plan is. *)
Theorem buildTx_refuses_empty_output (txp : TxProposal)
    (os : list PlanOutput) (o : PlanOutput) :
  outputs txp = Some os ->
  In o os ->
  truthy (script o) = false ->
  truthy (toAddress o) = false ->
  exists e, buildTx L P2SH P2PKH MAX_TX_FEE txp = Throw e.
Proof.
  intros Hos Hin Hs Ha. unfold buildTx, assemble.
  destruct (checkState _); simpl; [|eauto].
  destruct (attachInputs L P2SH P2PKH txp (tx_new L)) as [t|e]; simpl; [|eauto].
  unfold addOutputs. rewrite Hos.
  replace (truthy (Some os)) with true by reflexivity.
  rewrite andb_false_r.
  destruct (each_addPlanOutput_bad os o Hin Hs Ha t) as [e He].
  rewrite He. simpl. eauto.
Qed.

(** X13.  The filter of line 211 drops the indices that are too large
    but keeps a negative one, for which [outputs[i]] is [undefined]: with
    more than one output, a plan whose [outputOrder] holds a negative
    index never builds, for every transaction object whose [sortOutputs]
    installs what its function returns. *)
Theorem buildTx_refuses_negative_index (txp : TxProposal) (t0 : Tx L) (i : Z) :
  sortOutputs_sound L ->
  assemble L P2SH P2PKH txp = Ok t0 ->
  (1 < length (tx_outputs L t0))%nat ->
  In i (default [] (outputOrder txp)) ->
  i < 0 ->
  exists e, buildTx L P2SH P2PKH MAX_TX_FEE txp = Throw e.
Proof.
  intros Hsound Hasm Hn Hin Hneg.
  destruct (buildTx L P2SH P2PKH MAX_TX_FEE txp) as [t|e] eqn:Hb; [|eauto].
  exfalso. unfold buildTx in Hb. rewrite Hasm in Hb; simpl in Hb.
  inv_bind Hb. rewrite shuffle_many in Ha by exact Hn.
  inv_bind Ha. apply Hsound in Ha.
  assert (Hkept : In i (filteredOrder L txp t0)).
  { unfold filteredOrder, reject. apply filter_In. split; [exact Hin|].
    destruct (Z.leb_spec (Z.of_nat (length (tx_outputs L t0))) i); [lia|reflexivity]. }
  assert (Hnone : In None (permuteBy (filteredOrder L txp t0) (tx_outputs L t0))).
  { unfold permuteBy. apply in_map_iff. exists i. split; [|exact Hkept].
    unfold js_index. destruct (Z.ltb_spec i 0); [reflexivity|lia]. }
  rewrite <- Ha in Hnone. apply in_map_iff in Hnone as (x & Hx & _).
  discriminate.
Qed.

End TransactionAssemblerRefusals.

Lemma buildTx_refuses_empty_output_witness :
  exists e,
    refBuildTx (plan [60000; 40000]
                     [pay "a" 99000;
                      {| script := None; toAddress := Some ""; amount := 500 |}]
                     500 (Some [0; 1]))
    = Throw e.
Proof.
  apply (buildTx_refuses_empty_output RefLib "P2SH" "P2PKH" 100000000 _
           [pay "a" 99000; {| script := None; toAddress := Some ""; amount := 500 |}]
           {| script := None; toAddress := Some ""; amount := 500 |});
    [reflexivity|right; left; reflexivity|reflexivity|reflexivity].
Defined.

Lemma buildTx_refuses_negative_index_witness :
  exists e,
    refBuildTx (plan [60000; 40000] [pay "a" 99000; pay "b" 500] 100
                     (Some [-1; 0; 1]))
    = Throw e.
Proof.
  apply (buildTx_refuses_negative_index RefLib "P2SH" "P2PKH" 100000000
           (plan [60000; 40000] [pay "a" 99000; pay "b" 500] 100 (Some [-1; 0; 1]))
           _ (-1) RefLib_sortOutputs_sound eq_refl);
    [simpl; lia|left; reflexivity|lia].
Defined.


(** ** AmountFormatter: separators and trailing zeros *)

(** [_.dropRightWhile]: what is kept is a prefix, every element dropped
    satisfies the predicate at its index, and the last element kept does
    not. *)
Lemma dropRightWhile_spec {A} (p : A -> nat -> bool) (xs : list A) :
  exists k,
    dropRightWhile p xs = firstn k xs
    /\ (k <= length xs)%nat
    /\ (forall i x, (k <= i)%nat -> xs !! i = Some x -> p x i = true)
    /\ (forall x, xs !! (k - 1)%nat = Some x -> (0 < k)%nat -> p x (k - 1)%nat = false).
Proof.
  unfold dropRightWhile.
  set (go := fix go (n : nat) : list A :=
     match n with
     | O => []
     | S i =>
         match xs !! i with
         | Some x => if p x i then go i else firstn n xs
         | None => firstn n xs
         end
     end).
  assert (Hgo : forall n, (n <= length xs)%nat ->
    exists k, go n = firstn k xs /\ (k <= n)%nat
      /\ (forall i x, (k <= i < n)%nat -> xs !! i = Some x -> p x i = true)
      /\ (forall x, xs !! (k - 1)%nat = Some x -> (0 < k)%nat ->
                    p x (k - 1)%nat = false)).
  { induction n as [|i IH]; intros Hn.
    - exists 0%nat. repeat split; try reflexivity; intros; lia.
    - cbn [go]. fold go.
      destruct (lookup_lt_is_Some_2 xs i ltac:(lia)) as [x Hx].
      rewrite Hx. destruct (p x i) eqn:Hp.
      + destruct (IH ltac:(lia)) as (k & Hk & Hle & Hdrop & Hlast).
        exists k. repeat split; try assumption; [lia|].
        intros j y Hj Hy. destruct (decide (j = i)) as [->|Hne].
        * rewrite Hx in Hy. injection Hy as <-. exact Hp.
        * apply Hdrop; [lia|exact Hy].
      + exists (S i). repeat split; try reflexivity; [intros; lia|].
        intros y Hy _. replace (S i - 1)%nat with i in * by lia.
        rewrite Hx in Hy. now injection Hy as <-. }
  destruct (Hgo (length xs) (le_n _)) as (k & Hk & Hle & Hdrop & Hlast).
  exists k. repeat split; try assumption.
  intros i x Hi Hx. apply Hdrop; [|exact Hx].
  split; [exact Hi|]. now apply lookup_lt_Some in Hx.
Qed.

(** X14.  The decimals kept by line 157 are the given ones without a
    run of zeros at the end: nothing but ["0"] is dropped, never below
    [minDecimals] decimals, and dropping stops at the first decimal from
    the end that is not ["0"] or stands among the first [minDecimals]. *)
Theorem keptDecimals_spec (minDecimals : nat) (x1 : string) :
  let given := list_ascii_of_string x1 in
  let kept := list_ascii_of_string (keptDecimals minDecimals x1) in
  exists dropped,
    given = kept ++ dropped
    /\ Forall (fun c => c = "0"%char) dropped
    /\ (Nat.min minDecimals (length given) <= length kept)%nat
    /\ ((minDecimals < length kept)%nat -> last kept <> Some "0"%char).
Proof.
  intros given kept. unfold kept, keptDecimals.
  rewrite list_ascii_of_string_of_list_ascii. fold given.
  destruct (dropRightWhile_spec
              (fun n i => Ascii.eqb n "0" && (minDecimals <=? i)%nat) given)
    as (k & -> & Hle & Hdrop & Hlast).
  exists (skipn k given).
  split; [now rewrite firstn_skipn|].
  split; [|split].
  - apply Forall_forall. intros c Hc.
    apply list_elem_of_lookup in Hc as [j Hj].
    rewrite lookup_drop in Hj.
    specialize (Hdrop (k + j)%nat c ltac:(lia) Hj).
    apply andb_true_iff in Hdrop as [Hz _]. now apply Ascii.eqb_eq in Hz.
  - rewrite length_firstn.
    destruct (decide (minDecimals <= k)%nat); [lia|].
    destruct (decide (k = length given)); [lia|].
    destruct (lookup_lt_is_Some_2 given k ltac:(lia)) as [x Hx].
    specialize (Hdrop k x (le_n k) Hx).
    apply andb_true_iff in Hdrop as [_ Hmin].
    apply Nat.leb_le in Hmin. lia.
  - rewrite length_firstn. intros Hmin Hl.
    assert (Hk : (0 < k)%nat) by lia.
    rewrite last_lookup in Hl. rewrite length_firstn in Hl.
    replace (Nat.pred (Nat.min k (length given))) with (k - 1)%nat in Hl by lia.
    rewrite lookup_take_lt in Hl by lia.
    specialize (Hlast _ Hl Hk). rewrite Ascii.eqb_refl in Hlast. simpl in Hlast.
    apply Nat.leb_gt in Hlast. lia.
Qed.

Lemma is_digit_is_word (c : ascii) : is_digit c = true -> is_word c = true.
Proof.
  unfold is_digit, is_word. intros ->. reflexivity.
Qed.

Lemma digit_run_all (ds : list ascii) :
  forallb is_digit ds = true -> digit_run ds = length ds.
Proof.
  induction ds as [|c ds IH]; [reflexivity|]. simpl.
  intros H. apply andb_true_iff in H as [Hc Hds].
  rewrite Hc. now rewrite IH.
Qed.

(** A character other than [$] stands for itself in a replacement text. *)
Lemma substitute_other (matched before after : string)
    (captures : list (option string)) (c : ascii) (rest : list ascii) :
  c <> "$"%char ->
  substitute matched before after captures (c :: rest)
  = String c (substitute matched before after captures rest).
Proof.
  intros Hc.
  destruct c as [[] [] [] [] [] [] [] []]; try reflexivity; congruence.
Qed.

(** A replacement text without [$] is inserted as it is. *)
Lemma GetSubstitution_literal (matched before after : string)
    (captures : list (option string)) (replacement : string) :
  free_of "$" replacement = true ->
  GetSubstitution matched before after captures replacement = replacement.
Proof.
  unfold GetSubstitution, free_of.
  induction replacement as [|c r IH]; [reflexivity|].
  cbn [list_ascii_of_string forallb]. intros H.
  apply andb_true_iff in H as [Hc Hr].
  rewrite substitute_other.
  - now rewrite (IH Hr).
  - intros ->. discriminate.
Qed.

(** After a word character, inside a run of digits. *)
Lemma insertThousands_inside (thousands : string) (before ds : list ascii) :
  free_of "$" thousands = true ->
  is_word_at (last before) = true ->
  forallb is_digit ds = true ->
  insertThousands thousands before ds
  = (if (0 <? length ds)%nat && (length ds mod 3 =? 0)%nat then thousands else "")
    +:+ grouped thousands ds.
Proof.
  intros Hfree. revert before.
  induction ds as [|c ds IH]; intros before Hd Hall.
  - cbn. rewrite Hd. reflexivity.
  - pose proof (digit_run_all _ Hall) as Hrun.
    cbn [forallb] in Hall. apply andb_true_iff in Hall as [Hc Hds].
    cbn [insertThousands]. rewrite Hrun.
    cbn [is_word_at head]. rewrite Hd, (is_digit_is_word c Hc).
    rewrite GetSubstitution_literal by exact Hfree.
    cbn [Bool.eqb andb grouped].
    rewrite (IH (before ++ [c])); [reflexivity| |exact Hds].
    rewrite last_snoc. exact (is_digit_is_word c Hc).
Qed.

(** After a character that is no word character, or at the start. *)
Lemma insertThousands_start (thousands : string) (before ds : list ascii) :
  free_of "$" thousands = true ->
  is_word_at (last before) = false ->
  forallb is_digit ds = true ->
  insertThousands thousands before ds = grouped thousands ds.
Proof.
  intros Hfree Hprev Hall. destruct ds as [|c ds].
  - cbn. rewrite Hprev. reflexivity.
  - cbn [forallb] in Hall. apply andb_true_iff in Hall as [Hc Hds].
    cbn [insertThousands is_word_at head]. rewrite Hprev, (is_digit_is_word c Hc).
    cbn [Bool.eqb andb grouped append].
    rewrite append_nil.
    rewrite (insertThousands_inside thousands (before ++ [c]) ds Hfree);
      [reflexivity| |exact Hds].
    rewrite last_snoc. exact (is_digit_is_word c Hc).
Qed.

(** After a minus sign at the start. *)
Lemma insertThousands_minus (thousands : string) (ds : list ascii) :
  free_of "$" thousands = true ->
  forallb is_digit ds = true ->
  insertThousands thousands [] ("-"%char :: ds)
  = String "-" (grouped thousands ds).
Proof.
  intros Hfree Hall.
  cbn [insertThousands is_word_at head digit_run last].
  replace (is_word "-") with false by reflexivity.
  replace (is_digit "-") with false by reflexivity.
  cbn [Bool.eqb andb Nat.ltb Nat.leb]. rewrite append_nil.
  now rewrite (insertThousands_start thousands ([] ++ ["-"%char]) ds Hfree
                 eq_refl Hall).
Qed.

(** X15.  With a separator that holds no [$], on a run of digits the
    pattern of line 162 puts the separator exactly before every digit
    that has a multiple of three digits from it to the end, the first
    digit apart; a minus sign before the digits gets no separator after
    it. *)
Theorem insertThousands_digits (thousands : string) (ds : list ascii) :
  free_of "$" thousands = true ->
  forallb is_digit ds = true ->
  insertThousands thousands [] ds = grouped thousands ds
  /\ insertThousands thousands [] ("-"%char :: ds)
     = String "-" (grouped thousands ds).
Proof.
  intros Hfree Hall. split.
  - now apply insertThousands_start.
  - now apply insertThousands_minus.
Qed.

Lemma insertThousands_digits_witness :
  insertThousands "," [] (list_ascii_of_string "1234567") = "1,234,567"
  /\ insertThousands "," [] (list_ascii_of_string "-123456") = "-123,456".
Proof.
  destruct (insertThousands_digits "," (list_ascii_of_string "1234567")
              eq_refl eq_refl) as [H1 _].
  destruct (insertThousands_digits "," (list_ascii_of_string "123456")
              eq_refl eq_refl) as [_ H2].
  split; [exact H1|exact H2].
Defined.

(** A [$] in the separator is read as a replacement pattern: [$1] is
    the last group of three digits of the run, [$&] the empty match,
    [$$] a dollar sign. *)
Example insertThousands_patterns :
  insertThousands "$1" [] (list_ascii_of_string "12345") = "12345345"
  /\ insertThousands "$&" [] (list_ascii_of_string "12345") = "12345"
  /\ insertThousands "$$" [] (list_ascii_of_string "12345") = "12$345"
  /\ insertThousands "$`" [] (list_ascii_of_string "12345") = "1212345"
  /\ insertThousands "$3" [] (list_ascii_of_string "12345") = "12$3345".
Proof. repeat split. Qed.

Lemma keptDecimals_spec_witness :
  keptDecimals 2 "50000000" = "50"
  /\ keptDecimals 2 "00000000" = "00"
  /\ keptDecimals 2 "10305000" = "10305"
  /\ exists dropped,
       list_ascii_of_string "10305000"
       = list_ascii_of_string (keptDecimals 2 "10305000") ++ dropped.
Proof.
  repeat split.
  destruct (keptDecimals_spec 2 "10305000") as (dropped & Heq & _).
  exists dropped. exact Heq.
Defined.


(** *** [split] and [replace] on texts without the separator *)

Lemma free_of_append (c : ascii) (a b : string) :
  free_of c (a +:+ b) = free_of c a && free_of c b.
Proof.
  induction a as [|x a IH]; [reflexivity|].
  rewrite append_cons, !free_of_cons, IH. now rewrite andb_assoc.
Qed.

Lemma all_digits_cons (x : ascii) (s : string) :
  all_digits (String x s) = is_digit x && all_digits s.
Proof. reflexivity. Qed.

Lemma all_digits_free_of (c : ascii) (s : string) :
  is_digit c = false -> all_digits s = true -> free_of c s = true.
Proof.
  intros Hc. induction s as [|x s IH]; [reflexivity|].
  rewrite all_digits_cons, free_of_cons. intros H.
  apply andb_true_iff in H as [Hx Hs]. rewrite (IH Hs), andb_true_r.
  destruct (Ascii.eqb_spec x c) as [->|_]; [congruence|reflexivity].
Qed.

Lemma has_prefix_other (c0 x : ascii) (d s : string) :
  x <> c0 -> has_prefix (String c0 d) (String x s) = false.
Proof.
  intros Hne. unfold has_prefix. simpl.
  destruct (Ascii.eqb_spec x c0); [contradiction|reflexivity].
Qed.

Lemma split_once_free (c0 : ascii) (d s : string) :
  free_of c0 s = true -> split_once (String c0 d) s = None.
Proof.
  induction s as [|x s IH]; [reflexivity|].
  rewrite free_of_cons. intros H. apply andb_true_iff in H as [Hx Hs].
  cbn [split_once]. rewrite has_prefix_other.
  - now rewrite (IH Hs).
  - intros ->. rewrite Ascii.eqb_refl in Hx. discriminate.
Qed.

Lemma split_once_first (c0 : ascii) (d a b : string) :
  free_of c0 a = true ->
  split_once (String c0 d) (a +:+ String c0 d +:+ b) = Some (a, b).
Proof.
  induction a as [|x a IH].
  - intros _. rewrite append_nil.
    assert (Hhere : forall s, split_once (String c0 d) s
              = if has_prefix (String c0 d) s
                then Some ("", substring (String.length (String c0 d))
                                (String.length s - String.length (String c0 d)) s)
                else match s with
                     | "" => None
                     | String c s' =>
                         match split_once (String c0 d) s' with
                         | Some (a, b) => Some (String c a, b)
                         | None => None
                         end
                     end).
    { intros [|? ?]; reflexivity. }
    rewrite Hhere, has_prefix_append.
    rewrite substring_skip, append_length.
    replace (String.length (String c0 d) + String.length b
             - String.length (String c0 d))%nat
      with (String.length b) by lia.
    now rewrite substring_all.
  - rewrite free_of_cons. intros H. apply andb_true_iff in H as [Hx Ha].
    rewrite append_cons. cbn [split_once]. rewrite has_prefix_other.
    + now rewrite (IH Ha).
    + intros ->. rewrite Ascii.eqb_refl in Hx. discriminate.
Qed.

Lemma split_fuel_S (fuel : nat) (sep s : string) :
  split_fuel (S fuel) sep s
  = match split_once sep s with
    | Some (a, b) => a :: split_fuel fuel sep b
    | None => [s]
    end.
Proof. reflexivity. Qed.

Lemma split_fuel_free (fuel : nat) (c0 : ascii) (d s : string) :
  free_of c0 s = true -> split_fuel fuel (String c0 d) s = [s].
Proof.
  intros Hs. destruct fuel; [reflexivity|].
  now rewrite split_fuel_S, split_once_free.
Qed.

Lemma split_free (c0 : ascii) (d s : string) :
  free_of c0 s = true -> split (String c0 d) s = [s].
Proof. intros Hs. now apply split_fuel_free. Qed.

Lemma split_two (c0 : ascii) (d a b : string) :
  free_of c0 a = true -> free_of c0 b = true ->
  split (String c0 d) (a +:+ String c0 d +:+ b) = [a; b].
Proof.
  intros Ha Hb. unfold split.
  assert (Hlen : exists n, String.length (a +:+ String c0 d +:+ b) = S n).
  { exists (String.length a + String.length d + String.length b)%nat.
    rewrite !append_length. cbn [String.length]. lia. }
  destruct Hlen as [n ->].
  rewrite split_fuel_S, split_once_first by exact Ha.
  now rewrite split_fuel_free.
Qed.

Lemma replace_point (dec a b : string) :
  free_of "$" dec = true ->
  free_of "." a = true -> replace "." dec (a +:+ "." +:+ b) = a +:+ dec +:+ b.
Proof.
  intros Hdec Ha. unfold replace.
  rewrite (split_once_first "." "" a b Ha).
  now rewrite GetSubstitution_literal.
Qed.

Lemma replace_free (dec s : string) :
  free_of "." s = true -> replace "." dec s = s.
Proof.
  intros Hs. unfold replace. now rewrite (split_once_free "." "" s Hs).
Qed.

Lemma list_ascii_of_append (a b : string) :
  list_ascii_of_string (a +:+ b)
  = list_ascii_of_string a ++ list_ascii_of_string b.
Proof.
  induction a as [|x a IH]; [reflexivity|].
  rewrite append_cons. simpl. now rewrite IH.
Qed.

(** The integer part of a printed number, separated. *)
Lemma insertThousands_signed (thousands sign ip : string) :
  free_of "$" thousands = true ->
  sign = "" \/ sign = "-" ->
  all_digits ip = true ->
  insertThousands thousands [] (list_ascii_of_string (sign +:+ ip))
  = sign +:+ grouped thousands (list_ascii_of_string ip).
Proof.
  intros Hfree [->| ->] Hip.
  - rewrite !append_nil. now apply insertThousands_start.
  - change (list_ascii_of_string ("-" +:+ ip))
      with ("-"%char :: list_ascii_of_string ip).
    now apply insertThousands_minus.
Qed.

(** A printed number without the characters that divide it. *)
Lemma printed_free_of (sign ip : string) (c : ascii) :
  sign = "" \/ sign = "-" ->
  all_digits ip = true ->
  is_digit c = false -> c <> "-"%char ->
  free_of c (sign +:+ ip) = true.
Proof.
  intros Hsign Hip Hc Hne.
  rewrite free_of_append, (all_digits_free_of c ip Hc Hip).
  destruct Hsign as [->| ->]; [reflexivity|].
  change (free_of c "-") with (negb (Ascii.eqb "-" c) && true).
  destruct (Ascii.eqb_spec "-" c); [congruence|reflexivity].
Qed.

Lemma addSeparators_point (thousands : string) (c0 : ascii) (rest : string)
    (minDecimals : nat) (sign ip fp : string) :
  free_of "$" thousands = true ->
  free_of "$" (String c0 rest) = true ->
  sign = "" \/ sign = "-" ->
  all_digits ip = true ->
  all_digits fp = true ->
  is_digit c0 = false ->
  c0 <> "-"%char ->
  addSeparators (sign +:+ ip +:+ "." +:+ fp) thousands (String c0 rest)
                minDecimals
  = sign +:+ grouped thousands (list_ascii_of_string ip) +:+ String c0 rest
    +:+ keptDecimals minDecimals fp.
Proof.
  intros Hfree Hfreedec Hsign Hip Hfp Hc0 Hdash.
  assert (Hpoint : free_of "." (sign +:+ ip) = true)
    by (apply printed_free_of; [assumption..|reflexivity|discriminate]).
  assert (Hdec : free_of c0 (sign +:+ ip) = true)
    by (now apply printed_free_of).
  assert (Hdecfp : free_of c0 fp = true) by (now apply all_digits_free_of).
  unfold addSeparators.
  rewrite <- append_assoc, replace_point by assumption.
  rewrite split_two by assumption.
  cbn [lookup list_lookup default from_option id length Nat.ltb Nat.leb].
  rewrite (insertThousands_signed thousands sign ip Hfree Hsign Hip).
  fold (keptDecimals minDecimals fp).
  rewrite append_assoc. reflexivity.
Qed.

Lemma addSeparators_no_point (thousands : string) (c0 : ascii) (rest : string)
    (minDecimals : nat) (sign ip : string) :
  free_of "$" thousands = true ->
  sign = "" \/ sign = "-" ->
  all_digits ip = true ->
  is_digit c0 = false ->
  c0 <> "-"%char ->
  addSeparators (sign +:+ ip) thousands (String c0 rest) minDecimals
  = sign +:+ grouped thousands (list_ascii_of_string ip).
Proof.
  intros Hfree Hsign Hip Hc0 Hdash.
  assert (Hpoint : free_of "." (sign +:+ ip) = true)
    by (apply printed_free_of; [assumption..|reflexivity|discriminate]).
  assert (Hdec : free_of c0 (sign +:+ ip) = true)
    by (now apply printed_free_of).
  unfold addSeparators.
  rewrite replace_free by exact Hpoint.
  rewrite split_free by exact Hdec.
  cbn [lookup list_lookup default from_option id length Nat.ltb Nat.leb].
  rewrite (insertThousands_signed thousands sign ip Hfree Hsign Hip).
  cbn [append]. apply append_empty_r.
Qed.

(** X16.  [addSeparators] on a printed decimal number: an optional minus
    sign, digits, a point and digits.  When neither separator holds a
    [$] and the decimal separator starts with a character that is neither
    a digit nor the minus sign, the result is the sign, the integer digits
    in groups of three, the decimal separator, and the decimals without
    their strippable zeros; without a point in the number the result is
    the grouped integer alone. *)
Theorem addSeparators_decimal (thousands decimal : string) (minDecimals : nat)
    (sign ip fp : string) (c0 : ascii) (rest : string) :
  free_of "$" thousands = true ->
  free_of "$" decimal = true ->
  sign = "" \/ sign = "-" ->
  all_digits ip = true ->
  all_digits fp = true ->
  decimal = String c0 rest ->
  is_digit c0 = false ->
  c0 <> "-"%char ->
  addSeparators (sign +:+ ip +:+ "." +:+ fp) thousands decimal minDecimals
  = sign +:+ grouped thousands (list_ascii_of_string ip) +:+ decimal
    +:+ keptDecimals minDecimals fp
  /\ addSeparators (sign +:+ ip) thousands decimal minDecimals
     = sign +:+ grouped thousands (list_ascii_of_string ip).
Proof.
  intros Hfree Hfreedec Hsign Hip Hfp -> Hc0 Hdash. split.
  - now apply addSeparators_point.
  - now apply addSeparators_no_point.
Qed.

Lemma addSeparators_decimal_witness :
  addSeparators "-12345.678900" " " "," 2 = "-12 345,6789"
  /\ addSeparators "-12345" " " "," 2 = "-12 345".
Proof.
  destruct (addSeparators_decimal " " "," 2 "-" "12345" "678900" ","%char ""
              eq_refl eq_refl (or_intror eq_refl) eq_refl eq_refl eq_refl
              eq_refl ltac:(discriminate)) as [H1 H2].
  split; [exact H1|exact H2].
Defined.

(** A decimal separator that is a digit does not survive: the number is
    cut at the first such digit.  A [$] in a separator is read as a
    replacement pattern: with the decimal separator [$&] the point stays
    and the decimals are grouped as well. *)
Example addSeparators_digit_separator :
  addSeparators "12.34" "," "2" 0 = "12"
  /\ addSeparators "-1.5" "," "-" 0 = "-1"
  /\ addSeparators "12345.678999" "," "$&" 0 = "12,345.678,999"
  /\ addSeparators "12345.678999" "$1" "." 0 = "12345345.678999".
Proof. repeat split. Qed.


(** *** The digits that [toFixed] prints *)

Lemma all_digits_append (a b : string) :
  all_digits (a +:+ b) = all_digits a && all_digits b.
Proof.
  induction a as [|x a IH]; [reflexivity|].
  rewrite append_cons, !all_digits_cons, IH. now rewrite andb_assoc.
Qed.

Lemma all_digits_zeros (n : nat) : all_digits (zeros n) = true.
Proof. induction n as [|n IH]; [reflexivity|exact IH]. Qed.

Lemma zeros_length (n : nat) : String.length (zeros n) = n.
Proof. induction n as [|n IH]; [reflexivity|]. simpl. now rewrite IH. Qed.

Lemma all_digits_substring (a b : nat) (s : string) :
  all_digits s = true -> all_digits (substring a b s) = true.
Proof.
  revert a b. induction s as [|x s IH]; intros a b Hs.
  - destruct a, b; reflexivity.
  - rewrite all_digits_cons in Hs. apply andb_true_iff in Hs as [Hx Hs].
    destruct a as [|a]; [destruct b as [|b]|]; simpl; auto.
    rewrite all_digits_cons, Hx. now apply IH.
Qed.

Lemma substring_length (a b : nat) (s : string) :
  (a + b <= String.length s)%nat -> String.length (substring a b s) = b.
Proof.
  revert a b. induction s as [|x s IH]; intros a b Hlen.
  - simpl in Hlen. destruct a, b; try lia; reflexivity.
  - simpl in Hlen. destruct a as [|a]; [destruct b as [|b]|]; simpl.
    + reflexivity.
    + f_equal. apply IH. lia.
    + apply IH. lia.
Qed.

Lemma pretty_N_char_digit (x : N) : is_digit (pretty_N_char x) = true.
Proof. unfold pretty_N_char. repeat case_match; reflexivity. Qed.

Lemma pretty_N_go_digits (x : N) (s : string) :
  all_digits s = true -> all_digits (pretty_N_go x s) = true.
Proof.
  revert s. induction (N.lt_wf_0 x) as [x _ IH]; intros s Hs.
  destruct (decide (x = 0)%N) as [->|Hx]; [now rewrite pretty_N_go_0|].
  rewrite pretty_N_go_step by lia.
  apply IH; [apply N.div_lt; lia|].
  rewrite all_digits_cons, pretty_N_char_digit. exact Hs.
Qed.

Lemma pretty_N_go_length (x : N) (s : string) :
  (String.length s <= String.length (pretty_N_go x s))%nat.
Proof.
  revert s. induction (N.lt_wf_0 x) as [x _ IH]; intros s.
  destruct (decide (x = 0)%N) as [->|Hx]; [now rewrite pretty_N_go_0|].
  rewrite pretty_N_go_step by lia.
  etransitivity; [|apply IH; apply N.div_lt; lia]. simpl. lia.
Qed.

(** A non-negative integer prints as one digit or more. *)
Lemma pretty_Z_digits (n : Z) :
  0 <= n -> all_digits (pretty n) = true /\ (0 < String.length (pretty n))%nat.
Proof.
  intros Hn. destruct n as [|p|p]; [split; [reflexivity|simpl; lia]| |lia].
  change (pretty (Z.pos p)) with (pretty (N.pos p)).
  unfold pretty, pretty_N. destruct (decide (N.pos p = 0%N)); [discriminate|].
  split; [now apply pretty_N_go_digits|].
  rewrite pretty_N_go_step by lia.
  eapply Nat.lt_le_trans; [|apply pretty_N_go_length]. simpl. lia.
Qed.

Lemma pow10_nonneg (e : Z) : (0 <= pow10 e)%Q.
Proof.
  unfold pow10. destruct (0 <=? e).
  - change 0%Q with (inject_Z 0). rewrite <- Zle_Qle.
    apply Z.pow_nonneg. lia.
  - unfold Qle. simpl. lia.
Qed.

Lemma pow2_pos (e : Z) : (0 < pow2 e)%Q.
Proof.
  unfold pow2. destruct (Z.leb_spec 0 e).
  - change 0%Q with (inject_Z 0). rewrite <- Zlt_Qlt.
    apply Z.pow_pos_nonneg; lia.
  - unfold Qlt. simpl. lia.
Qed.

Lemma Qfloor_nonneg (x : Q) : (0 <= x)%Q -> 0 <= Qfloor x.
Proof.
  intros Hx. change 0 with (Qfloor 0). now apply Qfloor_resp_le.
Qed.

(** The shape of what [toFixed] prints for a number below 1e21. *)
Lemma toFixed_shape (negative : bool) (q : Q) (f : nat) :
  (f <= 100)%nat ->
  (0 <= q)%Q ->
  Qle_bool (pow10 21) q = false ->
  exists sign ip fp,
    Number_toFixed (Finite negative q) f
    = Ok (sign +:+ ip +:+ (if (f =? 0)%nat then "" else "." +:+ fp))
    /\ (sign = "" \/ sign = "-")
    /\ all_digits ip = true /\ (0 < String.length ip)%nat
    /\ all_digits fp = true /\ String.length fp = f.
Proof.
  intros Hf100 Hq Hbig. unfold Number_toFixed.
  destruct (Nat.ltb_spec 100 f) as [|_]; [lia|]. rewrite Hbig.
  set (n := Qfloor (q * pow10 (Z.of_nat f) + (1 # 2))%Q).
  assert (Hn : 0 <= n).
  { apply Qfloor_nonneg.
    apply (Qle_trans _ (0 + 0)%Q); [apply Qle_refl|].
    apply Qplus_le_compat; [|discriminate].
    apply Qmult_le_0_compat; [exact Hq|apply pow10_nonneg]. }
  destruct (pretty_Z_digits n Hn) as [Hdig Hlen].
  set (sign := if negative && negb (Qeq_bool q 0) then "-" else "").
  assert (Hsign : sign = "" \/ sign = "-").
  { unfold sign. destruct (negative && negb (Qeq_bool q 0)); auto. }
  destruct (Nat.eqb_spec f 0) as [->|Hf].
  - exists sign, (pretty n), "". rewrite append_empty_r. repeat split; auto.
  - set (m := zeros (f + 1 - String.length (pretty n)) +:+ pretty n).
    assert (Hm : all_digits m = true).
    { unfold m. now rewrite all_digits_append, all_digits_zeros, Hdig. }
    assert (Hk : (f + 1 <= String.length m)%nat).
    { unfold m. rewrite append_length, zeros_length. lia. }
    exists sign, (substring 0 (String.length m - f) m),
           (substring (String.length m - f) f m).
    repeat split; auto using all_digits_substring.
    + rewrite substring_length by lia. lia.
    + apply substring_length. lia.
Qed.

(** *** Numbers that [round64] and [parseFloat] return *)

Lemma round_half_even_nonneg (x : Q) : (0 <= x)%Q -> 0 <= round_half_even x.
Proof.
  intros Hx. unfold round_half_even.
  pose proof (Qfloor_nonneg x Hx).
  destruct (Qcompare _ _); [destruct (Z.even _)| |]; lia.
Qed.

Lemma round64_nonneg (negative negative' : bool) (q v : Q) :
  round64 negative q = Finite negative' v -> (0 <= v)%Q.
Proof.
  unfold round64. destruct (Qle_bool q 0) eqn:Hq0.
  - intros [= _ <-]. apply Qle_refl.
  - destruct (Qle_bool (pow2 1024) _); [discriminate|].
    intros [= _ <-]. rewrite Qred_correct.
    assert (Hq : (0 <= q)%Q).
    { apply Qlt_le_weak, Qnot_le_lt. intros Hle.
      apply Qle_bool_iff in Hle. congruence. }
    apply Qmult_le_0_compat.
    + change 0%Q with (inject_Z 0). rewrite <- Zle_Qle.
      apply round_half_even_nonneg.
      apply Qmult_le_0_compat; [exact Hq|].
      apply Qinv_le_0_compat, Qlt_le_weak, pow2_pos.
    + apply Qlt_le_weak, pow2_pos.
Qed.

Lemma parseFloat_nonneg (s : string) (negative : bool) (v : Q) :
  parseFloat s = Finite negative v -> (0 <= v)%Q.
Proof.
  unfold parseFloat.
  destruct (take_sign _) as [neg l].
  destruct (has_prefix _ _); [discriminate|].
  destruct (take_digits l) as [ip l1].
  destruct (match l1 with
            | [] => ([], l1)
            | c :: r => if Ascii.eqb c "." then take_digits r else ([], l1)
            end) as [fp l2].
  destruct (ip ++ fp); [discriminate|].
  apply round64_nonneg.
Qed.


(** *** The amount that [formatAmount] prints *)

Lemma includes_property {B} (key : string) (fields : list (string * B)) :
  includes (map fst fields) key = true <-> is_Some (property key fields).
Proof.
  unfold includes. induction fields as [|[k v] rest IH]; simpl.
  - split; [discriminate|intros [? [=]]].
  - rewrite (String.eqb_sym key k). destruct (String.eqb k key); simpl.
    + split; [eauto|reflexivity].
    + exact IH.
Qed.

Lemma string_of_list_ascii_length (l : list ascii) :
  String.length (string_of_list_ascii l) = length l.
Proof. induction l as [|c l IH]; [reflexivity|]. simpl. now rewrite IH. Qed.

Lemma list_ascii_of_string_length (s : string) :
  length (list_ascii_of_string s) = String.length s.
Proof. induction s as [|c s IH]; [reflexivity|]. simpl. now rewrite IH. Qed.

(** The decimals kept by line 157: digits again, no more than given and
    no fewer than [minDecimals] of them when that many are given. *)
Lemma keptDecimals_length (minDecimals : nat) (fp : string) :
  all_digits fp = true ->
  all_digits (keptDecimals minDecimals fp) = true
  /\ (Nat.min minDecimals (String.length fp)
      <= String.length (keptDecimals minDecimals fp) <= String.length fp)%nat.
Proof.
  intros Hfp. unfold keptDecimals.
  destruct (dropRightWhile_spec
              (fun n i => Ascii.eqb n "0" && (minDecimals <=? i)%nat)
              (list_ascii_of_string fp))
    as (k & -> & Hle & Hdrop & _).
  rewrite list_ascii_of_string_length in Hle.
  split.
  - unfold all_digits. rewrite list_ascii_of_string_of_list_ascii.
    unfold all_digits in Hfp. rewrite forallb_forall in Hfp |- *.
    intros c Hc. apply Hfp.
    rewrite <- (firstn_skipn k (list_ascii_of_string fp)).
    apply in_or_app. now left.
  - rewrite string_of_list_ascii_length, length_take,
      list_ascii_of_string_length.
    split; [|lia].
    destruct (Nat.le_gt_cases (Nat.min minDecimals (String.length fp)) k)
      as [Hk|Hk]; [lia|].
    destruct (lookup_lt_is_Some_2 (list_ascii_of_string fp) k) as [x Hx].
    { rewrite list_ascii_of_string_length. lia. }
    specialize (Hdrop k x (le_n _) Hx).
    apply andb_true_iff in Hdrop as [_ Hmin].
    apply Nat.leb_le in Hmin. lia.
Qed.

(** X18.  The shape of a formatted amount.  When [maxDecimals] is at
    most 100, the clipped amount is a number below 1e21, neither
    separator in use holds a [$], and the decimal separator does not
    start with a digit or a minus sign, the text is an optional minus
    sign, one digit or more in groups of three, and, unless
    [maxDecimals] is zero, the decimal separator with digits after it: at
    most [maxDecimals] of them and at least [minDecimals] (or
    [maxDecimals], if that is less). *)
Theorem formatAmount_shape (UNITS : list (string * Unit)) (satoshis : Z)
    (unit : string) (opts : FormatOptions) (u : Unit)
    (negative : bool) (q : Q) :
  let precision := if fullPrecision opts then full u else short u in
  let thousands := if truthy (thousandsSeparator opts)
                   then default "" (thousandsSeparator opts) else "," in
  let decimal := if truthy (decimalSeparator opts)
                 then default "" (decimalSeparator opts) else "." in
  property unit UNITS = Some u ->
  (maxDecimals precision <= 100)%nat ->
  clipDecimals (Number_div (Number_of_Z satoshis) (Number_of_Z (toSatoshis u)))
               (maxDecimals precision) = Finite negative q ->
  Qle_bool (pow10 21) q = false ->
  free_of "$" thousands = true ->
  free_of "$" decimal = true ->
  (forall c0 rest, decimal = String c0 rest ->
                   is_digit c0 = false /\ c0 <> "-"%char) ->
  exists sign ip fp,
    formatAmount UNITS satoshis unit opts
    = Ok (sign +:+ grouped thousands (list_ascii_of_string ip)
          +:+ (if (maxDecimals precision =? 0)%nat then ""
               else decimal +:+ fp))
    /\ (sign = "" \/ sign = "-")
    /\ all_digits ip = true /\ (0 < String.length ip)%nat
    /\ all_digits fp = true
    /\ (Nat.min (minDecimals precision) (maxDecimals precision)
        <= String.length fp <= maxDecimals precision)%nat.
Proof.
  intros precision thousands decimal Hu Hmax Hclip Hbig Hfree Hfreedec Hsep.
  assert (Hq : (0 <= q)%Q).
  { unfold clipDecimals in Hclip. eapply parseFloat_nonneg. exact Hclip. }
  assert (Hinc : includes (map fst UNITS) unit = true)
    by (apply includes_property; eauto).
  assert (Hdec : exists c0 rest, decimal = String c0 rest).
  { unfold decimal. destruct (decimalSeparator opts) as [[|c r]|]; simpl; eauto. }
  destruct Hdec as (c0 & rest & Hdec).
  destruct (Hsep c0 rest Hdec) as [Hc0 Hdash].
  destruct (toFixed_shape negative q (maxDecimals precision) Hmax Hq Hbig)
    as (sign & ip & fp & Hfix & Hsign & Hip & Hlen & Hfp & Hfplen).
  unfold formatAmount. rewrite Hinc.
  cbn [checkArgument mbind result_bind]. rewrite Hu.
  fold precision thousands decimal. rewrite Hclip, Hfix.
  cbn [mbind result_bind]. rewrite Hdec in Hfreedec |- *.
  destruct (keptDecimals_length (minDecimals precision) fp Hfp)
    as (Hkept & Hlo & Hhi).
  exists sign, ip, (keptDecimals (minDecimals precision) fp).
  destruct (Nat.eqb_spec (maxDecimals precision) 0) as [Hz|Hnz].
  - rewrite append_empty_r.
    rewrite addSeparators_no_point by assumption.
    rewrite append_empty_r. repeat split; auto; lia.
  - rewrite addSeparators_point by assumption.
    repeat split; auto; lia.
Qed.

Lemma formatAmount_shape_witness :
  exists sign ip fp,
    formatAmount walletUnits (-123456789012) "btc" noOptions
    = Ok (sign +:+ grouped "," (list_ascii_of_string ip) +:+ "." +:+ fp)
    /\ (sign = "" \/ sign = "-")
    /\ all_digits ip = true /\ (0 < String.length ip)%nat
    /\ all_digits fp = true
    /\ (2 <= String.length fp <= 6)%nat.
Proof.
  refine (formatAmount_shape walletUnits (-123456789012) "btc" noOptions
            btcUnit true (5429687001335527 # 4398046511104) eq_refl _ _
            eq_refl eq_refl eq_refl _).
  - simpl. lia.
  - vm_compute. reflexivity.
  - intros c0 rest [= <- <-]. split; [reflexivity|discriminate].
Defined.

(** More than 100 decimals are a range error of [toFixed]. *)
Example formatAmount_range_error :
  formatAmount
    [("x", {| toSatoshis := 1;
              full := {| maxDecimals := 101; minDecimals := 0 |};
              short := {| maxDecimals := 101; minDecimals := 0 |} |})]
    5 "x" noOptions
  = Throw RangeError.
Proof. vm_compute. reflexivity. Qed.

(** ** TransactionAssembler: the single payment of a plan *)

Section TransactionAssemblerPayment.

Variable L : TransactionLib.
Variables P2SH P2PKH : string.
Variable MAX_TX_FEE : Z.

(** [buildTx] reads [toAddress] and [amount] in [addOutputs] only. *)
Lemma buildTx_withPayment (txp : TxProposal) (to : option string)
    (amt : option Z) :
  (forall t, addOutputs L (withPayment to amt txp) t = addOutputs L txp t) ->
  buildTx L P2SH P2PKH MAX_TX_FEE (withPayment to amt txp)
  = buildTx L P2SH P2PKH MAX_TX_FEE txp.
Proof.
  intros Hadd. unfold buildTx, assemble.
  change (addressType (withPayment to amt txp)) with (addressType txp).
  change (fee (withPayment to amt txp)) with (fee txp).
  change (changeAddress (withPayment to amt txp)) with (changeAddress txp).
  change (attachInputs L P2SH P2PKH (withPayment to amt txp))
    with (attachInputs L P2SH P2PKH txp).
  destruct (checkState _); [|reflexivity]. simpl.
  destruct (attachInputs L P2SH P2PKH txp (tx_new L)) as [t|e];
    [|reflexivity]. simpl.
  rewrite Hadd. reflexivity.
Qed.

(** X19.  An explicit output list takes the place of the single
    payment: when the plan has [outputs], even an empty list, [buildTx]
    gives the same result whatever [toAddress] and [amount] hold. *)
Theorem buildTx_outputs_take_precedence (txp : TxProposal)
    (os : list PlanOutput) (to : option string) (amt : option Z) :
  outputs txp = Some os ->
  buildTx L P2SH P2PKH MAX_TX_FEE (withPayment to amt txp)
  = buildTx L P2SH P2PKH MAX_TX_FEE txp.
Proof.
  intros Hos. apply buildTx_withPayment. intros t.
  unfold addOutputs.
  change (outputs (withPayment to amt txp)) with (outputs txp).
  rewrite Hos. replace (truthy (Some os)) with true by reflexivity.
  now rewrite !andb_false_r.
Qed.

(** X20.  A single payment of amount zero, or to an empty address, is
    no payment: without [outputs], such a plan builds what the plan
    without [toAddress] and [amount] builds, a transaction to which no
    payment output is added. *)
Theorem buildTx_zero_payment_dropped (txp : TxProposal) :
  outputs txp = None ->
  txp_amount txp = Some 0 \/ txp_toAddress txp = Some "" ->
  buildTx L P2SH P2PKH MAX_TX_FEE txp
  = buildTx L P2SH P2PKH MAX_TX_FEE (withPayment None None txp).
Proof.
  intros Hos Hzero. symmetry. apply buildTx_withPayment. intros t.
  unfold addOutputs.
  change (outputs (withPayment None None txp)) with (outputs txp).
  change (txp_toAddress (withPayment None None txp)) with (@None string).
  rewrite Hos.
  replace (truthy (@None string)) with false by reflexivity.
  cbn [andb].
  destruct Hzero as [Hz|Hz]; rewrite Hz.
  - replace (truthy (Some 0)) with false by reflexivity.
    now rewrite andb_false_r.
  - replace (truthy (Some "")) with false by reflexivity. reflexivity.
Qed.

End TransactionAssemblerPayment.

Lemma buildTx_outputs_take_precedence_witness :
  refBuildTx (withPayment (Some "elsewhere") (Some 7)
                (plan [60000; 40000] [pay "a" 99000] 500 None))
  = refBuildTx (plan [60000; 40000] [pay "a" 99000] 500 None).
Proof.
  apply (buildTx_outputs_take_precedence RefLib "P2SH" "P2PKH" 100000000
           (plan [60000; 40000] [pay "a" 99000] 500 None)
           [pay "a" 99000] (Some "elsewhere") (Some 7) eq_refl).
Defined.

Lemma buildTx_zero_payment_dropped_witness :
  refBuildTx {| addressType := "P2PKH";
                inputs := [utxo_of 1000];
                requiredSignatures := 1;
                txp_toAddress := Some "a";
                txp_amount := Some 0;
                outputs := None;
                fee := 100;
                changeAddress := {| address := "change" |};
                outputOrder := None |}
  = refBuildTx {| addressType := "P2PKH";
                  inputs := [utxo_of 1000];
                  requiredSignatures := 1;
                  txp_toAddress := None;
                  txp_amount := None;
                  outputs := None;
                  fee := 100;
                  changeAddress := {| address := "change" |};
                  outputOrder := None |}.
Proof.
  apply (buildTx_zero_payment_dropped RefLib "P2SH" "P2PKH" 100000000
           {| addressType := "P2PKH";
              inputs := [utxo_of 1000];
              requiredSignatures := 1;
              txp_toAddress := Some "a";
              txp_amount := Some 0;
              outputs := None;
              fee := 100;
              changeAddress := {| address := "change" |};
              outputOrder := None |}
           eq_refl (or_introl eq_refl)).
Defined.
